(** * Indexing kernels of [aten/src/ATen/mps/IndexKernels.h]

    A shallow embedding of the Metal compute kernels [index_select],
    [index_put], [kernel_index_offsets], [index_put_accumulate_native_dtypes]
    and [atomic_index_put_accumulate], together with the helper [get_idx] and
    the compare-and-swap primitive [atomic_fetch_add_relaxed].

    Conventions.
    - [uint]/[uint32_t] and [int64_t] values are integers in [Z], taken to lie
      in the range of their type where they enter a kernel; every operation
      writes out its wrap-around ([wrap32], [wrap64]).
    - Typed arrays handed to a kernel ([iter_shape], [strides], [indexSizes],
      [indexStrides]) are lists; reading past their end has no defined result
      ([None]), and so has a division by a zero extent.
    - [inputData] and [outputData] are [void*] in the source and are addressed
      through [char*] arithmetic: they are byte memories keyed by the byte
      offset from the buffer's base.
    - A grid launch without atomics is a sequence of thread executions in an
      arbitrary order; a launch of an accumulating kernel is an interleaving of
      the threads' atomic steps, given by a schedule. *)

From Stdlib Require Import ZArith Lia Floats.SpecFloat.
From stdpp Require Import base option list gmap.

Open Scope Z_scope.

(** ** Machine integers *)

(** [uint] arithmetic is taken modulo [2^32]. *)
Definition wrap32 (v : Z) : Z := v mod 2 ^ 32.

(** [int64_t] arithmetic, two's complement. *)
Definition wrap64 (v : Z) : Z := (v + 2 ^ 63) mod 2 ^ 64 - 2 ^ 63.

Arguments wrap32 : simpl never.
Arguments wrap64 : simpl never.

(** The value of a 32-bit pattern read as [int]. *)
Definition signed32 (u : Z) : Z := if decide (u < 2 ^ 31) then u else u - 2 ^ 32.

(** Metal's [uint3] (and [packed_uint3], which converts without change). *)
Record uint3 := Uint3 { vec_x : Z; vec_y : Z; vec_z : Z }.

(** [uint3 v = s]: the scalar is broadcast. *)
Definition uint3_splat (s : Z) : uint3 := Uint3 s s s.

(** [s * v] for a [uint] scalar and a [uint3] vector. *)
Definition uint3_scale (s : Z) (v : uint3) : uint3 :=
  Uint3 (wrap32 (s * vec_x v)) (wrap32 (s * vec_y v)) (wrap32 (s * vec_z v)).

(** [a + b] on [uint3]. *)
Definition uint3_add (a b : uint3) : uint3 :=
  Uint3 (wrap32 (vec_x a + vec_x b)) (wrap32 (vec_y a + vec_y b))
        (wrap32 (vec_z a + vec_z b)).

#[global] Instance uint3_inhabited : Inhabited uint3 := populate (uint3_splat 0).

(** ** Byte memories *)

Abbreviation byte := Byte.byte.

#[global] Instance byte_inhabited : Inhabited byte := populate Byte.x00.

Definition byte_of_Z (v : Z) : byte :=
  default Byte.x00 (Byte.of_N (Z.to_N (v mod 256))).

Definition Z_of_byte (b : byte) : Z := Z.of_N (Byte.to_N b).

(** [n] consecutive bytes starting at offset [a]. *)
Fixpoint load_bytes (n : nat) (a : Z) (m : gmap Z byte) : list byte :=
  match n with
  | O => []
  | S n' => (m !!! a) :: load_bytes n' (a + 1) m
  end.

Fixpoint store_bytes (a : Z) (bs : list byte) (m : gmap Z byte) : gmap Z byte :=
  match bs with
  | [] => m
  | b :: bs' => store_bytes (a + 1) bs' (<[a := b]> m)
  end.

(** Little-endian encoding of the low [n] bytes of [v]. *)
Fixpoint le_encode (n : nat) (v : Z) : list byte :=
  match n with
  | O => []
  | S n' => byte_of_Z v :: le_encode n' (v / 256)
  end.

Fixpoint le_decode (bs : list byte) : Z :=
  match bs with
  | [] => 0
  | b :: bs' => Z_of_byte b + 256 * le_decode bs'
  end.

(** A 32-bit slot ([atomic_uint], [atomic_int], [int], [float]) at offset [a]. *)
Definition load32 (a : Z) (m : gmap Z byte) : Z := le_decode (load_bytes 4 a m).

Definition store32 (a : Z) (v : Z) (m : gmap Z byte) : gmap Z byte :=
  store_bytes a (le_encode 4 v) m.

(** ** [get_idx] *)

(** The [for] loop of [get_idx]; [n] iterations remain, [dim] is the loop
    counter. *)
Fixpoint get_idx_loop (iter_shape : list Z) (strides : list uint3)
    (n dim : nat) (idx : Z) (data_offsets : uint3) : option uint3 :=
  match n with
  | O => Some data_offsets
  | S n' =>
      s ← iter_shape !! dim;
      if decide (s = 0) then None else
      let remainder := idx mod s in
      let idx := idx / s in
      st ← strides !! dim;
      get_idx_loop iter_shape strides n' (S dim) idx
        (uint3_add data_offsets (uint3_scale remainder st))
  end.

Definition get_idx (tid : Z) (iter_shape : list Z) (num_dimensions : nat)
    (strides : list uint3) : option uint3 :=
  get_idx_loop iter_shape strides num_dimensions 0 tid (uint3_splat 0).

(** The successive values of [remainder] in the loop of [get_idx]: the
    coordinates of the thread, dimension 0 first. *)
Fixpoint get_idx_coords (iter_shape : list Z) (n dim : nat) (idx : Z)
    : option (list Z) :=
  match n with
  | O => Some []
  | S n' =>
      s ← iter_shape !! dim;
      if decide (s = 0) then None else
      let remainder := idx mod s in
      let idx := idx / s in
      (remainder ::.) <$> get_idx_coords iter_shape n' (S dim) idx
  end.

(** Mixed-radix value of the coordinates [coords] over the radices [shape]:
    the sum of [coords[d]] times the product of the radices before [d]. *)
Fixpoint recombine (coords shape : list Z) : Z :=
  match coords, shape with
  | c :: coords', s :: shape' => c + s * recombine coords' shape'
  | _, _ => 0
  end.

(** The stride of dimension [d] in the mixed-radix sum: the product of the
    radices before [d]. *)
Fixpoint radix_weights (w : Z) (shape : list Z) : list Z :=
  match shape with
  | [] => []
  | s :: shape' => w :: radix_weights (w * s) shape'
  end.

Definition product (shape : list Z) : Z := foldr Z.mul 1 shape.

(** The sum of [coords[d] * weights[d]]. *)
Fixpoint weighted_sum (coords weights : list Z) : Z :=
  match coords, weights with
  | c :: coords', w :: weights' => c * w + weighted_sum coords' weights'
  | _, _ => 0
  end.

(** What [get_idx] accumulates from the coordinates [coords] and the stride
    table: [data_offsets += coords[d] * strides[d]], dimension by dimension. *)
Fixpoint offsets_sum (coords : list Z) (strides : list uint3)
    (data_offsets : uint3) : uint3 :=
  match coords, strides with
  | c :: coords', st :: strides' =>
      offsets_sum coords' strides' (uint3_add data_offsets (uint3_scale c st))
  | _, _ => data_offsets
  end.

(** ** Index tables *)

(** The two declarations of [struct IndexAB], selected by [__METAL_VERSION__].
    Handles are addresses in the constant address space. *)
Module Metal2.
(** [metal::array<constant void *, 16> indexArray]; the kernel receives
    [constant IndexAB &]. *)
Record IndexAB := { indexArray : list Z }.
End Metal2.

Module Metal3.
(** [constant int64_t* indexArray]; the kernel receives [constant IndexAB *],
    an array of these. *)
Record IndexAB := { indexArray : Z }.
End Metal3.

(** What the kernels do with their [indexAB] argument: fetch the handle of the
    [i]-th index array. *)
Class IndexTable (Tbl : Type) := index_array : Tbl → nat → option Z.

(** [indexAB.indexArray[i]], cast to a pointer to [int64_t]; the array has 16
    entries. *)
#[global] Instance legacy_table : IndexTable Metal2.IndexAB := λ indexAB i,
  if decide (i < 16)%nat then Metal2.indexArray indexAB !! i else None.

(** [indexAB[i].indexArray] *)
#[global] Instance modern_table : IndexTable (list Metal3.IndexAB) := λ indexAB i,
  Metal3.indexArray <$> indexAB !! i.

(** ** Kernel arguments *)

(** The buffers bound to an indexing kernel, except [outputData], which the
    kernel updates. [constant_mem] holds the [int64_t] index arrays the handles
    of [indexAB] point to, keyed by byte address. *)
Record kernel_args (Tbl : Type) := KernelArgs {
  indexAB : Tbl;
  constant_mem : gmap Z Z;
  indexSizes : list Z;
  indexStrides : list Z;
  inputData : gmap Z byte;
  num_indices : nat;
  iter_shape : list Z;
  num_dimensions : nat;
  strides : list uint3
}.
Arguments KernelArgs {Tbl}.
Arguments indexAB {Tbl}.
Arguments constant_mem {Tbl}.
Arguments indexSizes {Tbl}.
Arguments indexStrides {Tbl}.
Arguments inputData {Tbl}.
Arguments num_indices {Tbl}.
Arguments iter_shape {Tbl}.
Arguments num_dimensions {Tbl}.
Arguments strides {Tbl}.

(** Element types the copy kernels are instantiated at
    ([REGISTER_INDEX_OP_ALL_DTYPES]). *)
Inductive dtype := char | short | int | long.

Definition sizeof (T : dtype) : nat :=
  match T with char => 1 | short => 2 | int => 4 | long => 8 end%nat.

Definition sizeof_int64_t : Z := 8.

(** ** The index loop shared by the four indexing kernels *)

(** [if (index < 0) index += index_sizes[i];] *)
Definition normalize_index (index_sizes : list Z) (i : nat) (index : Z)
    : option Z :=
  if decide (index < 0) then
    size ← index_sizes !! i; Some (wrap64 (index + size))
  else Some index.

(** The [for (uint32_t i = 0; i < num_indices; i++)] loop, which the source
    repeats verbatim in [index_select], [index_put],
    [index_put_accumulate_native_dtypes] and [atomic_index_put_accumulate]. *)
Fixpoint index_offset_loop `{IndexTable Tbl} (args : kernel_args Tbl)
    (offsets_z : Z) (n i : nat) (offset : Z) : option Z :=
  match n with
  | O => Some offset
  | S n' =>
      indexArray ← index_array (indexAB args) i;
      index ← constant_mem args
                !! (indexArray + sizeof_int64_t * (offsets_z / sizeof_int64_t));
      index ← normalize_index (indexSizes args) i index;
      index_stride ← indexStrides args !! i;
      index_offset_loop args offsets_z n' (S i)
        (wrap64 (offset + wrap64 (index * index_stride)))
  end.

Definition index_offset `{IndexTable Tbl} (args : kernel_args Tbl)
    (offsets_z : Z) : option Z :=
  index_offset_loop args offsets_z (num_indices args) 0 0.

(** *** Indices within their dimension *)

(** The thread with auxiliary offset [offsets_z] reads [index] for the indexed
    dimension [i]; the dimension has the size [N], an [int64_t], and the index
    lies within it, [-N <= index < N]. *)
Definition index_within `{IndexTable Tbl} (args : kernel_args Tbl)
    (offsets_z : Z) (i : nat) (index : Z) : Prop :=
  ∃ handle N,
    index_array (indexAB args) i = Some handle
    ∧ constant_mem args
        !! (handle + sizeof_int64_t * (offsets_z / sizeof_int64_t)) = Some index
    ∧ indexSizes args !! i = Some N
    ∧ - N ≤ index < N ∧ N < 2 ^ 63.

(** Normalization as the specification words it: into a dimension of size
    [N], the index [-k] stands for [N - k], and an index that is not negative
    stands for itself. *)
Definition wraparound (N index : Z) : Z :=
  if decide (index < 0) then N - (- index) else index.

(** The indirect offset that the normalized indices give: the sum of the
    normalized index times the index stride over the indexed dimensions, in
    [int64_t]. *)
Definition wraparound_offset {Tbl : Type} (args : kernel_args Tbl)
    (indices : list Z) : Z :=
  wrap64 (weighted_sum (zip_with wraparound (indexSizes args) indices)
            (indexStrides args)).

(** ** Copy kernels *)

Definition index_select `{IndexTable Tbl} (T : dtype) (args : kernel_args Tbl)
    (outputData : gmap Z byte) (thread_index : Z) : option (gmap Z byte) :=
  offsets ← get_idx thread_index (iter_shape args) (num_dimensions args)
               (strides args);
  offset ← index_offset args (vec_z offsets);
  let out := vec_x offsets in
  let in_ := vec_y offsets + offset in
  Some (store_bytes out (load_bytes (sizeof T) in_ (inputData args)) outputData).

Definition index_put `{IndexTable Tbl} (T : dtype) (args : kernel_args Tbl)
    (outputData : gmap Z byte) (thread_index : Z) : option (gmap Z byte) :=
  offsets ← get_idx thread_index (iter_shape args) (num_dimensions args)
               (strides args);
  offset ← index_offset args (vec_z offsets);
  let out := vec_x offsets + offset in
  let in_ := vec_y offsets in
  Some (store_bytes out (load_bytes (sizeof T) in_ (inputData args)) outputData).

(** The prologue the indexing kernels have in common: the offsets of
    [get_idx] and the [offset] of the index loop. *)
Definition resolve `{IndexTable Tbl} (args : kernel_args Tbl) (thread_index : Z)
    : option (uint3 * Z) :=
  offsets ← get_idx thread_index (iter_shape args) (num_dimensions args)
               (strides args);
  offset ← index_offset args (vec_z offsets);
  Some (offsets, offset).

(** The gather of the rows 3, 0, 2 (indices -1, 0, 2) of a row-major 4 x 3
    source of [int]: thread [t] handles column [t mod 3] of output row
    [t / 3]; a row is 12 bytes; the index array lies at address 4096 of the
    constant address space. *)
Definition gather_rows_args (src : gmap Z byte)
    : kernel_args (list Metal3.IndexAB) :=
  KernelArgs [Metal3.Build_IndexAB 4096]
    (list_to_map [(4096, -1); (4104, 0); (4112, 2)])
    [4] [12] src 1 [3; 3] 2 [Uint3 4 4 0; Uint3 12 0 8].

(** The two representations of an index table hold the same handles in their
    first [n] entries. *)
Definition same_handles (legacy : Metal2.IndexAB)
    (modern : list Metal3.IndexAB) (n : nat) : Prop :=
  (n ≤ 16)%nat
  ∧ ∀ i, (i < n)%nat →
      ∃ handle, Metal2.indexArray legacy !! i = Some handle
                ∧ modern !! i = Some (Metal3.Build_IndexAB handle).

(** The arguments of a kernel with another index table. *)
Definition with_table {Tbl Tbl' : Type} (args : kernel_args Tbl) (tbl : Tbl')
    : kernel_args Tbl' :=
  KernelArgs tbl (constant_mem args) (indexSizes args) (indexStrides args)
    (inputData args) (num_indices args) (iter_shape args) (num_dimensions args)
    (strides args).

(** A table of two index arrays in both representations, and arguments that
    use it. *)
Definition two_handles_legacy : Metal2.IndexAB :=
  Metal2.Build_IndexAB ([4096; 8192] ++ replicate 14 0).

Definition two_handles_modern : list Metal3.IndexAB :=
  [Metal3.Build_IndexAB 4096; Metal3.Build_IndexAB 8192].

Definition two_handles_args : kernel_args Metal2.IndexAB :=
  KernelArgs two_handles_legacy
    (list_to_map [(4096, -1); (4104, 0); (8192, 1); (8200, -2)])
    [4; 2] [12; 4] ∅ 2 [2] 1 [Uint3 4 4 8].

(** ** [kernel_index_offsets] *)

(** [data_offsets] is a [device uint3 *], indexed by element. *)
Fixpoint kernel_index_offsets_loop (strides : list uint3) (iter_shape : list Z)
    (thread_index : Z) (n dim : nat) (idx : Z) (data_offsets : gmap Z uint3)
    : option (gmap Z uint3) :=
  match n with
  | O => Some data_offsets
  | S n' =>
      s ← iter_shape !! dim;
      if decide (s = 0) then None else
      let remainder := idx mod s in
      let idx := idx / s in
      st ← strides !! dim;
      kernel_index_offsets_loop strides iter_shape thread_index n' (S dim) idx
        (<[thread_index :=
             uint3_add (data_offsets !!! thread_index) (uint3_scale remainder st)]>
           data_offsets)
  end.

Definition kernel_index_offsets (strides : list uint3)
    (data_offsets : gmap Z uint3) (iter_shape : list Z) (num_dimensions : nat)
    (num_offsets : Z) (thread_index : Z) : option (gmap Z uint3) :=
  let data_offsets := <[thread_index := uint3_splat 0]> data_offsets in
  kernel_index_offsets_loop strides iter_shape thread_index num_dimensions 0
    thread_index data_offsets.

(** ** Grid launches of kernels without atomics *)

(** The threads of the grid run in the order [order]; each reads constant
    buffers and performs its stores. *)
Fixpoint launch {M : Type} (kernel : M → Z → option M) (order : list Z)
    (mem : M) : option M :=
  match order with
  | [] => Some mem
  | thread_index :: order' =>
      mem' ← kernel mem thread_index; launch kernel order' mem'
  end.

(** ** Scatter followed by gather *)

(** The stride of a dimension with the roles of the output and the input
    buffer exchanged. *)
Definition swap_in_out (st : uint3) : uint3 :=
  Uint3 (vec_y st) (vec_x st) (vec_z st).

(** The arguments of the gather that follows a scatter with [args]: the same
    index table, index sizes, index strides and shape; the scattered buffer
    [scattered] as input; the stride table [g (strides args)]. *)
Definition gather_args {Tbl : Type} (g : list uint3 → list uint3)
    (args : kernel_args Tbl) (scattered : gmap Z byte) : kernel_args Tbl :=
  KernelArgs (indexAB args) (constant_mem args) (indexSizes args)
    (indexStrides args) scattered (num_indices args) (iter_shape args)
    (num_dimensions args) (g (strides args)).

(** The address a thread of [index_put] writes to. *)
Definition scatter_dest `{IndexTable Tbl} (args : kernel_args Tbl)
    (thread_index : Z) : option Z :=
  r ← resolve args thread_index; Some (vec_x r.1 + r.2).

(** No two threads of a grid of [n] threads write overlapping elements. *)
Definition no_destination_aliasing `{IndexTable Tbl} (T : dtype)
    (args : kernel_args Tbl) (n : Z) : Prop :=
  ∀ t t' d d',
    0 ≤ t < n → 0 ≤ t' < n → t ≠ t' →
    scatter_dest args t = Some d → scatter_dest args t' = Some d' →
    d + Z.of_nat (sizeof T) ≤ d' ∨ d' + Z.of_nat (sizeof T) ≤ d.

(** Scattering with [args] over a grid of [n] threads and then gathering from
    the scattered buffer, with the stride table [g (strides args)], recovers
    the values: the element the gather leaves at the output position of
    thread [t] is the element the scatter read at the input position of
    thread [t]. Both grids run in arbitrary orders. *)
Definition scatter_then_gather_recovers (g : list uint3 → list uint3) : Prop :=
  ∀ (Tbl : Type) (table : IndexTable Tbl) (T : dtype) (args : kernel_args Tbl)
    (n : Z)
    (order order' : list Z) (outputData gathered scattered : gmap Z byte),
    order ≡ₚ seqZ 0 n →
    order' ≡ₚ seqZ 0 n →
    no_destination_aliasing T args n →
    launch (index_put T args) order outputData = Some scattered →
    ∃ result,
      launch (index_select T (gather_args g args scattered)) order' gathered
      = Some result
      ∧ ∀ t, 0 ≤ t < n →
          ∃ put_offsets select_offsets,
            get_idx t (iter_shape args) (num_dimensions args) (strides args)
            = Some put_offsets
            ∧ get_idx t (iter_shape args) (num_dimensions args)
                (g (strides args)) = Some select_offsets
            ∧ load_bytes (sizeof T) (vec_x select_offsets) result
              = load_bytes (sizeof T) (vec_y put_offsets) (inputData args).

(** A scatter of two [int] values, 1 and 2, to the destinations 4 and 0
    (indices 1 and 0 of a dimension of size 2, 4 bytes apart). *)
Definition swap_pair_args : kernel_args (list Metal3.IndexAB) :=
  KernelArgs [Metal3.Build_IndexAB 4096]
    (list_to_map [(4096, 1); (4104, 0)])
    [2] [4] (store32 0 1 (store32 4 2 ∅)) 1 [2] 1 [Uint3 0 4 8].

(** ** Atomic operations of the Metal standard library

    The three library functions the accumulating kernels call, on a 32-bit
    slot at byte offset [object], as C++11 and the Metal Shading Language define
    them. Each is one indivisible access to the slot. *)

Definition atomic_load_explicit (object : Z) (m : gmap Z byte) : Z :=
  load32 object m.

(** Returns the old value; the sum wraps around. *)
Definition atomic_fetch_add_explicit (object operand : Z) (m : gmap Z byte)
    : Z * gmap Z byte :=
  let old := load32 object m in
  (old, store32 object (wrap32 (old + operand)) m).

(** Returns the success flag, the new contents of [expected] and the memory.
    On failure [expected] receives the slot's current value. The weak form may
    fail although the slot holds [expected]: [spurious] says whether it does so
    at this call. *)
Definition atomic_compare_exchange_weak_explicit (object expected desired : Z)
    (spurious : bool) (m : gmap Z byte) : bool * Z * gmap Z byte :=
  let current := load32 object m in
  if decide (current = expected) then
    if spurious then (false, current, m)
    else (true, expected, store32 object desired m)
  else (false, current, m).

(** ** Value types of [atomic_fetch_add_relaxed]

    The template parameter [T]: a type of 32 bits with [as_type<T>],
    [as_type<uint>] and [+]. *)
Class AsType32 (T : Type) := {
  as_type_T : Z → T;
  as_type_uint : T → Z;
  T_add : T → T → T
}.

(** What [as_type] guarantees for a 32-bit [T]: it is the identity on bit
    patterns, in both directions. *)
Record AsType32Laws (T : Type) `{AsType32 T} : Prop := {
  as_type_uint_range : ∀ v : T, 0 ≤ as_type_uint v < 2 ^ 32;
  as_type_T_uint : ∀ v : T, as_type_T (as_type_uint v) = v;
  as_type_uint_T : ∀ u : Z, 0 ≤ u < 2 ^ 32 → as_type_uint (as_type_T u) = u
}.

(** *** [float]

    A [float] is its IEEE 754 binary32 bit pattern. *)
Record float := Float {
  float_bits : Z;
  float_range : bool_decide (0 ≤ float_bits < 2 ^ 32)
}.

Definition float_of_bits (u : Z) : float :=
  Float (u mod 2 ^ 32)
    (bool_decide_pack _ (Z.mod_pos_bound u (2 ^ 32) eq_refl)).

(** Decoding of a binary32 pattern: sign bit 31, exponent bits 30..23,
    fraction bits 22..0. *)
Definition spec_of_bits (u : Z) : spec_float :=
  let sign := bool_decide (2 ^ 31 ≤ u) in
  let e := (u / 2 ^ 23) mod 2 ^ 8 in
  let f := u mod 2 ^ 23 in
  if decide (e = 0) then
    match f with
    | Z.pos p => S754_finite sign p (-149)
    | _ => S754_zero sign
    end
  else if decide (e = 255) then
    if decide (f = 0) then S754_infinity sign else S754_nan
  else
    match f + 2 ^ 23 with
    | Z.pos p => S754_finite sign p (e - 150)
    | _ => S754_nan
    end.

(** Encoding; a NaN is encoded as the default quiet NaN. *)
Definition bits_of_spec (v : spec_float) : Z :=
  let sign_bit (s : bool) := if s then 2 ^ 31 else 0 in
  match v with
  | S754_zero s => sign_bit s
  | S754_infinity s => sign_bit s + 255 * 2 ^ 23
  | S754_nan => 255 * 2 ^ 23 + 2 ^ 22
  | S754_finite s m e =>
      if decide (Z.pos m < 2 ^ 23) then sign_bit s + Z.pos m
      else sign_bit s + (e + 150) * 2 ^ 23 + (Z.pos m - 2 ^ 23)
  end.

(** [a + b] on [float]: binary32 addition, rounding to nearest even. *)
Definition float_add (a b : float) : float :=
  float_of_bits
    (bits_of_spec
       (SFadd 24 128 (spec_of_bits (float_bits a)) (spec_of_bits (float_bits b)))).

#[global] Instance float_as_type : AsType32 float := {|
  as_type_T := float_of_bits;
  as_type_uint := float_bits;
  T_add := float_add
|}.

(** ** [atomic_fetch_add_relaxed] as a thread

    A thread inside [atomic_fetch_add_relaxed<T>(addr, value)] is either about
    to load the slot, or about to attempt the compare-and-swap with its locals
    [expected] and [updated], or it has returned. *)
Inductive cas_thread (T : Type) :=
  | AtLoad (addr : Z) (value : T)
  | AtCas (addr : Z) (value : T) (expected : Z) (updated : T)
  | Returned (addr : Z) (value : T).
Arguments AtLoad {T}.
Arguments AtCas {T}.
Arguments Returned {T}.

(** One step: the next access to the slot, with the local computation that
    follows it up to the next access. *)
Definition atomic_fetch_add_relaxed_step `{AsType32 T} (spurious : bool)
    (st : cas_thread T) (m : gmap Z byte) : cas_thread T * gmap Z byte :=
  match st with
  | AtLoad addr value =>
      let expected := atomic_load_explicit addr m in
      let updated := T_add (as_type_T expected) value in
      (AtCas addr value expected updated, m)
  | AtCas addr value expected updated =>
      let '(ok, expected, m) :=
        atomic_compare_exchange_weak_explicit addr expected
          (as_type_uint updated) spurious m in
      if ok : bool then (Returned addr value, m)
      else
        let updated := T_add (as_type_T expected) value in
        (AtCas addr value expected updated, m)
  | Returned addr value => (st, m)
  end.

(** The states a thread of [atomic_fetch_add_relaxed<T>(addr, value)] can be
    in while other threads change the memory at will between its accesses. *)
Inductive cas_reachable `{AsType32 T} (addr : Z) (value : T)
    : cas_thread T → Prop :=
  | cas_reachable_start : cas_reachable addr value (AtLoad addr value)
  | cas_reachable_step st spurious m :
      cas_reachable addr value st →
      cas_reachable addr value (atomic_fetch_add_relaxed_step spurious st m).1.

(** Between its accesses a thread keeps its arguments, and at the
    compare-and-swap its [updated] is the sum for its [expected]. *)
Definition cas_invariant `{AsType32 T} (addr : Z) (value : T)
    (st : cas_thread T) : Prop :=
  match st with
  | AtLoad a v | Returned a v => a = addr ∧ v = value
  | AtCas a v expected updated =>
      a = addr ∧ v = value ∧ updated = T_add (as_type_T expected) value
  end.

Definition cas_returned {T} (st : cas_thread T) : bool :=
  match st with Returned _ _ => true | _ => false end.

Definition cas_addr {T} (st : cas_thread T) : Z :=
  match st with AtLoad a _ | AtCas a _ _ _ | Returned a _ => a end.

Definition cas_value {T} (st : cas_thread T) : T :=
  match st with AtLoad _ v | AtCas _ v _ _ | Returned _ v => v end.

(** What a thread of the native kernel still has to do: its
    [atomic_fetch_add_explicit], or nothing. *)
Inductive native_thread :=
  | NativePending (addr : Z) (value : Z)
  | NativeReturned (addr : Z) (value : Z).

Definition native_step (spurious : bool) (st : native_thread) (m : gmap Z byte)
    : native_thread * gmap Z byte :=
  match st with
  | NativePending addr value =>
      (NativeReturned addr value, (atomic_fetch_add_explicit addr value m).2)
  | NativeReturned _ _ => (st, m)
  end.

Definition native_returned (st : native_thread) : bool :=
  match st with NativeReturned _ _ => true | _ => false end.

Definition native_addr (st : native_thread) : Z :=
  match st with NativePending a _ | NativeReturned a _ => a end.

Definition native_value (st : native_thread) : Z :=
  match st with NativePending _ v | NativeReturned _ v => v end.

(** ** Accumulating kernels

    Up to its atomic operation a thread reads constant buffers only, so a
    thread of an accumulating kernel starts as the thread state its prologue
    computes. *)

Definition index_put_accumulate_native_dtypes `{IndexTable Tbl}
    (args : kernel_args Tbl) (thread_index : Z) : option native_thread :=
  offsets ← get_idx thread_index (iter_shape args) (num_dimensions args)
               (strides args);
  offset ← index_offset args (vec_z offsets);
  let out := vec_x offsets + offset in
  let in_ := vec_y offsets in
  Some (NativePending out (load32 in_ (inputData args))).

Definition atomic_index_put_accumulate `{IndexTable Tbl} `{AsType32 T}
    (args : kernel_args Tbl) (thread_index : Z) : option (cas_thread T) :=
  offsets ← get_idx thread_index (iter_shape args) (num_dimensions args)
               (strides args);
  offset ← index_offset args (vec_z offsets);
  let out := vec_x offsets + offset in
  let in_ := vec_y offsets in
  Some (AtLoad out (as_type_T (load32 in_ (inputData args)))).

(** ** Interleavings

    A schedule names, step by step, the thread that performs its next atomic
    access and whether a weak compare-and-swap fails spuriously there. *)
Definition sys_step {St : Type}
    (tstep : bool → St → gmap Z byte → St * gmap Z byte)
    (s : list St * gmap Z byte) (ev : nat * bool) : list St * gmap Z byte :=
  match s.1 !! ev.1 with
  | Some st => let '(st', m') := tstep ev.2 st s.2 in (<[ev.1 := st']> s.1, m')
  | None => s
  end.

Definition run_schedule {St : Type}
    (tstep : bool → St → gmap Z byte → St * gmap Z byte)
    (sched : list (nat * bool)) (s : list St * gmap Z byte)
    : list St * gmap Z byte :=
  fold_left (sys_step tstep) sched s.

(** The threads of a grid of [n] threads at their start. *)
Definition spawn {St : Type} (prologue : Z → option St) (n : nat)
    : option (list St) :=
  mapM prologue (seqZ 0 (Z.of_nat n)).

(** The schedule that runs the threads one after the other, two accesses
    each, without spurious failures. *)
Definition sequential_schedule (order : list nat) : list (nat * bool) :=
  order ≫= λ i, [(i, false); (i, false)].

(** Whether the next access of a thread is a compare-and-swap that succeeds:
    the flag that [atomic_compare_exchange_weak_explicit] returns. *)
Definition cas_succeeds `{AsType32 T} (spurious : bool) (st : cas_thread T)
    (m : gmap Z byte) : bool :=
  match st with
  | AtCas addr _ expected updated =>
      (atomic_compare_exchange_weak_explicit addr expected
         (as_type_uint updated) spurious m).1.1
  | _ => false
  end.

(** The threads whose compare-and-swap succeeds in the course of a schedule,
    in the order of their successes. *)
Fixpoint cas_success_order `{AsType32 T} (sched : list (nat * bool))
    (s : list (cas_thread T) * gmap Z byte) : list nat :=
  match sched with
  | [] => []
  | ev :: sched' =>
      (if default false ((λ st, cas_succeeds ev.2 st s.2) <$> s.1 !! ev.1)
       then [ev.1] else [])
      ++ cas_success_order sched'
           (sys_step atomic_fetch_add_relaxed_step s ev)
  end.

(** ** Sums *)

Definition Zsum (l : list Z) : Z := foldr Z.add 0 l.

(** The values of the threads that have returned. *)
Definition cas_returned_values {T} (threads : list (cas_thread T)) : list T :=
  omap (λ st, if cas_returned st then Some (cas_value st) else None) threads.

Definition native_returned_sum (threads : list native_thread) : Z :=
  Zsum ((λ st, if native_returned st then native_value st else 0) <$> threads).

(** ** Invariants of the interleavings *)

(** Native path: all threads accumulate into the slot at [a], which holds the
    initial value plus the values of the threads that have returned. *)
Definition native_sys_inv (a : Z) (m0 : gmap Z byte)
    (s : list native_thread * gmap Z byte) : Prop :=
  Forall (λ st, native_addr st = a) s.1
  ∧ load32 a s.2 = wrap32 (load32 a m0 + native_returned_sum s.1).

(** Emulated path: the slot at [a], read as [T], holds the initial value with
    the values of the threads that have returned added one at a time, in some
    order. *)
Definition cas_sys_inv `{AsType32 T} (a : Z) (m0 : gmap Z byte)
    (s : list (cas_thread T) * gmap Z byte) : Prop :=
  Forall (λ st, cas_invariant a (cas_value st) st) s.1
  ∧ ∃ order,
      order ≡ₚ cas_returned_values s.1
      ∧ as_type_T (load32 a s.2)
        = fold_left T_add order (as_type_T (load32 a m0)).

(** ** Scenarios of the emulated accumulation *)

(** The bit patterns of 1.0, 2.0, 3.0, 16777216.0 and -16777216.0. *)
Definition f32_1 : Z := 0x3F800000.
Definition f32_2 : Z := 0x40000000.
Definition f32_3 : Z := 0x40400000.
Definition f32_2p24 : Z := 0x4B800000.
Definition f32_neg_2p24 : Z := 0xCB800000.

(** A thread adding 1.0 to the slot at offset 0: it loads while the slot holds
    1.0, and attempts its compare-and-swap after another thread has made it
    2.0. *)
Definition retry_example : cas_thread float :=
  (atomic_fetch_add_relaxed_step false
     (atomic_fetch_add_relaxed_step false (AtLoad 0 (float_of_bits f32_1))
        (store32 0 f32_1 ∅)).1
     (store32 0 f32_2 ∅)).1.

(** Two threads that both accumulate into the [float] at offset 0 of
    [outputData]; their values, 16777216.0 and -16777216.0, lie at offsets 0
    and 4 of [inputData]. *)
Definition cancel_args : kernel_args (list Metal3.IndexAB) :=
  KernelArgs [] ∅ [] [] (store32 0 f32_2p24 (store32 4 f32_neg_2p24 ∅))
    0 [2] 1 [Uint3 0 4 0].

(** The threads of the launch of [cancel_args], and its output buffer, which
    holds 1.0. *)
Definition cancel_threads : list (cas_thread float) :=
  [AtLoad 0 (float_of_bits f32_2p24); AtLoad 0 (float_of_bits f32_neg_2p24)].

Definition cancel_output : gmap Z byte := store32 0 f32_1 ∅.

(** Two threads of the native kernel that add the [int] values 5 and 7 to the
    slot at offset 0 of [outputData]. *)
Definition native_pair_args : kernel_args (list Metal3.IndexAB) :=
  KernelArgs [] ∅ [] [] (store32 0 5 (store32 4 7 ∅)) 0 [2] 1 [Uint3 0 4 0].

Definition native_pair_threads : list native_thread :=
  [NativePending 0 5; NativePending 0 7].

(** The destination slot of some threads gets the same value whatever the
    interleaving: there is one value [total] that every complete run leaves
    there. *)
Definition accumulate_order_independent `{AsType32 T}
    (threads : list (cas_thread T)) (a : Z) (m0 : gmap Z byte) : Prop :=
  ∃ total : T,
    ∀ sched threads' m',
      run_schedule atomic_fetch_add_relaxed_step sched (threads, m0)
      = (threads', m') →
      Forall (λ st, cas_returned st) threads' →
      as_type_T (load32 a m') = total.

(** ** Bounds of the indirect offset *)

(** The largest indirect offset that indices within their dimensions can
    produce: the sum of [(size - 1) * stride] over the indexed dimensions. *)
Definition max_index_offset (index_sizes index_strides : list Z) : Z :=
  Zsum (zip_with (λ size stride, (size - 1) * stride) index_sizes index_strides).

(** The index [index] that a thread with auxiliary offset [offsets_z] reads
    for the indexed dimension [i] lies within the dimension, and the index
    stride of the dimension is not negative. *)
Definition index_in_range `{IndexTable Tbl} (args : kernel_args Tbl)
    (offsets_z : Z) (i : nat) (index : Z) : Prop :=
  index_within args offsets_z i index
  ∧ ∃ stride, indexStrides args !! i = Some stride ∧ 0 ≤ stride.

(** The arguments of a kernel with other index sizes. *)
Definition with_index_sizes {Tbl : Type} (args : kernel_args Tbl)
    (index_sizes : list Z) : kernel_args Tbl :=
  KernelArgs (indexAB args) (constant_mem args) index_sizes (indexStrides args)
    (inputData args) (num_indices args) (iter_shape args) (num_dimensions args)
    (strides args).

(** ** Launches of kernels that copy *)

(** On the threads of [order] the kernel copies [n] bytes from [src t] of the
    constant buffer [input] to [dst t] of the memory it updates. *)
Definition copies (kernel : gmap Z byte → Z → option (gmap Z byte)) (n : nat)
    (input : gmap Z byte) (dst src : Z → Z) (order : list Z) : Prop :=
  Forall (λ t, ∀ m, kernel m t
                    = Some (store_bytes (dst t) (load_bytes n (src t) input) m))
    order.

(** Thread [t] writes the byte at offset [b]. *)
Definition covers (n : nat) (dst : Z → Z) (b t : Z) : Prop :=
  dst t ≤ b < dst t + Z.of_nat n.

#[global] Instance covers_dec n dst b t : Decision (covers n dst b t).
Proof. unfold covers. apply _. Defined.

(** ** The copy kernels by operation

    [REGISTER_INDEX_OP] instantiates [index_ ## INDEX_OP_TYPE<DTYPE>] for the
    operations [select] and [put]. *)
Inductive index_op := select | put.

Definition index_kernel `{IndexTable Tbl} (INDEX_OP_TYPE : index_op)
    (DTYPE : dtype)
    : kernel_args Tbl → gmap Z byte → Z → option (gmap Z byte) :=
  match INDEX_OP_TYPE with
  | select => index_select DTYPE
  | put => index_put DTYPE
  end.

(** The offset in [outputData] that a thread writes and the offset in
    [inputData] that it reads, from the result of its prologue. *)
Definition write_offset (op : index_op) (r : uint3 * Z) : Z :=
  match op with select => vec_x r.1 | put => vec_x r.1 + r.2 end.

Definition read_offset (op : index_op) (r : uint3 * Z) : Z :=
  match op with select => vec_y r.1 + r.2 | put => vec_y r.1 end.

(** The same with a default for threads whose prologue is undefined. *)
Definition write_offset_of `{IndexTable Tbl} (op : index_op)
    (args : kernel_args Tbl) (t : Z) : Z :=
  default 0 (write_offset op <$> resolve args t).

Definition read_offset_of `{IndexTable Tbl} (op : index_op)
    (args : kernel_args Tbl) (t : Z) : Z :=
  default 0 (read_offset op <$> resolve args t).

(** The elements that the threads [t] and [t'] write do not overlap. *)
Definition writes_disjoint `{IndexTable Tbl} (op : index_op) (T : dtype)
    (args : kernel_args Tbl) (t t' : Z) : Prop :=
  ∀ r r', resolve args t = Some r → resolve args t' = Some r' →
    write_offset op r + Z.of_nat (sizeof T) ≤ write_offset op r'
    ∨ write_offset op r' + Z.of_nat (sizeof T) ≤ write_offset op r.

(** ** Progress of [atomic_fetch_add_relaxed] *)

(** The number of threads that have not returned. *)
Definition pending_count {T} (threads : list (cas_thread T)) : nat :=
  length (filter (λ st, cas_returned st = false) threads).

(** The number of steps that the schedule gives to thread [i]. *)
Definition steps_of (i : nat) (sched : list (nat * bool)) : nat :=
  length (filter (λ ev, ev.1 = i) sched).

(** A bound on the accesses that thread [i] still needs when no
    compare-and-swap fails spuriously: one for each thread that has not
    returned and may still change the slot at [a], and one more if the thread
    has yet to load or holds an [expected] that the slot no longer has. *)
Definition cas_potential {T} (a : Z) (i : nat)
    (s : list (cas_thread T) * gmap Z byte) : nat :=
  match s.1 !! i with
  | Some (AtLoad _ _) => pending_count s.1 + 1
  | Some (AtCas _ _ expected _) =>
      pending_count s.1 + (if decide (load32 a s.2 = expected) then 0 else 1)
  | _ => 0
  end.

(** ** Accumulation into several destinations *)

(** The 32-bit slots at the offsets [a] and [a'] do not overlap. *)
Definition slot_apart (a a' : Z) : Prop := a' + 4 ≤ a ∨ a + 4 ≤ a'.

(** The values of the threads that accumulate into the slot at [a], in the
    order of the threads. *)
Definition native_values_at (a : Z) (threads : list native_thread) : list Z :=
  omap (λ st, if bool_decide (native_addr st = a)
              then Some (native_value st) else None) threads.

Definition cas_values_at {T} (a : Z) (threads : list (cas_thread T)) : list T :=
  omap (λ st, if bool_decide (cas_addr st = a)
              then Some (cas_value st) else None) threads.

(** The same for the threads that have returned. *)
Definition native_returned_sum_at (a : Z) (threads : list native_thread) : Z :=
  Zsum ((λ st, if native_returned st && bool_decide (native_addr st = a)
               then native_value st else 0) <$> threads).

Definition cas_returned_values_at {T} (a : Z) (threads : list (cas_thread T))
    : list T :=
  omap (λ st, if cas_returned st && bool_decide (cas_addr st = a)
              then Some (cas_value st) else None) threads.

(** Every thread accumulates into the slot at [a] or into a slot that does
    not overlap it; the slot at [a] holds its initial value and the values of
    the returned threads that accumulate into it. *)
Definition native_sys_inv_at (a : Z) (m0 : gmap Z byte)
    (s : list native_thread * gmap Z byte) : Prop :=
  Forall (λ st, native_addr st = a ∨ slot_apart a (native_addr st)) s.1
  ∧ load32 a s.2 = wrap32 (load32 a m0 + native_returned_sum_at a s.1).

Definition cas_sys_inv_at `{AsType32 T} (a : Z) (m0 : gmap Z byte)
    (s : list (cas_thread T) * gmap Z byte) : Prop :=
  Forall (λ st, cas_invariant (cas_addr st) (cas_value st) st) s.1
  ∧ Forall (λ st, cas_addr st = a ∨ slot_apart a (cas_addr st)) s.1
  ∧ ∃ order,
      order ≡ₚ cas_returned_values_at a s.1
      ∧ as_type_T (load32 a s.2)
        = fold_left T_add order (as_type_T (load32 a m0)).

(** Three threads of the native kernel: the first and the third add 5 and 9 to
    the slot at offset 0, the second adds 7 to the slot at offset 4 (indices
    0, 1, 0 into a dimension of 2 elements of 4 bytes). *)
Definition native_triple_args : kernel_args (list Metal3.IndexAB) :=
  KernelArgs [Metal3.Build_IndexAB 4096]
    (list_to_map [(4096, 0); (4104, 1); (4112, 0)])
    [2] [4] (store32 0 5 (store32 4 7 (store32 8 9 ∅))) 1 [3] 1 [Uint3 0 4 8].

Definition native_triple_threads : list native_thread :=
  [NativePending 0 5; NativePending 4 7; NativePending 0 9].

(** Three threads of the emulated kernel: the first and the third add 1.0 and
    3.0 to the [float] at offset 0, the second adds 2.0 to the [float] at
    offset 4. *)
Definition float_triple_args : kernel_args (list Metal3.IndexAB) :=
  KernelArgs [Metal3.Build_IndexAB 4096]
    (list_to_map [(4096, 0); (4104, 1); (4112, 0)])
    [2] [4] (store32 0 f32_1 (store32 4 f32_2 (store32 8 f32_3 ∅)))
    1 [3] 1 [Uint3 0 4 8].

Definition float_triple_threads : list (cas_thread float) :=
  [AtLoad 0 (float_of_bits f32_1); AtLoad 4 (float_of_bits f32_2);
   AtLoad 0 (float_of_bits f32_3)].

(** ** Counting with the emulated accumulation *)

(** The binary32 pattern [bits] encodes the integer [k] exactly. *)
Definition float_value_is (bits : Z) (k : Z) : bool :=
  match spec_of_bits bits with
  | S754_zero _ => bool_decide (k = 0)
  | S754_finite s m e =>
      negb s
      && (if decide (e < 0)
          then bool_decide (Z.pos m mod 2 ^ (- e) = 0)
               && bool_decide (Z.pos m / 2 ^ (- e) = k)
          else bool_decide (Z.pos m * 2 ^ e = k))
  | _ => false
  end.

(** Adding 1.0 [n] times to the pattern [acc] passes through the encodings of
    [k + 1], ..., [k + n]. *)
Fixpoint ones_sum_check (n : nat) (k : Z) (acc : Z) : bool :=
  match n with
  | O => true
  | S n' =>
      let acc' :=
        float_bits (float_add (float_of_bits acc) (float_of_bits f32_1)) in
      float_value_is acc' (k + 1) && ones_sum_check n' (k + 1) acc'
  end.

(** ** The kernels of the library by host name *)

From stdpp Require Import strings pretty.

Open Scope Z_scope.

(** The kernels that the shader source instantiates. *)
Inductive registered_kernel :=
  | IndexKernel (INDEX_OP_TYPE : index_op) (DTYPE : dtype)
  | KernelIndexOffsets
  | AtomicIndexPutAccumulateFloat
  | IndexPutAccumulateNativeInt.

(** [#INDEX_OP_TYPE] *)
Definition index_op_name (op : index_op) : string :=
  match op with select => "select" | put => "put" end.

(** [REGISTER_INDEX_OP]: the instantiation [index_ ## INDEX_OP_TYPE<DTYPE>]
    under the host name ["index_" #INDEX_OP_TYPE "_" #DTYPE_SIZE]. *)
Definition REGISTER_INDEX_OP (DTYPE_SIZE : string) (DTYPE : dtype)
    (INDEX_OP_TYPE : index_op) : string * registered_kernel :=
  ("index_" +:+ index_op_name INDEX_OP_TYPE +:+ "_" +:+ DTYPE_SIZE,
   IndexKernel INDEX_OP_TYPE DTYPE).

Definition REGISTER_INDEX_OP_ALL_DTYPES (INDEX_OP_TYPE : index_op)
    : list (string * registered_kernel) :=
  [REGISTER_INDEX_OP "8bit" char INDEX_OP_TYPE;
   REGISTER_INDEX_OP "16bit" short INDEX_OP_TYPE;
   REGISTER_INDEX_OP "32bit" int INDEX_OP_TYPE;
   REGISTER_INDEX_OP "64bit" long INDEX_OP_TYPE].

(** The kernels of [indexing_metal_shaders], in the order of the source. *)
Definition registered_kernels : list (string * registered_kernel) :=
  REGISTER_INDEX_OP_ALL_DTYPES select
  ++ REGISTER_INDEX_OP_ALL_DTYPES put
  ++ [("kernel_index_offsets", KernelIndexOffsets);
      ("index_put_accumulate_32bit_float", AtomicIndexPutAccumulateFloat);
      ("index_put_accumulate_32bit_int", IndexPutAccumulateNativeInt)].

(** * Properties *)

(** Linear arithmetic with divisions and remainders by constants. *)
Ltac div_lia := Z.to_euclidean_division_equations; lia.

(** ** Machine integers *)

Lemma wrap32_range v : 0 ≤ wrap32 v < 2 ^ 32.
Proof. unfold wrap32. apply Z.mod_pos_bound. lia. Qed.

Lemma wrap32_small v : 0 ≤ v < 2 ^ 32 → wrap32 v = v.
Proof. unfold wrap32. intros. by apply Z.mod_small. Qed.

Lemma wrap32_idemp v : wrap32 (wrap32 v) = wrap32 v.
Proof. apply wrap32_small, wrap32_range. Qed.

Lemma wrap32_add_l a b : wrap32 (wrap32 a + b) = wrap32 (a + b).
Proof. unfold wrap32. by rewrite Zplus_mod_idemp_l. Qed.

Lemma wrap32_add_r a b : wrap32 (a + wrap32 b) = wrap32 (a + b).
Proof. unfold wrap32. by rewrite Zplus_mod_idemp_r. Qed.

Lemma wrap32_mul_r a b : wrap32 (a * wrap32 b) = wrap32 (a * b).
Proof. unfold wrap32. by rewrite Zmult_mod_idemp_r. Qed.

Lemma wrap32_signed32 u : wrap32 (signed32 u) = wrap32 u.
Proof.
  unfold signed32, wrap32. destruct (decide _); [done|].
  replace (u - 2 ^ 32) with (u + (-1) * 2 ^ 32) by lia.
  apply Z_mod_plus_full.
Qed.

Lemma signed32_wrap32 v s :
  - 2 ^ 31 ≤ s < 2 ^ 31 → wrap32 v = wrap32 s → signed32 (wrap32 v) = s.
Proof.
  intros Hs ->. unfold signed32, wrap32.
  destruct (decide (0 ≤ s)).
  - rewrite Z.mod_small by lia. rewrite decide_True; lia.
  - replace (s mod 2 ^ 32) with (s + 2 ^ 32)
      by (apply Z.mod_unique with (-1); lia).
    rewrite decide_False; lia.
Qed.

Lemma wrap64_small v : - 2 ^ 63 ≤ v < 2 ^ 63 → wrap64 v = v.
Proof. unfold wrap64. intros. rewrite Z.mod_small; lia. Qed.

Lemma wrap64_idemp v : wrap64 (wrap64 v) = wrap64 v.
Proof. unfold wrap64. div_lia. Qed.

Lemma wrap64_add_l a b : wrap64 (wrap64 a + b) = wrap64 (a + b).
Proof. unfold wrap64. div_lia. Qed.

Lemma wrap64_add_r_assoc a b c :
  wrap64 (a + wrap64 b + c) = wrap64 (a + b + c).
Proof. unfold wrap64. div_lia. Qed.

(** ** Byte memories *)

Lemma length_load_bytes n a m : length (load_bytes n a m) = n.
Proof. revert a. induction n as [|n IH]; intros a; simpl; [done|]. by rewrite IH. Qed.

Lemma lookup_load_bytes n a m (k : nat) :
  (k < n)%nat → load_bytes n a m !! k = Some (m !!! (a + Z.of_nat k)).
Proof.
  revert a k. induction n as [|n IH]; intros a k Hk; [lia|].
  destruct k as [|k]; simpl.
  - by rewrite Z.add_0_r.
  - rewrite IH by lia. do 2 f_equal. lia.
Qed.

Lemma lookup_store_bytes_out a bs m b :
  b < a ∨ a + Z.of_nat (length bs) ≤ b →
  store_bytes a bs m !!! b = m !!! b.
Proof.
  revert a m. induction bs as [|b0 bs IH]; intros a m Hb; simpl; [done|].
  simpl in Hb. rewrite IH by lia. apply lookup_total_insert_ne. lia.
Qed.

Lemma lookup_store_bytes_in a bs m (k : nat) v :
  bs !! k = Some v → store_bytes a bs m !!! (a + Z.of_nat k) = v.
Proof.
  revert a m k. induction bs as [|b0 bs IH]; intros a m k Hk; [done|].
  destruct k as [|k]; cbn [store_bytes].
  - injection Hk as ->. rewrite lookup_store_bytes_out by lia.
    rewrite Z.add_0_r. apply lookup_total_insert_eq.
  - replace (a + Z.of_nat (S k)) with (a + 1 + Z.of_nat k) by lia.
    by apply IH.
Qed.

Lemma load_bytes_ext n a a' m m' :
  (∀ k : nat, (k < n)%nat → m !!! (a + Z.of_nat k) = m' !!! (a' + Z.of_nat k)) →
  load_bytes n a m = load_bytes n a' m'.
Proof.
  intros Hext. apply list_eq_same_length with n; try apply length_load_bytes.
  intros k v v' Hk. rewrite !lookup_load_bytes by done.
  intros [= <-] [= <-]. by apply Hext.
Qed.

Lemma load_store_bytes_same a bs m :
  load_bytes (length bs) a (store_bytes a bs m) = bs.
Proof.
  apply list_eq_same_length with (length bs); [done|apply length_load_bytes|].
  intros k v v' Hk. rewrite lookup_load_bytes by done.
  intros [= <-] Hv. by apply lookup_store_bytes_in.
Qed.

Lemma Z_of_byte_range b : 0 ≤ Z_of_byte b < 256.
Proof. unfold Z_of_byte. pose proof (Byte.to_N_bounded b). lia. Qed.

Lemma Z_of_byte_of_Z v : Z_of_byte (byte_of_Z v) = v mod 256.
Proof.
  unfold Z_of_byte, byte_of_Z.
  pose proof (Z.mod_pos_bound v 256 eq_refl) as Hv.
  destruct (Byte.of_N (Z.to_N (v mod 256))) as [b|] eqn:Hb; simpl.
  - apply Byte.to_of_N in Hb. rewrite Hb. lia.
  - apply Byte.of_N_None_iff in Hb. lia.
Qed.

Lemma length_le_encode n v : length (le_encode n v) = n.
Proof. revert v. induction n as [|n IH]; intros v; simpl; [done|]. by rewrite IH. Qed.

Lemma le_decode_encode n v : le_decode (le_encode n v) = v mod 256 ^ Z.of_nat n.
Proof.
  revert v. induction n as [|n IH]; intros v.
  - simpl. by rewrite Z.mod_1_r.
  - cbn [le_encode le_decode]. rewrite IH, Z_of_byte_of_Z.
    rewrite Nat2Z.inj_succ, Z.pow_succ_r by lia.
    rewrite Z.rem_mul_r by lia. done.
Qed.

Lemma le_decode_range bs : 0 ≤ le_decode bs < 256 ^ Z.of_nat (length bs).
Proof.
  induction bs as [|b bs IH]; [simpl; lia|].
  cbn [le_decode length]. rewrite Nat2Z.inj_succ, Z.pow_succ_r by lia.
  pose proof (Z_of_byte_range b). lia.
Qed.

Lemma load32_range a m : 0 ≤ load32 a m < 2 ^ 32.
Proof.
  unfold load32. pose proof (le_decode_range (load_bytes 4 a m)) as H.
  by rewrite length_load_bytes in H.
Qed.

Lemma load32_store32 a v m : load32 a (store32 a v m) = wrap32 v.
Proof.
  unfold load32, store32.
  pose proof (load_store_bytes_same a (le_encode 4 v) m) as H.
  rewrite length_le_encode in H. rewrite H. apply (le_decode_encode 4).
Qed.

(** ** [get_idx]: the mixed-radix decomposition *)

Section decomposition.
Implicit Types (shape coords : list Z) (strides : list uint3).

Lemma product_pos shape : Forall (λ s, 0 < s) shape → 0 < product shape.
Proof.
  induction 1 as [|s shape Hs _ IH]; unfold product in *; simpl; lia.
Qed.

(** The loop over the dimensions [dim ..] of a shape sees the suffix of the
    shape from [dim] on. *)
Lemma get_idx_coords_suffix pre shape idx :
  Forall (λ s, 0 < s) shape →
  0 ≤ idx < product shape →
  ∃ coords,
    get_idx_coords (pre ++ shape) (length shape) (length pre) idx = Some coords
    ∧ Forall2 (λ c s, 0 ≤ c < s) coords shape
    ∧ recombine coords shape = idx.
Proof.
  intros Hpos. revert pre idx.
  induction Hpos as [|s shape Hs Hpos IH]; intros pre idx Hidx.
  - exists []. unfold product in Hidx. simpl in *. split_and!; [done|constructor|lia].
  - assert (0 < product shape) as Hprod by by apply product_pos.
    assert (product (s :: shape) = s * product shape) as Hcons by done.
    rewrite Hcons in Hidx.
    destruct (IH (pre ++ [s]) (idx / s)) as (coords & Hc & Hb & Hr).
    { split; [apply Z.div_pos; lia|].
      apply Z.div_lt_upper_bound; lia. }
    exists (idx mod s :: coords).
    cbn [get_idx_coords length]. rewrite list_lookup_middle by done. simpl.
    rewrite decide_False by lia.
    rewrite <- app_assoc, length_app, Nat.add_1_r in Hc. simpl in Hc.
    rewrite Hc. split_and!; [done| |].
    + constructor; [|done]. apply Z.mod_pos_bound. lia.
    + cbn [recombine]. rewrite Hr. symmetry. rewrite Z.add_comm.
      apply Z.div_mod. lia.
Qed.

Lemma weighted_sum_radix_weights coords shape w :
  weighted_sum coords (radix_weights w shape) = w * recombine coords shape.
Proof.
  revert shape w. induction coords as [|c coords IH]; intros [|s shape] w;
    cbn [weighted_sum radix_weights recombine]; try lia.
  rewrite IH. lia.
Qed.

(** [get_idx] is the weighted sum of the coordinates it computes. *)
Lemma get_idx_loop_coords iter_shape strides n dim idx acc coords :
  get_idx_coords iter_shape n dim idx = Some coords →
  (dim + n ≤ length strides)%nat →
  get_idx_loop iter_shape strides n dim idx acc
  = Some (offsets_sum coords (drop dim strides) acc).
Proof.
  revert dim idx acc coords.
  induction n as [|n IH]; intros dim idx acc coords Hc Hlen.
  - injection Hc as <-. done.
  - cbn [get_idx_coords get_idx_loop] in *.
    destruct (iter_shape !! dim) as [s|]; [|done]. simpl in *.
    destruct (decide (s = 0)); [done|].
    destruct (get_idx_coords iter_shape n (S dim) (idx / s)) as [cs|] eqn:Hcs;
      [|done].
    injection Hc as <-.
    destruct (lookup_lt_is_Some_2 strides dim) as [st Hst]; [lia|].
    rewrite Hst. simpl. rewrite (IH _ _ _ cs) by (done || lia).
    by rewrite (drop_S _ _ _ Hst).
Qed.

Lemma offsets_sum_x coords weights acc :
  0 ≤ vec_x acc < 2 ^ 32 →
  vec_x (offsets_sum coords ((λ w, uint3_splat (wrap32 w)) <$> weights) acc)
  = wrap32 (vec_x acc + weighted_sum coords weights).
Proof.
  revert weights acc. induction coords as [|c coords IH];
    intros [|w weights] acc Hacc;
    cbn [fmap list_fmap offsets_sum weighted_sum];
    try (by rewrite Z.add_0_r, wrap32_small).
  rewrite IH by apply wrap32_range.
  cbn [vec_x uint3_add uint3_scale uint3_splat]. rewrite wrap32_add_l.
  transitivity (wrap32 (wrap32 (c * wrap32 w) + (vec_x acc + weighted_sum coords weights)));
    [f_equal; lia|].
  rewrite wrap32_mul_r, wrap32_add_l. f_equal. lia.
Qed.

Lemma length_radix_weights w shape : length (radix_weights w shape) = length shape.
Proof. revert w. induction shape as [|s shape IH]; intros w; simpl; [done|]. by rewrite IH. Qed.
End decomposition.

(** C3. For a shape with positive extents and a thread id [t] below their
    product, [get_idx] neither divides by zero nor reads past the shape, and
    there are coordinates, one for each dimension and each below its extent,
    which are the remainders that [get_idx] works with: for every stride table
    [get_idx] returns the sum of these coordinates times the strides. The
    mixed-radix sum of the coordinates, each weighted by the product of the
    preceding extents, is [t] again; so [get_idx], run on the stride table of
    those weights, returns [t] itself, a [uint]. *)
Theorem get_idx_round_trip (shape : list Z) (t : Z) :
  Forall (λ s, 0 < s) shape →
  0 ≤ t < product shape →
  ∃ coords,
    (∀ strides, (length shape ≤ length strides)%nat →
       get_idx t shape (length shape) strides
       = Some (offsets_sum coords strides (uint3_splat 0)))
    ∧ Forall2 (λ c s, 0 ≤ c < s) coords shape
    ∧ recombine coords shape = t
    ∧ weighted_sum coords (radix_weights 1 shape) = t
    ∧ get_idx_coords shape (length shape) 0 t = Some coords
    ∧ (t < 2 ^ 32 →
       vec_x <$> get_idx t shape (length shape)
                   ((λ w, uint3_splat (wrap32 w)) <$> radix_weights 1 shape)
       = Some t).
Proof.
  intros Hpos Ht.
  destruct (get_idx_coords_suffix [] shape t Hpos Ht) as (coords & Hc & Hb & Hr).
  simpl in Hc. exists coords.
  assert (∀ strides, (length shape ≤ length strides)%nat →
            get_idx t shape (length shape) strides
            = Some (offsets_sum coords strides (uint3_splat 0))) as Htie.
  { intros strides Hlen. unfold get_idx.
    rewrite (get_idx_loop_coords _ _ _ _ _ _ coords Hc) by (simpl; lia).
    by rewrite drop_0. }
  split_and!; try done.
  - rewrite weighted_sum_radix_weights. lia.
  - intros Ht32.
    rewrite Htie by (rewrite length_fmap, length_radix_weights; lia).
    simpl. f_equal.
    rewrite offsets_sum_x by (simpl; lia).
    rewrite weighted_sum_radix_weights, Hr.
    cbn [vec_x uint3_splat]. rewrite Z.add_0_l, Z.mul_1_l.
    apply wrap32_small. lia.
Qed.

Lemma get_idx_round_trip_witness :
  ∃ coords,
    (∀ strides, (length [4; 3] ≤ length strides)%nat →
       get_idx 7 [4; 3] (length [4; 3]) strides
       = Some (offsets_sum coords strides (uint3_splat 0)))
    ∧ Forall2 (λ c s, 0 ≤ c < s) coords [4; 3]
    ∧ recombine coords [4; 3] = 7
    ∧ weighted_sum coords (radix_weights 1 [4; 3]) = 7
    ∧ get_idx_coords [4; 3] (length [4; 3]) 0 7 = Some coords
    ∧ (7 < 2 ^ 32 →
       vec_x <$> get_idx 7 [4; 3] (length [4; 3])
                   ((λ w, uint3_splat (wrap32 w)) <$> radix_weights 1 [4; 3])
       = Some 7).
Proof.
  apply (get_idx_round_trip [4; 3] 7).
  - repeat constructor.
  - unfold product. simpl. lia.
Defined.

(** ** Negative indices *)

Lemma normalize_index_within index_sizes i N index :
  index_sizes !! i = Some N → - N ≤ index < N → N < 2 ^ 63 →
  normalize_index index_sizes i index = Some (wraparound N index).
Proof.
  intros HN Hindex Hrange. unfold normalize_index, wraparound.
  destruct (decide (index < 0)); [|done].
  rewrite HN. simpl. f_equal. rewrite wrap64_small; lia.
Qed.

Section index_loop_sum.
Context `{IndexTable Tbl}.
Implicit Types (args : kernel_args Tbl).

(** With indices within their dimensions the index loop adds, to the offset it
    starts with, the normalized indices times the index strides. *)
Lemma index_offset_loop_wraparound args z indices i offset :
  (∀ j index, indices !! j = Some index →
     index_within args z (i + j) index
     ∧ is_Some (indexStrides args !! (i + j)%nat)) →
  wrap64 offset = offset →
  index_offset_loop args z (length indices) i offset
  = Some (wrap64 (offset
                  + weighted_sum
                      (zip_with wraparound (drop i (indexSizes args)) indices)
                      (drop i (indexStrides args)))).
Proof.
  revert i offset. induction indices as [|index indices IH];
    intros i offset Hall Hoffset.
  - cbn [length index_offset_loop]. f_equal.
    destruct (drop i (indexSizes args)); cbn [zip_with weighted_sum];
      by rewrite Z.add_0_r.
  - destruct (Hall 0%nat index eq_refl)
      as [(handle & N & Hh & Hidx & HN & Hindex & Hrange) [st Hst]].
    rewrite Nat.add_0_r in Hh, HN, Hst.
    cbn [length index_offset_loop]. rewrite Hh. simpl. rewrite Hidx. simpl.
    rewrite (normalize_index_within _ _ N) by done. simpl.
    rewrite Hst. simpl.
    rewrite (drop_S _ _ _ HN), (drop_S _ _ _ Hst).
    cbn [zip_with weighted_sum].
    rewrite IH.
    + f_equal. rewrite wrap64_add_l, wrap64_add_r_assoc. f_equal. lia.
    + intros j index' Hj. replace (S i + j)%nat with (i + S j)%nat by lia.
      by apply Hall.
    + apply wrap64_idemp.
Qed.

Lemma index_offset_wraparound args z indices :
  length indices = num_indices args →
  (∀ i index, indices !! i = Some index →
     index_within args z i index ∧ is_Some (indexStrides args !! i)) →
  index_offset args z = Some (wraparound_offset args indices).
Proof.
  intros Hlen Hall. unfold index_offset, wraparound_offset.
  rewrite <- Hlen, (index_offset_loop_wraparound args z indices 0 0);
    [by rewrite !drop_0, Z.add_0_l|done..].
Qed.
End index_loop_sum.

(** C4. In each of the four indexing kernels, a thread whose indices lie
    within their dimensions, [-N <= index < N] for a dimension of size [N],
    addresses its element at the indirect offset that the normalized indices
    give: the sum, in [int64_t], of the index strides times [N - k] for an
    index [-k] and times the index itself for an index that is not negative.
    The normalization [if (index < 0) index += index_sizes[i]] maps [-k],
    [1 <= k <= N], to [N - k] and leaves an index of [[0, N)] as it is. *)
Theorem normalize_index_wraparound `{IndexTable Tbl} (args : kernel_args Tbl)
    (thread_index : Z) (offsets : uint3) (indices : list Z) :
  get_idx thread_index (iter_shape args) (num_dimensions args) (strides args)
  = Some offsets →
  length indices = num_indices args →
  (num_indices args ≤ length (indexStrides args))%nat →
  (∀ i index, indices !! i = Some index →
     index_within args (vec_z offsets) i index) →
  index_offset args (vec_z offsets) = Some (wraparound_offset args indices)
  ∧ (∀ T outputData,
       index_select T args outputData thread_index
       = Some (store_bytes (vec_x offsets)
                 (load_bytes (sizeof T)
                    (vec_y offsets + wraparound_offset args indices)
                    (inputData args))
                 outputData))
  ∧ (∀ T outputData,
       index_put T args outputData thread_index
       = Some (store_bytes (vec_x offsets + wraparound_offset args indices)
                 (load_bytes (sizeof T) (vec_y offsets) (inputData args))
                 outputData))
  ∧ index_put_accumulate_native_dtypes args thread_index
    = Some (NativePending (vec_x offsets + wraparound_offset args indices)
              (load32 (vec_y offsets) (inputData args)))
  ∧ (∀ (V : Type) (value_type : AsType32 V),
       atomic_index_put_accumulate args thread_index
       = Some (AtLoad (vec_x offsets + wraparound_offset args indices)
                 (as_type_T (load32 (vec_y offsets) (inputData args)))))
  ∧ (∀ i N, indexSizes args !! i = Some N → 0 ≤ N < 2 ^ 63 →
       (∀ k, 1 ≤ k ≤ N →
          normalize_index (indexSizes args) i (- k) = Some (N - k))
       ∧ (∀ index, 0 ≤ index < N →
            normalize_index (indexSizes args) i index = Some index)).
Proof.
  intros Hoffsets Hlen Hstrides Hall.
  assert (index_offset args (vec_z offsets)
          = Some (wraparound_offset args indices)) as Hoffset.
  { apply index_offset_wraparound; [done|]. intros i index Hi.
    split; [by apply Hall|]. apply lookup_lt_is_Some_2.
    apply lookup_lt_Some in Hi. lia. }
  split_and!.
  - done.
  - intros T outputData. unfold index_select. rewrite Hoffsets. simpl.
    by rewrite Hoffset.
  - intros T outputData. unfold index_put. rewrite Hoffsets. simpl.
    by rewrite Hoffset.
  - unfold index_put_accumulate_native_dtypes. rewrite Hoffsets. simpl.
    by rewrite Hoffset.
  - intros V value_type. unfold atomic_index_put_accumulate.
    rewrite Hoffsets. simpl. by rewrite Hoffset.
  - intros i N HN HNrange. split.
    + intros k Hk. rewrite (normalize_index_within _ _ N) by (done || lia).
      unfold wraparound. rewrite decide_True by lia. f_equal. lia.
    + intros index Hindex.
      rewrite (normalize_index_within _ _ N) by (done || lia).
      unfold wraparound. by rewrite decide_False by lia.
Qed.

Lemma normalize_index_wraparound_witness :
  index_offset two_handles_args 0 = Some 40
  ∧ (∀ T outputData,
       index_select T two_handles_args outputData 0
       = Some (store_bytes 0
                 (load_bytes (sizeof T) (0 + 40) (inputData two_handles_args))
                 outputData))
  ∧ (∀ T outputData,
       index_put T two_handles_args outputData 0
       = Some (store_bytes (0 + 40)
                 (load_bytes (sizeof T) 0 (inputData two_handles_args))
                 outputData))
  ∧ index_put_accumulate_native_dtypes two_handles_args 0
    = Some (NativePending (0 + 40) (load32 0 (inputData two_handles_args)))
  ∧ (∀ (V : Type) (value_type : AsType32 V),
       atomic_index_put_accumulate two_handles_args 0
       = Some (AtLoad (0 + 40)
                 (as_type_T (load32 0 (inputData two_handles_args)))))
  ∧ (∀ i N, indexSizes two_handles_args !! i = Some N → 0 ≤ N < 2 ^ 63 →
       (∀ k, 1 ≤ k ≤ N →
          normalize_index (indexSizes two_handles_args) i (- k) = Some (N - k))
       ∧ (∀ index, 0 ≤ index < N →
            normalize_index (indexSizes two_handles_args) i index
            = Some index)).
Proof.
  apply (normalize_index_wraparound two_handles_args 0 (Uint3 0 0 0) [-1; 1]).
  - reflexivity.
  - reflexivity.
  - simpl. lia.
  - intros [|[|i]] index Hi; [| |done]; injection Hi as <-.
    + exists 4096, 4. split_and!; (reflexivity || lia).
    + exists 8192, 2. split_and!; (reflexivity || lia).
Defined.

(** ** [kernel_index_offsets] *)

Lemma kernel_index_offsets_loop_get_idx strides iter_shape thread_index n dim idx
    acc (data_offsets : gmap Z uint3) :
  kernel_index_offsets_loop strides iter_shape thread_index n dim idx
    (<[thread_index := acc]> data_offsets)
  = (λ v, <[thread_index := v]> data_offsets)
      <$> get_idx_loop iter_shape strides n dim idx acc.
Proof.
  revert dim idx acc. induction n as [|n IH]; intros dim idx acc; [done|].
  cbn [kernel_index_offsets_loop get_idx_loop].
  destruct (iter_shape !! dim) as [s|]; [|done]. simpl.
  destruct (decide (s = 0)); [done|].
  destruct (strides !! dim) as [st|]; [|done]. simpl.
  by rewrite lookup_total_insert_eq, insert_insert_eq, IH.
Qed.

Lemma kernel_index_offsets_get_idx strides data_offsets iter_shape num_dimensions
    num_offsets thread_index :
  kernel_index_offsets strides data_offsets iter_shape num_dimensions num_offsets
    thread_index
  = (λ v, <[thread_index := v]> data_offsets)
      <$> get_idx thread_index iter_shape num_dimensions strides.
Proof. apply kernel_index_offsets_loop_get_idx. Qed.

(** A launch of the precomputation kernel, whatever the order of its threads,
    leaves at each position of a thread what [get_idx] returns for it, and
    leaves the other positions alone. *)
Lemma launch_kernel_index_offsets strides iter_shape num_dimensions num_offsets
    (f : Z → uint3) order (data_offsets : gmap Z uint3) :
  Forall (λ t, get_idx t iter_shape num_dimensions strides = Some (f t)) order →
  ∃ out,
    launch (λ m t, kernel_index_offsets strides m iter_shape num_dimensions
                     num_offsets t) order data_offsets = Some out
    ∧ ∀ t, out !!! t = if decide (t ∈ order) then f t else data_offsets !!! t.
Proof.
  intros Hall. revert data_offsets.
  induction Hall as [|t0 order Ht0 _ IH]; intros data_offsets.
  - exists data_offsets. split; [done|]. intros t.
    rewrite decide_False; [done|]. apply not_elem_of_nil.
  - cbn [launch]. rewrite kernel_index_offsets_get_idx, Ht0. simpl.
    destruct (IH (<[t0 := f t0]> data_offsets)) as (out & -> & Hout).
    exists out. split; [done|]. intros t. rewrite Hout.
    destruct (decide (t ∈ order)) as [Hin|Hnin].
    + rewrite decide_True; [done|]. by right.
    + destruct (decide (t = t0)) as [->|Hne].
      * rewrite lookup_total_insert_eq, decide_True; [done|]. by left.
      * rewrite lookup_total_insert_ne by done.
        rewrite decide_False; [done|]. by intros [?|?]%elem_of_cons.
Qed.

(** C8. For every thread id and every shape and stride table,
    [kernel_index_offsets] ends with [data_offsets[thread_index]] holding the
    vector that [get_idx] returns for that thread id, and is undefined exactly
    where [get_idx] is. Over shape [[5]] and stride [(1,0,0)], a grid of 5
    threads, in any order, leaves the offsets 0, 1, 2, 3, 4 in positions 0 to
    4. *)
Theorem kernel_index_offsets_refines_get_idx :
  (∀ strides data_offsets iter_shape num_dimensions num_offsets thread_index,
     kernel_index_offsets strides data_offsets iter_shape num_dimensions
       num_offsets thread_index
     = (λ v, <[thread_index := v]> data_offsets)
         <$> get_idx thread_index iter_shape num_dimensions strides)
  ∧ (∀ data_offsets order,
       order ≡ₚ seqZ 0 5 →
       ∃ out,
         launch (λ m t, kernel_index_offsets [Uint3 1 0 0] m [5] 1 5 t) order
           data_offsets = Some out
         ∧ (λ t, out !!! t) <$> seqZ 0 5
           = [Uint3 0 0 0; Uint3 1 0 0; Uint3 2 0 0; Uint3 3 0 0; Uint3 4 0 0]
         ∧ (λ t, vec_x (out !!! t)) <$> seqZ 0 5 = [0; 1; 2; 3; 4]).
Proof.
  split; [apply kernel_index_offsets_get_idx|].
  intros data_offsets order Hperm.
  destruct (launch_kernel_index_offsets [Uint3 1 0 0] [5] 1 5
              (λ t, Uint3 t 0 0) order data_offsets) as (out & Hout & Hlook).
  { rewrite Hperm. by repeat constructor. }
  exists out. split; [done|].
  assert (∀ t, t ∈ seqZ 0 5 → out !!! t = Uint3 t 0 0) as Hin.
  { intros t Ht. rewrite Hlook, decide_True; [done|]. by rewrite Hperm. }
  change (seqZ 0 5) with [0; 1; 2; 3; 4] in *.
  cbn [fmap list_fmap].
  rewrite !Hin by (repeat first [by left | right]). done.
Qed.

Lemma kernel_index_offsets_refines_get_idx_witness :
  ∃ out,
    launch (λ m t, kernel_index_offsets [Uint3 1 0 0] m [5] 1 5 t) [3; 0; 4; 1; 2]
      (∅ : gmap Z uint3) = Some out
    ∧ (λ t, out !!! t) <$> seqZ 0 5
      = [Uint3 0 0 0; Uint3 1 0 0; Uint3 2 0 0; Uint3 3 0 0; Uint3 4 0 0]
    ∧ (λ t, vec_x (out !!! t)) <$> seqZ 0 5 = [0; 1; 2; 3; 4].
Proof.
  apply (proj2 kernel_index_offsets_refines_get_idx ∅ [3; 0; 4; 1; 2]).
  by apply (bool_decide_unpack _).
Defined.

(** C10. [kernel_index_offsets] never reads [num_offsets]: for every thread
    index and every two values of [num_offsets], with the other arguments
    equal, the kernel leaves the same output array, the same vector at the same
    position; what it leaves at position [thread_index] is the result of
    [get_idx], also for a thread index that is not below [num_offsets]. *)
Theorem kernel_index_offsets_ignores_num_offsets :
  ∀ strides data_offsets iter_shape num_dimensions thread_index
    (num_offsets num_offsets' : Z),
    kernel_index_offsets strides data_offsets iter_shape num_dimensions
      num_offsets thread_index
    = kernel_index_offsets strides data_offsets iter_shape num_dimensions
        num_offsets' thread_index
    ∧ (λ out : gmap Z uint3, out !!! thread_index)
        <$> kernel_index_offsets strides data_offsets iter_shape num_dimensions
              num_offsets thread_index
      = get_idx thread_index iter_shape num_dimensions strides.
Proof.
  intros. split; [reflexivity|].
  rewrite kernel_index_offsets_get_idx.
  destruct (get_idx _ _ _ _) as [v|]; [|done]. simpl.
  by rewrite lookup_total_insert_eq.
Qed.

(** ** The copy kernels *)

Lemma lookup_store_load_bytes a n i input m b :
  a ≤ b < a + Z.of_nat n →
  store_bytes a (load_bytes n i input) m !!! b = input !!! (i + (b - a)).
Proof.
  intros Hb. replace b with (a + Z.of_nat (Z.to_nat (b - a))) at 1 by lia.
  erewrite lookup_store_bytes_in; [done|].
  rewrite lookup_load_bytes by lia. do 2 f_equal. lia.
Qed.

Lemma index_select_resolve `{IndexTable Tbl} T (args : kernel_args Tbl) m t :
  index_select T args m t
  = (λ r, store_bytes (vec_x r.1)
            (load_bytes (sizeof T) (vec_y r.1 + r.2) (inputData args)) m)
      <$> resolve args t.
Proof.
  unfold index_select, resolve.
  destruct (get_idx _ _ _ _) as [offsets|]; [|done]. simpl.
  by destruct (index_offset _ _).
Qed.

Lemma index_put_resolve `{IndexTable Tbl} T (args : kernel_args Tbl) m t :
  index_put T args m t
  = (λ r, store_bytes (vec_x r.1 + r.2)
            (load_bytes (sizeof T) (vec_y r.1) (inputData args)) m)
      <$> resolve args t.
Proof.
  unfold index_put, resolve.
  destruct (get_idx _ _ _ _) as [offsets|]; [|done]. simpl.
  by destruct (index_offset _ _).
Qed.

(** A launch of threads that each copy [n] bytes from [src t] of a constant
    buffer to [dst t]: every byte of the result is either untouched or holds
    the source byte of a thread whose destination covers it. *)
Lemma launch_copy (kernel : gmap Z byte → Z → option (gmap Z byte)) n input
    (dst src : Z → Z) order m0 :
  Forall (λ t, ∀ m, kernel m t
                    = Some (store_bytes (dst t) (load_bytes n (src t) input) m))
    order →
  ∃ out,
    launch kernel order m0 = Some out
    ∧ ∀ b,
        (out !!! b = m0 !!! b
         ∧ ∀ t, t ∈ order → ¬ (dst t ≤ b < dst t + Z.of_nat n))
        ∨ (∃ t, t ∈ order ∧ dst t ≤ b < dst t + Z.of_nat n
                ∧ out !!! b = input !!! (src t + (b - dst t))).
Proof.
  intros Hall. revert m0.
  induction Hall as [|t0 order Ht0 _ IH]; intros m0.
  - exists m0. split; [done|]. intros b. left. split; [done|].
    by intros t ?%not_elem_of_nil.
  - cbn [launch]. rewrite Ht0. simpl.
    destruct (IH (store_bytes (dst t0) (load_bytes n (src t0) input) m0))
      as (out & -> & Hout).
    exists out. split; [done|]. intros b.
    destruct (Hout b) as [[Hb Hnot]|(t & Ht & Hr & Hb)].
    + destruct (decide (dst t0 ≤ b < dst t0 + Z.of_nat n)) as [Hin|Hnin].
      * right. exists t0. split; [by left|]. split; [lia|].
        by rewrite Hb, lookup_store_load_bytes.
      * left. split.
        -- rewrite Hb. apply lookup_store_bytes_out.
           rewrite length_load_bytes. lia.
        -- intros t [->|Ht]%elem_of_cons; [lia|exact (Hnot t Ht)].
    + right. exists t. split; [by right|done].
Qed.

(** C5. A thread of [index_select] whose offsets are [(out_off, in_off, aux)]
    and whose index loop yields [offset] copies the [sizeof T] bytes at
    [in_off + offset] of [inputData] to [out_off] of [outputData] with one
    plain store and touches no other byte; the indirect offset enters the read
    address only. On the row-major 4 x 3 scenario with index sizes [[4]] and
    indices -1, 0, 2, the grid, in any thread order, leaves rows 3, 0, 2 of the
    source in output rows 0, 1, 2. *)
Theorem index_select_gathers :
  (∀ `{IndexTable Tbl} T (args : kernel_args Tbl) outputData thread_index
      offsets offset,
     get_idx thread_index (iter_shape args) (num_dimensions args) (strides args)
     = Some offsets →
     index_offset args (vec_z offsets) = Some offset →
     ∃ out,
       index_select T args outputData thread_index = Some out
       ∧ out = store_bytes (vec_x offsets)
                 (load_bytes (sizeof T) (vec_y offsets + offset) (inputData args))
                 outputData
       ∧ load_bytes (sizeof T) (vec_x offsets) out
         = load_bytes (sizeof T) (vec_y offsets + offset) (inputData args)
       ∧ ∀ b, ¬ (vec_x offsets ≤ b < vec_x offsets + Z.of_nat (sizeof T)) →
              out !!! b = outputData !!! b)
  ∧ (∀ src outputData order,
       order ≡ₚ seqZ 0 9 →
       ∃ out,
         launch (index_select int (gather_rows_args src)) order outputData
         = Some out
         ∧ load_bytes 12 0 out = load_bytes 12 36 src
         ∧ load_bytes 12 12 out = load_bytes 12 0 src
         ∧ load_bytes 12 24 out = load_bytes 12 24 src).
Proof.
  split.
  - intros Tbl ? T args outputData t offsets offset Hoffsets Hoffset.
    eexists. split; [|split; [reflexivity|split]].
    + unfold index_select. rewrite Hoffsets. simpl. by rewrite Hoffset.
    + set (bs := load_bytes _ _ (inputData args)).
      rewrite <- (length_load_bytes (sizeof T) (vec_y offsets + offset)
                    (inputData args)).
      apply load_store_bytes_same.
    + intros b Hb. apply lookup_store_bytes_out.
      rewrite length_load_bytes. lia.
  - intros src outputData order Hperm.
    pose (row := λ j : Z, if decide (j = 0) then 3 else if decide (j = 1) then 0 else 2).
    destruct (launch_copy (index_select int (gather_rows_args src)) 4 src
                (λ t, 4 * t) (λ t, 4 * (t mod 3) + 12 * row (t / 3)) order
                outputData) as (out & Hout & Hbytes).
    { rewrite Hperm. repeat (constructor; [by intros m|]). constructor. }
    exists out. split; [done|].
    assert (∀ b, 0 ≤ b < 36 →
              out !!! b = src !!! (b mod 12 + 12 * row (b / 12))) as Hb.
    { intros b Hb. destruct (Hbytes b) as [[_ Hnot]|(t & Ht & Hr & ->)].
      - exfalso. apply (Hnot (b / 4)); [|simpl; div_lia].
        rewrite Hperm. apply elem_of_seqZ. div_lia.
      - rewrite Hperm in Ht. apply elem_of_seqZ in Ht. simpl in Hr. f_equal.
        assert (b / 12 = t / 3) as -> by div_lia.
        div_lia. }
    split_and!; apply load_bytes_ext; intros k Hk; rewrite Hb by lia.
    + replace ((0 + Z.of_nat k) / 12) with 0 by div_lia.
      rewrite Z.mod_small by lia. f_equal. subst row. simpl. lia.
    + replace ((12 + Z.of_nat k) / 12) with 1 by div_lia.
      replace ((12 + Z.of_nat k) mod 12) with (Z.of_nat k) by div_lia.
      f_equal. subst row. simpl. lia.
    + replace ((24 + Z.of_nat k) / 12) with 2 by div_lia.
      replace ((24 + Z.of_nat k) mod 12) with (Z.of_nat k) by div_lia.
      f_equal. subst row. simpl. lia.
Qed.

Lemma index_select_gathers_witness :
  (∃ out,
     index_select int (gather_rows_args ∅) ∅ 1 = Some out
     ∧ out = store_bytes 4 (load_bytes 4 (4 + 36) ∅) ∅
     ∧ load_bytes 4 4 out = load_bytes 4 (4 + 36) ∅
     ∧ ∀ b, ¬ (4 ≤ b < 4 + Z.of_nat 4) → out !!! b = (∅ : gmap Z byte) !!! b)
  ∧ (∃ out,
       launch (index_select int (gather_rows_args ∅)) [8; 7; 6; 5; 4; 3; 2; 1; 0] ∅
       = Some out
       ∧ load_bytes 12 0 out = load_bytes 12 36 ∅
       ∧ load_bytes 12 12 out = load_bytes 12 0 ∅
       ∧ load_bytes 12 24 out = load_bytes 12 24 ∅).
Proof.
  split.
  - apply (proj1 index_select_gathers _ _ int (gather_rows_args ∅) ∅ 1
             (Uint3 4 4 0) 36); reflexivity.
  - apply (proj2 index_select_gathers ∅ ∅ [8; 7; 6; 5; 4; 3; 2; 1; 0]).
    by apply (bool_decide_unpack _).
Defined.

(** C6. A thread of [index_put] computes the same offsets and the same
    indirect [offset] as a thread of [index_select] with the same arguments,
    and is defined for the same arguments; it copies the [sizeof T] bytes at
    [in_off] of [inputData] to [out_off + offset] of [outputData] with one plain
    store and touches no other byte: the indirect offset enters the write
    address only. *)
Theorem index_put_scatters :
  ∀ `{IndexTable Tbl} T (args : kernel_args Tbl) outputData thread_index,
    (is_Some (index_put T args outputData thread_index)
     ↔ is_Some (index_select T args outputData thread_index))
    ∧ ∀ offsets offset,
        get_idx thread_index (iter_shape args) (num_dimensions args)
          (strides args) = Some offsets →
        index_offset args (vec_z offsets) = Some offset →
        index_select T args outputData thread_index
        = Some (store_bytes (vec_x offsets)
                  (load_bytes (sizeof T) (vec_y offsets + offset)
                     (inputData args)) outputData)
        ∧ ∃ out,
            index_put T args outputData thread_index = Some out
            ∧ out = store_bytes (vec_x offsets + offset)
                      (load_bytes (sizeof T) (vec_y offsets) (inputData args))
                      outputData
            ∧ load_bytes (sizeof T) (vec_x offsets + offset) out
              = load_bytes (sizeof T) (vec_y offsets) (inputData args)
            ∧ ∀ b, ¬ (vec_x offsets + offset ≤ b
                      < vec_x offsets + offset + Z.of_nat (sizeof T)) →
                   out !!! b = outputData !!! b.
Proof.
  intros Tbl ? T args outputData t. split.
  - rewrite index_put_resolve, index_select_resolve, !fmap_is_Some. done.
  - intros offsets offset Hoffsets Hoffset.
    unfold index_select, index_put. rewrite Hoffsets. simpl.
    rewrite Hoffset. simpl. split; [done|].
    eexists. split; [done|]. split; [done|]. split.
    + set (bs := load_bytes _ _ (inputData args)).
      rewrite <- (length_load_bytes (sizeof T) (vec_y offsets) (inputData args)).
      apply load_store_bytes_same.
    + intros b Hb. apply lookup_store_bytes_out.
      rewrite length_load_bytes. lia.
Qed.

Lemma index_put_scatters_witness :
  index_select int (gather_rows_args ∅) ∅ 1
  = Some (store_bytes 4 (load_bytes 4 (4 + 36) ∅) ∅)
  ∧ ∃ out,
      index_put int (gather_rows_args ∅) ∅ 1 = Some out
      ∧ out = store_bytes (4 + 36) (load_bytes 4 4 ∅) ∅
      ∧ load_bytes 4 (4 + 36) out = load_bytes 4 4 ∅
      ∧ ∀ b, ¬ (4 + 36 ≤ b < 4 + 36 + Z.of_nat 4) →
             out !!! b = (∅ : gmap Z byte) !!! b.
Proof.
  apply (proj2 (index_put_scatters int (gather_rows_args ∅) ∅ 1) (Uint3 4 4 0) 36);
    reflexivity.
Defined.

(** ** The two index tables *)

Lemma same_handles_index_array legacy modern n i :
  same_handles legacy modern n → (i < n)%nat →
  index_array legacy i = index_array modern i.
Proof.
  intros [Hn Hsame] Hi. destruct (Hsame i Hi) as (handle & Hl & Hm).
  unfold index_array, legacy_table, modern_table.
  rewrite decide_True by lia. by rewrite Hl, Hm.
Qed.

Lemma index_offset_loop_same_handles legacy modern
    (args : kernel_args Metal2.IndexAB) z n i offset :
  indexAB args = legacy →
  same_handles legacy modern (i + n) →
  index_offset_loop args z n i offset
  = index_offset_loop (with_table args modern) z n i offset.
Proof.
  intros <-. revert i offset. induction n as [|n IH]; intros i offset Hsame; [done|].
  cbn [index_offset_loop]. simpl.
  rewrite (same_handles_index_array _ modern (i + S n)) by (done || lia).
  destruct (index_array modern i) as [handle|]; [|done]. simpl.
  destruct (constant_mem args !! _) as [index|]; [|done]. simpl.
  destruct (normalize_index _ _ _) as [index'|]; [|done]. simpl.
  destruct (indexStrides args !! i) as [st|]; [|done]. simpl.
  apply IH. by rewrite Nat.add_succ_comm.
Qed.

(** C9. When the array-of-pointers table and the table of per-entry base
    pointers hold the same handles in their entries below [num_indices], then
    fetching entry [i] and reading an [int64_t] at any position gives the same
    value through either, and every consuming kernel computes the same result
    with either. *)
Theorem index_tables_interchangeable (legacy : Metal2.IndexAB)
    (modern : list Metal3.IndexAB) (args : kernel_args Metal2.IndexAB) :
  indexAB args = legacy →
  same_handles legacy modern (num_indices args) →
  (∀ (i : nat) (pos : Z), (i < num_indices args)%nat →
     (handle ← index_array legacy i;
      constant_mem args !! (handle + sizeof_int64_t * pos))
     = (handle ← index_array modern i;
        constant_mem args !! (handle + sizeof_int64_t * pos)))
  ∧ (∀ T outputData thread_index,
       index_select T args outputData thread_index
       = index_select T (with_table args modern) outputData thread_index)
  ∧ (∀ T outputData thread_index,
       index_put T args outputData thread_index
       = index_put T (with_table args modern) outputData thread_index)
  ∧ (∀ thread_index,
       index_put_accumulate_native_dtypes args thread_index
       = index_put_accumulate_native_dtypes (with_table args modern)
           thread_index)
  ∧ (∀ `{AsType32 T} thread_index,
       atomic_index_put_accumulate (T:=T) args thread_index
       = atomic_index_put_accumulate (T:=T) (with_table args modern)
           thread_index).
Proof.
  intros Hargs Hsame.
  assert (∀ z, index_offset args z = index_offset (with_table args modern) z)
    as Hoff.
  { intros z. unfold index_offset.
    by apply index_offset_loop_same_handles with legacy. }
  split_and!.
  - intros i pos Hi.
    by rewrite (same_handles_index_array _ modern (num_indices args)).
  - intros T m t. unfold index_select. simpl.
    destruct (get_idx _ _ _ _) as [offsets|]; [|done]. simpl. by rewrite Hoff.
  - intros T m t. unfold index_put. simpl.
    destruct (get_idx _ _ _ _) as [offsets|]; [|done]. simpl. by rewrite Hoff.
  - intros t. unfold index_put_accumulate_native_dtypes. simpl.
    destruct (get_idx _ _ _ _) as [offsets|]; [|done]. simpl. by rewrite Hoff.
  - intros T ? t. unfold atomic_index_put_accumulate. simpl.
    destruct (get_idx _ _ _ _) as [offsets|]; [|done]. simpl. by rewrite Hoff.
Qed.

Lemma index_tables_interchangeable_witness :
  (∀ (i : nat) (pos : Z), (i < num_indices two_handles_args)%nat →
     (handle ← index_array two_handles_legacy i;
      constant_mem two_handles_args !! (handle + sizeof_int64_t * pos))
     = (handle ← index_array two_handles_modern i;
        constant_mem two_handles_args !! (handle + sizeof_int64_t * pos)))
  ∧ (∀ T outputData thread_index,
       index_select T two_handles_args outputData thread_index
       = index_select T (with_table two_handles_args two_handles_modern)
           outputData thread_index)
  ∧ (∀ T outputData thread_index,
       index_put T two_handles_args outputData thread_index
       = index_put T (with_table two_handles_args two_handles_modern)
           outputData thread_index)
  ∧ (∀ thread_index,
       index_put_accumulate_native_dtypes two_handles_args thread_index
       = index_put_accumulate_native_dtypes
           (with_table two_handles_args two_handles_modern) thread_index)
  ∧ (∀ `{AsType32 T} thread_index,
       atomic_index_put_accumulate (T:=T) two_handles_args thread_index
       = atomic_index_put_accumulate (T:=T)
           (with_table two_handles_args two_handles_modern) thread_index).
Proof.
  apply (index_tables_interchangeable two_handles_legacy two_handles_modern
           two_handles_args); [reflexivity|].
  split; [simpl; lia|].
  intros [|[|i]] Hi; [by eexists | by eexists | simpl in Hi; lia].
Defined.

(** ** Scatter followed by gather *)

Lemma get_idx_loop_swap iter_shape strides n dim idx acc :
  get_idx_loop iter_shape (swap_in_out <$> strides) n dim idx (swap_in_out acc)
  = swap_in_out <$> get_idx_loop iter_shape strides n dim idx acc.
Proof.
  revert dim idx acc. induction n as [|n IH]; intros dim idx acc; [done|].
  cbn [get_idx_loop]. destruct (iter_shape !! dim) as [s|]; [|done]. simpl.
  destruct (decide (s = 0)); [done|]. rewrite list_lookup_fmap.
  destruct (strides !! dim) as [st|]; [|done]. simpl. by rewrite <- IH.
Qed.

Lemma index_offset_loop_gather_args `{IndexTable Tbl} g (args : kernel_args Tbl)
    scattered z n i offset :
  index_offset_loop (gather_args g args scattered) z n i offset
  = index_offset_loop args z n i offset.
Proof.
  revert i offset. induction n as [|n IH]; intros i offset; [done|].
  cbn [index_offset_loop]. simpl.
  destruct (index_array _ _) as [handle|]; [|done]. simpl.
  destruct (constant_mem args !! _) as [index|]; [|done]. simpl.
  destruct (normalize_index _ _ _) as [index'|]; [|done]. simpl.
  destruct (indexStrides args !! i) as [st|]; [|done]. simpl.
  apply IH.
Qed.

Lemma resolve_gather_args_swap `{IndexTable Tbl} (args : kernel_args Tbl)
    scattered t :
  resolve (gather_args (fmap swap_in_out) args scattered) t
  = (λ r, (swap_in_out r.1, r.2)) <$> resolve args t.
Proof.
  unfold resolve, get_idx. simpl.
  rewrite (get_idx_loop_swap _ _ _ _ _ (uint3_splat 0)).
  destruct (get_idx_loop _ _ _ _ _ _) as [offsets|]; [|done]. simpl.
  unfold index_offset. simpl. rewrite index_offset_loop_gather_args.
  by destruct (index_offset_loop _ _ _ _ _).
Qed.

Lemma launch_index_put_resolved `{IndexTable Tbl} T (args : kernel_args Tbl)
    order m out :
  launch (index_put T args) order m = Some out →
  Forall (λ t, is_Some (resolve args t)) order.
Proof.
  revert m. induction order as [|t order IH]; intros m Hl; [constructor|].
  cbn [launch] in Hl. rewrite index_put_resolve in Hl.
  destruct (resolve args t) as [r|] eqn:Hr; [|done]. simpl in Hl.
  constructor; [by rewrite Hr|by eapply IH].
Qed.

(** Destinations that are aligned to the element size and pairwise distinct do
    not overlap. *)
Lemma aligned_injective_no_aliasing `{IndexTable Tbl} T (args : kernel_args Tbl)
    n :
  (∀ t d, 0 ≤ t < n → scatter_dest args t = Some d →
          (Z.of_nat (sizeof T) | d)) →
  (∀ t t' d, 0 ≤ t < n → 0 ≤ t' < n →
             scatter_dest args t = Some d → scatter_dest args t' = Some d →
             t = t') →
  no_destination_aliasing T args n.
Proof.
  intros Halign Hinj t t' d d' Ht Ht' Hne Hd Hd'.
  destruct (Halign t d Ht Hd) as [k ->].
  destruct (Halign t' d' Ht' Hd') as [k' ->].
  assert (k ≠ k') as Hk by (intros ->; by apply Hne, (Hinj t t' _ Ht Ht' Hd Hd')).
  destruct T; simpl; lia.
Qed.

(** C7, amended. When no two threads of the scatter write overlapping
    elements, running [index_put] and then [index_select] on the scattered
    buffer, with the same index table, index sizes, index strides and shape
    and with the output and input components of every stride exchanged (so
    that the gather reads where the scatter wrote), leaves at each thread's
    position the value the scatter read there, for every order of the threads
    of either grid. *)
Theorem scatter_then_gather_swapped :
  scatter_then_gather_recovers (fmap swap_in_out).
Proof.
  intros Tbl ? T args n order order' outputData gathered scattered
    Hperm Hperm' Hdisj Hput.
  set (sz := sizeof T).
  pose (r := λ t, default (uint3_splat 0, 0) (resolve args t)).
  pose (dst := λ t, vec_x (r t).1 + (r t).2).
  pose (src := λ t, vec_y (r t).1).
  assert (∀ t, 0 ≤ t < n → resolve args t = Some (r t)) as Hres.
  { intros t Ht. apply launch_index_put_resolved in Hput.
    rewrite Forall_forall in Hput. destruct (Hput t) as [rt Hrt].
    - rewrite Hperm. by apply elem_of_seqZ.
    - unfold r. by rewrite Hrt. }
  assert (∀ t, t ∈ order → 0 ≤ t < n) as Hin
    by (intros t; rewrite Hperm, elem_of_seqZ; lia).
  assert (∀ t, t ∈ order' → 0 ≤ t < n) as Hin'
    by (intros t; rewrite Hperm', elem_of_seqZ; lia).
  (* the scattered buffer *)
  destruct (launch_copy (index_put T args) sz (inputData args) dst src order
              outputData) as (scattered' & Hput' & Hscattered).
  { apply Forall_forall. intros t Ht m.
    by rewrite index_put_resolve, (Hres t (Hin t Ht)). }
  rewrite Hput in Hput'. injection Hput' as <-.
  assert (∀ t b, 0 ≤ t < n → dst t ≤ b < dst t + Z.of_nat sz →
            scattered !!! b = inputData args !!! (src t + (b - dst t))) as Hsc.
  { intros t b Ht Hb.
    destruct (Hscattered b) as [[_ Hnot]|(t' & Ht' & Hb' & ->)].
    - destruct (Hnot t); [|done]. rewrite Hperm. by apply elem_of_seqZ.
    - destruct (decide (t = t')) as [->|Hne]; [done|].
      destruct (Hdisj t t' (dst t) (dst t')); try done; try lia.
      + by apply Hin.
      + unfold scatter_dest. by rewrite Hres.
      + unfold scatter_dest. rewrite Hres; [done|by apply Hin]. }
  (* the gather *)
  destruct (launch_copy
              (index_select T (gather_args (fmap swap_in_out) args scattered))
              sz scattered src dst order' gathered) as (result & Hsel & Hresult).
  { apply Forall_forall. intros t Ht m.
    rewrite index_select_resolve, resolve_gather_args_swap.
    by rewrite (Hres t (Hin' t Ht)). }
  exists result. split; [done|]. intros t Ht.
  exists (r t).1, (swap_in_out (r t).1).
  pose proof (Hres t Ht) as Hrt. unfold resolve in Hrt.
  destruct (get_idx t _ _ _) as [offsets|] eqn:Hoffsets; [|done].
  simpl in Hrt. destruct (index_offset args _) as [offset|]; [|done].
  injection Hrt as Hrt. split_and!.
  - by rewrite <- Hrt.
  - unfold get_idx in *.
    by rewrite (get_idx_loop_swap _ _ _ _ _ (uint3_splat 0)), Hoffsets, <- Hrt.
  - apply load_bytes_ext. intros k Hk.
    change (vec_x (swap_in_out (r t).1)) with (src t).
    change (vec_y (r t).1) with (src t).
    destruct (Hresult (src t + Z.of_nat k)) as [[_ Hnot]|(t' & Ht' & Hb' & ->)].
    + destruct (Hnot t); [|lia]. rewrite Hperm'. by apply elem_of_seqZ.
    + rewrite (Hsc t' _ (Hin' t' Ht')) by lia. f_equal. lia.
Qed.

Lemma swap_pair_no_aliasing : no_destination_aliasing int swap_pair_args 2.
Proof.
  intros t t' d d' Ht Ht' Hne Hd Hd'.
  assert (t = 0 ∨ t = 1) as [-> | ->] by lia;
    assert (t' = 0 ∨ t' = 1) as [-> | ->] by lia; try done;
    vm_compute in Hd, Hd'; injection Hd as <-; injection Hd' as <-;
    simpl; lia.
Qed.

Lemma scatter_then_gather_swapped_witness :
  ∃ result,
    launch (index_select int
              (gather_args (fmap swap_in_out) swap_pair_args
                 (store32 4 1 (store32 0 2 ∅)))) [1; 0] ∅ = Some result
    ∧ ∀ t, 0 ≤ t < 2 →
        ∃ put_offsets select_offsets,
          get_idx t (iter_shape swap_pair_args) (num_dimensions swap_pair_args)
            (strides swap_pair_args) = Some put_offsets
          ∧ get_idx t (iter_shape swap_pair_args)
              (num_dimensions swap_pair_args)
              (swap_in_out <$> strides swap_pair_args) = Some select_offsets
          ∧ load_bytes (sizeof int) (vec_x select_offsets) result
            = load_bytes (sizeof int) (vec_y put_offsets)
                (inputData swap_pair_args).
Proof.
  apply (scatter_then_gather_swapped _ _ int swap_pair_args 2 [0; 1] [1; 0] ∅ ∅).
  - by apply (bool_decide_unpack _).
  - by apply (bool_decide_unpack _).
  - apply swap_pair_no_aliasing.
  - by vm_compute.
Defined.

(** The scatter of [swap_pair_args] puts the value 1 at offset 4 and the value
    2 at offset 0; the gather with the same stride table then reads offset 4
    in both threads and writes the value 1 to offset 0 twice. *)
Example swap_pair_same_strides_run :
  inputData swap_pair_args = store32 0 1 (store32 4 2 ∅)
  ∧ launch (index_put int swap_pair_args) [0; 1] ∅
    = Some (store32 4 1 (store32 0 2 ∅))
  ∧ launch (index_select int
              (gather_args id swap_pair_args (store32 4 1 (store32 0 2 ∅))))
      [0; 1] ∅
    = Some (store32 0 1 ∅).
Proof. by vm_compute. Qed.

(** C7 as stated fails: with the same stride table in both kernels the gather
    reads at [in_off + offset] where the scatter wrote at [out_off + offset].
    For [swap_pair_args] both gather threads read the value 1 and the value 2
    is not recovered. *)
Lemma scatter_then_gather_same_strides_fails :
  ¬ scatter_then_gather_recovers id.
Proof.
  intros Hclaim.
  destruct (Hclaim _ _ int swap_pair_args 2 [0; 1] [0; 1] ∅ ∅
              (store32 4 1 (store32 0 2 ∅))) as (result & Hsel & Hrec).
  - by apply (bool_decide_unpack _).
  - by apply (bool_decide_unpack _).
  - apply swap_pair_no_aliasing.
  - by vm_compute.
  - destruct (Hrec 1) as (put_offsets & select_offsets & Hp & Hs & Hload); [lia|].
    vm_compute in Hp, Hs, Hsel.
    injection Hp as <-. injection Hs as <-. injection Hsel as <-.
    vm_compute in Hload. discriminate.
Qed.

(** ** [as_type] on [float] *)

Lemma float_eq (a b : float) : float_bits a = float_bits b → a = b.
Proof.
  destruct a as [a Ha], b as [b Hb]. simpl. intros ->.
  f_equal. apply proof_irrel.
Qed.

Lemma float_bits_range (v : float) : 0 ≤ float_bits v < 2 ^ 32.
Proof. apply (bool_decide_unpack _), float_range. Qed.

Lemma float_laws : AsType32Laws float.
Proof.
  split.
  - apply float_bits_range.
  - intros v. apply float_eq. simpl. apply Z.mod_small, float_bits_range.
  - intros u Hu. simpl. by apply Z.mod_small.
Qed.

(** ** [atomic_fetch_add_relaxed] *)

Section atomic_fetch_add_relaxed.
Context `{AsType32 T} (laws : AsType32Laws T).
Implicit Types (st : cas_thread T) (m : gmap Z byte).

Lemma load32_store32_as_type a (v : T) m :
  as_type_T (load32 a (store32 a (as_type_uint v) m)) = v.
Proof.
  rewrite load32_store32, wrap32_small by apply laws.
  apply laws.
Qed.

Lemma cas_step_invariant addr value st spurious m :
  cas_invariant addr value st →
  cas_invariant addr value (atomic_fetch_add_relaxed_step spurious st m).1.
Proof.
  destruct st as [a v|a v expected updated|a v]; simpl.
  - intros [-> ->]. done.
  - intros (-> & -> & ->).
    unfold atomic_compare_exchange_weak_explicit.
    destruct (decide _); [destruct spurious|]; done.
  - done.
Qed.

(** Every step of a thread works from the value its access finds in the
    slot. *)
Lemma cas_step_spec addr value st spurious m :
  cas_invariant addr value st →
  atomic_fetch_add_relaxed_step spurious st m
  = match st with
    | AtLoad _ _ =>
        (AtCas addr value (load32 addr m)
           (T_add (as_type_T (load32 addr m)) value), m)
    | AtCas _ _ expected _ =>
        if bool_decide (load32 addr m = expected) && negb spurious
        then (Returned addr value,
              store32 addr
                (as_type_uint (T_add (as_type_T (load32 addr m)) value)) m)
        else (AtCas addr value (load32 addr m)
                (T_add (as_type_T (load32 addr m)) value), m)
    | Returned _ _ => (st, m)
    end.
Proof.
  intros Hinv. destruct st as [a v|a v expected updated|a v]; simpl in *.
  - by destruct Hinv as [-> ->].
  - destruct Hinv as (-> & -> & ->).
    unfold atomic_compare_exchange_weak_explicit.
    destruct (decide (load32 addr m = expected)) as [Heq|Hne].
    + rewrite bool_decide_eq_true_2 by done. destruct spurious; simpl;
        by rewrite ?Heq.
    + by rewrite bool_decide_eq_false_2 by done.
  - done.
Qed.

Lemma cas_reachable_invariant addr value st :
  cas_reachable addr value st → cas_invariant addr value st.
Proof.
  induction 1 as [|st spurious m _ IH]; [done|]. by apply cas_step_invariant.
Qed.
End atomic_fetch_add_relaxed.

(** C1. Whatever other threads do to the slot between the accesses of a
    thread inside [atomic_fetch_add_relaxed], each of its steps works from the
    value [load32 addr m] that this very access finds in the slot: the first
    load and every failed compare-and-swap leave [expected] at that value and
    [updated] at [as_type<T>(expected) + value]; a compare-and-swap succeeds
    only if the slot still holds [expected], and then stores the bit pattern of
    that sum, so that the slot, read as [T], holds its previous value plus
    [value]. For [float], [as_type] is the identity on 32-bit patterns in both
    directions. *)
Theorem atomic_fetch_add_relaxed_retry `{AsType32 T} (addr : Z) (value : T)
    (st : cas_thread T) :
  AsType32Laws T →
  cas_reachable addr value st →
  (∀ spurious m,
     let current := load32 addr m in
     let sum := T_add (as_type_T current) value in
     atomic_fetch_add_relaxed_step spurious st m
     = match st with
       | AtLoad _ _ => (AtCas addr value current sum, m)
       | AtCas _ _ expected _ =>
           if bool_decide (current = expected) && negb spurious
           then (Returned addr value, store32 addr (as_type_uint sum) m)
           else (AtCas addr value current sum, m)
       | Returned _ _ => (st, m)
       end)
  ∧ (∀ m, as_type_T
            (load32 addr
               (store32 addr
                  (as_type_uint (T_add (as_type_T (load32 addr m)) value)) m))
          = T_add (as_type_T (load32 addr m)) value)
  ∧ (∀ u, 0 ≤ u < 2 ^ 32 → float_bits (float_of_bits u) = u)
  ∧ (∀ f : float, float_of_bits (float_bits f) = f).
Proof.
  intros laws Hreach. split_and!.
  - intros spurious m. by apply cas_step_spec, cas_reachable_invariant.
  - intros m. by apply load32_store32_as_type.
  - apply float_laws.
  - apply float_laws.
Qed.

Lemma atomic_fetch_add_relaxed_retry_witness :
  (∀ spurious m,
     let current := load32 0 m in
     let sum := T_add (as_type_T current) (float_of_bits f32_1) in
     atomic_fetch_add_relaxed_step spurious retry_example m
     = match retry_example with
       | AtLoad _ _ => (AtCas 0 (float_of_bits f32_1) current sum, m)
       | AtCas _ _ expected _ =>
           if bool_decide (current = expected) && negb spurious
           then (Returned 0 (float_of_bits f32_1),
                 store32 0 (as_type_uint sum) m)
           else (AtCas 0 (float_of_bits f32_1) current sum, m)
       | Returned _ _ => (retry_example, m)
       end)
  ∧ (∀ m, as_type_T
            (load32 0
               (store32 0
                  (as_type_uint
                     (T_add (as_type_T (load32 0 m)) (float_of_bits f32_1))) m))
          = T_add (as_type_T (load32 0 m)) (float_of_bits f32_1))
  ∧ (∀ u, 0 ≤ u < 2 ^ 32 → float_bits (float_of_bits u) = u)
  ∧ (∀ f : float, float_of_bits (float_bits f) = f).
Proof.
  apply (atomic_fetch_add_relaxed_retry 0 (float_of_bits f32_1) retry_example).
  - apply float_laws.
  - apply cas_reachable_step, cas_reachable_step, cas_reachable_start.
Defined.

(** The thread of [retry_example] loaded 1.0, then found 2.0 in the slot: its
    pending sum is 3.0, not the 2.0 it computed first. *)
Example retry_example_state :
  match retry_example with
  | AtCas a v expected updated =>
      (a, float_bits v, expected, float_bits updated) = (0, f32_1, f32_2, f32_3)
  | _ => False
  end.
Proof. by vm_compute. Qed.

(** ** Interleavings *)

Section interleaving.
Context {St : Type} (tstep : bool → St → gmap Z byte → St * gmap Z byte).

Lemma run_schedule_cons ev sched s :
  run_schedule tstep (ev :: sched) s
  = run_schedule tstep sched (sys_step tstep s ev).
Proof. done. Qed.

Lemma run_schedule_app sched sched' s :
  run_schedule tstep (sched ++ sched') s
  = run_schedule tstep sched' (run_schedule tstep sched s).
Proof. apply fold_left_app. Qed.

(** A property that every step of every thread preserves holds at the end of
    every schedule. *)
Lemma run_schedule_invariant (Inv : list St * gmap Z byte → Prop) sched s :
  (∀ threads m i spurious st,
     Inv (threads, m) → threads !! i = Some st →
     Inv (<[i := (tstep spurious st m).1]> threads, (tstep spurious st m).2)) →
  Inv s → Inv (run_schedule tstep sched s).
Proof.
  intros Hstep. revert s. induction sched as [|[i spurious] sched IH];
    intros [threads m] Hs; [done|].
  rewrite run_schedule_cons. apply IH. unfold sys_step. simpl.
  destruct (threads !! i) as [st|] eqn:Hst; [|done].
  specialize (Hstep threads m i spurious st Hs Hst).
  by destruct (tstep spurious st m).
Qed.
End interleaving.

Lemma insert_split {A} (l : list A) i x y :
  l !! i = Some x →
  ∃ l1 l2, l = l1 ++ x :: l2 ∧ <[i := y]> l = l1 ++ y :: l2.
Proof.
  intros Hx. exists (take i l), (drop (S i) l). split.
  - by rewrite take_drop_middle.
  - apply insert_take_drop. by eapply lookup_lt_Some.
Qed.

Lemma Zsum_app l l' : Zsum (l ++ l') = Zsum l + Zsum l'.
Proof. unfold Zsum. induction l as [|v l IH]; simpl; lia. Qed.

Lemma wrap32_Zsum_signed32 l : wrap32 (Zsum (signed32 <$> l)) = wrap32 (Zsum l).
Proof.
  induction l as [|v l IH]; [done|].
  rewrite fmap_cons. unfold Zsum in *. simpl.
  by rewrite <- wrap32_add_l, wrap32_signed32, wrap32_add_l, <- wrap32_add_r,
    IH, wrap32_add_r.
Qed.

(** *** The native path *)

Lemma native_returned_sum_insert threads i a v :
  threads !! i = Some (NativePending a v) →
  native_returned_sum (<[i := NativeReturned a v]> threads)
  = native_returned_sum threads + v.
Proof.
  intros Hi. destruct (insert_split threads i _ (NativeReturned a v) Hi)
    as (l1 & l2 & Hl & ->).
  rewrite Hl. unfold native_returned_sum.
  rewrite !fmap_app, !Zsum_app. unfold Zsum. simpl. lia.
Qed.

Lemma native_step_invariant a m0 threads m i spurious st :
  native_sys_inv a m0 (threads, m) → threads !! i = Some st →
  native_sys_inv a m0 (<[i := (native_step spurious st m).1]> threads,
                       (native_step spurious st m).2).
Proof.
  intros [Haddr Hmem] Hi. simpl in *.
  assert (native_addr st = a) as Ha
    by (rewrite Forall_lookup in Haddr; by eapply Haddr).
  destruct st as [a' v|a' v]; simpl in Ha; subst a'; simpl.
  - split; simpl.
    + by apply Forall_insert.
    + rewrite load32_store32, wrap32_idemp, Hmem, wrap32_add_l.
      rewrite (native_returned_sum_insert _ _ _ _ Hi). f_equal. lia.
  - rewrite list_insert_id by done. done.
Qed.

Lemma native_returned_sum_all threads :
  Forall (λ st, native_returned st) threads →
  native_returned_sum threads = Zsum (native_value <$> threads).
Proof.
  unfold native_returned_sum.
  induction 1 as [|st threads Hst _ IH]; [done|].
  rewrite !fmap_cons. unfold Zsum in *. simpl. rewrite IH.
  by destruct (native_returned st).
Qed.

Lemma native_returned_sum_none threads :
  Forall (λ st, native_returned st = false) threads →
  native_returned_sum threads = 0.
Proof.
  unfold native_returned_sum.
  induction 1 as [|st threads Hst _ IH]; [done|].
  rewrite !fmap_cons. unfold Zsum in *. simpl. rewrite IH, Hst. done.
Qed.

Lemma native_values_preserved sched threads m :
  native_value <$> (run_schedule native_step sched (threads, m)).1
  = native_value <$> threads.
Proof.
  apply (run_schedule_invariant native_step
           (λ s, native_value <$> s.1 = native_value <$> threads)); [|done].
  clear. intros ts m i spurious st Hinv Hi. simpl in *.
  rewrite list_fmap_insert, Hinv. apply list_insert_id.
  rewrite <- Hinv, list_lookup_fmap, Hi. by destruct st.
Qed.

Lemma native_run_stays_returned sched threads m i st :
  threads !! i = Some st → native_returned st →
  ∃ st', (run_schedule native_step sched (threads, m)).1 !! i = Some st'
         ∧ native_returned st'.
Proof.
  intros Hi Hst.
  apply (run_schedule_invariant native_step
           (λ s, ∃ st', s.1 !! i = Some st' ∧ native_returned st'));
    [|by exists st].
  clear. intros threads m j spurious st (st' & Hi & Hst') Hj. simpl in *.
  destruct (decide (j = i)) as [->|Hne].
  - rewrite Hi in Hj. injection Hj as <-.
    rewrite list_lookup_insert_eq by by eapply lookup_lt_Some.
    exists st'. by destruct st'.
  - rewrite list_lookup_insert_ne by done. by exists st'.
Qed.

Lemma native_run_returns sched threads m i spurious :
  (i, spurious) ∈ sched → (i < length threads)%nat →
  ∃ st', (run_schedule native_step sched (threads, m)).1 !! i = Some st'
         ∧ native_returned st'.
Proof.
  revert threads m. induction sched as [|[j sp] sched IH];
    intros threads m Hin Hlen; [by apply not_elem_of_nil in Hin|].
  rewrite run_schedule_cons. unfold sys_step. simpl.
  destruct (decide (j = i)) as [->|Hne].
  - destruct (lookup_lt_is_Some_2 threads i Hlen) as [st Hst]. rewrite Hst.
    destruct (native_step sp st m) as [st1 m1] eqn:Hstep.
    apply native_run_stays_returned with st1.
    + by apply list_lookup_insert_eq.
    + destruct st; simpl in Hstep; by injection Hstep as <- <-.
  - apply elem_of_cons in Hin as [[= ? ?]|Hin]; [done|].
    destruct (threads !! j) as [st|] eqn:Hst; [|by eapply IH].
    destruct (native_step sp st m) as [st1 m1].
    eapply IH; [done|]. by rewrite length_insert.
Qed.

Lemma run_schedule_length {St} (tstep : bool → St → gmap Z byte → St * gmap Z byte)
    sched threads m :
  length (run_schedule tstep sched (threads, m)).1 = length threads.
Proof.
  apply (run_schedule_invariant tstep (λ s, length s.1 = length threads));
    [|done].
  intros ts m' i spurious st Hlen _. simpl in *. by rewrite length_insert.
Qed.

(** *** The emulated path *)

Section emulated.
Context `{AsType32 T} (laws : AsType32Laws T).
Implicit Types (st : cas_thread T) (threads : list (cas_thread T))
  (m : gmap Z byte).

Lemma cas_step_value spurious st m :
  cas_value (atomic_fetch_add_relaxed_step spurious st m).1 = cas_value st.
Proof.
  destruct st as [a v|a v expected updated|a v]; simpl; try done.
  unfold atomic_compare_exchange_weak_explicit.
  destruct (decide _); [destruct spurious|]; done.
Qed.

Lemma cas_returned_values_insert_same threads i st st' :
  threads !! i = Some st → cas_returned st = false → cas_returned st' = false →
  cas_returned_values (<[i := st']> threads) = cas_returned_values threads.
Proof.
  intros Hi Hst Hst'.
  destruct (insert_split threads i st st' Hi) as (l1 & l2 & Hl & ->).
  rewrite Hl. unfold cas_returned_values.
  rewrite !omap_app. simpl. by rewrite Hst, Hst'.
Qed.

Lemma cas_returned_values_insert_returned threads i st a v :
  threads !! i = Some st → cas_returned st = false →
  cas_returned_values (<[i := Returned a v]> threads)
  ≡ₚ v :: cas_returned_values threads.
Proof.
  intros Hi Hst.
  destruct (insert_split threads i st (Returned a v) Hi) as (l1 & l2 & Hl & ->).
  rewrite Hl. unfold cas_returned_values.
  rewrite !omap_app. simpl. rewrite Hst. by rewrite Permutation_middle.
Qed.

Lemma cas_returned_values_all threads :
  Forall (λ st, cas_returned st) threads →
  cas_returned_values threads = cas_value <$> threads.
Proof.
  unfold cas_returned_values.
  induction 1 as [|st threads Hst _ IH]; [done|].
  simpl. destruct (cas_returned st); [|done]. simpl. f_equal. exact IH.
Qed.

Lemma cas_returned_values_none threads :
  Forall (λ st, cas_returned st = false) threads →
  cas_returned_values threads = [].
Proof.
  unfold cas_returned_values.
  induction 1 as [|st threads Hst _ IH]; [done|].
  simpl. rewrite Hst. exact IH.
Qed.

Lemma cas_step_sys_invariant a m0 threads m i spurious st :
  cas_sys_inv a m0 (threads, m) → threads !! i = Some st →
  cas_sys_inv a m0
    (<[i := (atomic_fetch_add_relaxed_step spurious st m).1]> threads,
     (atomic_fetch_add_relaxed_step spurious st m).2).
Proof.
  intros [Hinv (order & Hperm & Hmem)] Hi. simpl in *.
  assert (cas_invariant a (cas_value st) st) as Hst
    by (rewrite Forall_lookup in Hinv; by eapply Hinv).
  split; simpl.
  { apply Forall_insert; [done|]. rewrite cas_step_value.
    by apply cas_step_invariant. }
  rewrite (cas_step_spec a (cas_value st)) by done.
  destruct st as [a' v|a' v expected updated|a' v]; simpl in *.
  - exists order. split; [|done].
    by rewrite (cas_returned_values_insert_same _ _ (AtLoad a' v)).
  - destruct (bool_decide (load32 a m = expected) && negb spurious); simpl.
    + exists (order ++ [v]). split.
      * rewrite (cas_returned_values_insert_returned _ _
                   (AtCas a' v expected updated)) by done.
        by rewrite <- Hperm, Permutation_app_comm.
      * rewrite load32_store32_as_type by done.
        by rewrite fold_left_app, <- Hmem.
    + exists order. split; [|done].
      by rewrite (cas_returned_values_insert_same _ _
                    (AtCas a' v expected updated)).
  - exists order. by rewrite list_insert_id.
Qed.

Lemma cas_values_preserved sched threads m :
  cas_value <$> (run_schedule atomic_fetch_add_relaxed_step sched (threads, m)).1
  = cas_value <$> threads.
Proof.
  apply (run_schedule_invariant atomic_fetch_add_relaxed_step
           (λ s, cas_value <$> s.1 = cas_value <$> threads)); [|done].
  clear. intros ts m i spurious st Hinv Hi. simpl in *.
  rewrite list_fmap_insert, Hinv. apply list_insert_id.
  by rewrite <- Hinv, list_lookup_fmap, Hi, cas_step_value.
Qed.

(** Every complete interleaving adds the values one at a time, in some
    order. *)
Lemma cas_run_complete a threads m0 sched threads' m' :
  Forall (λ st, ∃ v, st = AtLoad a v) threads →
  run_schedule atomic_fetch_add_relaxed_step sched (threads, m0)
  = (threads', m') →
  Forall (λ st, cas_returned st) threads' →
  ∃ order,
    order ≡ₚ cas_value <$> threads
    ∧ as_type_T (load32 a m')
      = fold_left T_add order (as_type_T (load32 a m0)).
Proof.
  intros Hstart Hrun Hdone.
  assert (cas_sys_inv a m0 (threads', m')) as [_ (order & Hperm & Hmem)];
    [|simpl in Hperm, Hmem].
  { rewrite <- Hrun. apply run_schedule_invariant.
    - intros. by apply cas_step_sys_invariant.
    - split; simpl.
      + eapply Forall_impl; [done|]. by intros st [v ->].
      + exists []. split; [|done]. rewrite cas_returned_values_none; [done|].
        eapply Forall_impl; [done|]. by intros st [v ->]. }
  exists order. split; [|done].
  rewrite Hperm, cas_returned_values_all by done.
  pose proof (cas_values_preserved sched threads m0) as Hvals.
  rewrite Hrun in Hvals.
  change (cas_value <$> threads' = cas_value <$> threads) in Hvals.
  by rewrite Hvals.
Qed.

(** One thread run on its own: it loads, and its compare-and-swap succeeds. *)
Lemma cas_run_thread a threads m i v :
  threads !! i = Some (AtLoad a v) →
  run_schedule atomic_fetch_add_relaxed_step [(i, false); (i, false)]
    (threads, m)
  = (<[i := Returned a v]> threads,
     store32 a (as_type_uint (T_add (as_type_T (load32 a m)) v)) m).
Proof.
  intros Hi. unfold run_schedule, sys_step. simpl. rewrite Hi. simpl.
  rewrite list_lookup_insert_eq by by eapply lookup_lt_Some. simpl.
  unfold atomic_compare_exchange_weak_explicit, atomic_load_explicit.
  rewrite decide_True by done. by rewrite list_insert_insert_eq.
Qed.

(** The threads [sigma], run one after the other, add their values in that
    order. *)
Lemma cas_run_sequential a sigma values threads m :
  NoDup sigma →
  Forall2 (λ i v, threads !! i = Some (AtLoad a v)) sigma values →
  ∃ threads' m',
    run_schedule atomic_fetch_add_relaxed_step (sequential_schedule sigma)
      (threads, m) = (threads', m')
    ∧ as_type_T (load32 a m')
      = fold_left T_add values (as_type_T (load32 a m))
    ∧ (∀ i, i ∈ sigma → ∃ st, threads' !! i = Some st ∧ cas_returned st)
    ∧ (∀ i, i ∉ sigma → threads' !! i = threads !! i).
Proof.
  intros Hnodup Hall. revert threads m Hall.
  induction values as [|v values IH] in sigma, Hnodup |- *;
    intros threads m Hall.
  - apply Forall2_nil_inv_r in Hall as ->. exists threads, m.
    split_and!; [done..| |done]. by intros i ?%not_elem_of_nil.
  - apply Forall2_cons_inv_r in Hall as (i & sigma' & Hi & Hall & ->).
    apply NoDup_cons in Hnodup as [Hnotin Hnodup].
    change (sequential_schedule (i :: sigma'))
      with ([(i, false); (i, false)] ++ sequential_schedule sigma').
    rewrite run_schedule_app, (cas_run_thread a _ _ _ v) by done.
    destruct (IH sigma' Hnodup (<[i := Returned a v]> threads)
                (store32 a (as_type_uint (T_add (as_type_T (load32 a m)) v)) m))
      as (threads' & m' & Hrun & Hmem & Hret & Hother).
    { apply Forall2_same_length_lookup in Hall as [Hlen Hall].
      apply Forall2_same_length_lookup. split; [done|].
      intros k j w Hj Hw. rewrite list_lookup_insert_ne; [by eapply Hall|].
      intros ->. apply Hnotin. by eapply list_elem_of_lookup_2. }
    exists threads', m'. split_and!.
    + done.
    + by rewrite Hmem, load32_store32_as_type.
    + intros j [->|Hj]%elem_of_cons; [|by apply Hret].
      rewrite (Hother i Hnotin), list_lookup_insert_eq
        by by eapply lookup_lt_Some.
      by eexists.
    + intros j Hj. rewrite not_elem_of_cons in Hj. destruct Hj as [Hne Hj].
      rewrite (Hother j Hj). by apply list_lookup_insert_ne.
Qed.
(** *** The order of the successful compare-and-swaps *)

Lemma cas_succeeds_returns spurious st m :
  cas_succeeds spurious st m = true →
  cas_returned st = false
  ∧ cas_returned (atomic_fetch_add_relaxed_step spurious st m).1 = true.
Proof.
  destruct st as [a v|a v expected updated|a v]; simpl; try done.
  by destruct (atomic_compare_exchange_weak_explicit _ _ _ _ _)
    as [[[] ?] ?].
Qed.

Lemma cas_step_returned spurious st m :
  cas_returned (atomic_fetch_add_relaxed_step spurious st m).1 = true →
  cas_returned st = true ∨ cas_succeeds spurious st m = true.
Proof.
  destruct st as [a v|a v expected updated|a v]; simpl; [done| |by left].
  destruct (atomic_compare_exchange_weak_explicit _ _ _ _ _)
    as [[[] ?] ?]; simpl; [by right|done].
Qed.

Lemma cas_step_of_returned spurious st m :
  cas_returned st = true →
  (atomic_fetch_add_relaxed_step spurious st m).1 = st.
Proof. by destruct st. Qed.

(** A step changes the memory exactly when its compare-and-swap succeeds, and
    then adds the value of the thread to the slot. *)
Lemma cas_step_memory a spurious st m :
  cas_invariant a (cas_value st) st →
  (atomic_fetch_add_relaxed_step spurious st m).2
  = if cas_succeeds spurious st m
    then store32 a
           (as_type_uint (T_add (as_type_T (load32 a m)) (cas_value st))) m
    else m.
Proof.
  intros Hinv. destruct st as [a' v|a' v expected updated|a' v]; simpl in *;
    [done| |done].
  destruct Hinv as (-> & _ & ->).
  unfold atomic_compare_exchange_weak_explicit.
  destruct (decide (load32 a m = expected)) as [->|]; [|done].
  by destruct spurious.
Qed.

Lemma cas_success_order_step i spurious sched threads m st :
  threads !! i = Some st →
  cas_success_order ((i, spurious) :: sched) (threads, m)
  = (if cas_succeeds spurious st m then [i] else [])
    ++ cas_success_order sched
         (<[i := (atomic_fetch_add_relaxed_step spurious st m).1]> threads,
          (atomic_fetch_add_relaxed_step spurious st m).2).
Proof.
  intros Hi. cbn [cas_success_order]. unfold sys_step. simpl. rewrite Hi. simpl.
  by destruct (atomic_fetch_add_relaxed_step spurious st m).
Qed.

Lemma cas_success_order_skip i spurious sched threads m :
  threads !! i = None →
  cas_success_order ((i, spurious) :: sched) (threads, m)
  = cas_success_order sched (threads, m).
Proof.
  intros Hi. cbn [cas_success_order]. unfold sys_step. simpl. by rewrite Hi.
Qed.

Lemma run_schedule_step i spurious sched threads m st :
  threads !! i = Some st →
  run_schedule atomic_fetch_add_relaxed_step ((i, spurious) :: sched)
    (threads, m)
  = run_schedule atomic_fetch_add_relaxed_step sched
      (<[i := (atomic_fetch_add_relaxed_step spurious st m).1]> threads,
       (atomic_fetch_add_relaxed_step spurious st m).2).
Proof.
  intros Hi. rewrite run_schedule_cons. unfold sys_step. simpl. rewrite Hi.
  by destruct (atomic_fetch_add_relaxed_step spurious st m).
Qed.

Lemma run_schedule_skip i spurious sched threads m :
  threads !! i = None →
  run_schedule atomic_fetch_add_relaxed_step ((i, spurious) :: sched)
    (threads, m)
  = run_schedule atomic_fetch_add_relaxed_step sched (threads, m).
Proof.
  intros Hi. rewrite run_schedule_cons. unfold sys_step. simpl. by rewrite Hi.
Qed.

Lemma cas_success_order_app sched sched' s :
  cas_success_order (sched ++ sched') s
  = cas_success_order sched s
    ++ cas_success_order sched'
         (run_schedule atomic_fetch_add_relaxed_step sched s).
Proof.
  revert s. induction sched as [|ev sched IH]; intros s; [done|].
  cbn [app cas_success_order]. rewrite IH, run_schedule_cons.
  by rewrite <- app_assoc.
Qed.

(** A thread succeeds at most once, and only while it has not returned. *)
Lemma cas_success_order_pending sched threads m :
  NoDup (cas_success_order sched (threads, m))
  ∧ ∀ i, i ∈ cas_success_order sched (threads, m) →
      ∃ st, threads !! i = Some st ∧ cas_returned st = false.
Proof.
  revert threads m. induction sched as [|[i spurious] sched IH];
    intros threads m.
  { split; [constructor|]. by intros i ?%not_elem_of_nil. }
  destruct (threads !! i) as [st|] eqn:Hi;
    [|rewrite cas_success_order_skip by done; apply IH].
  rewrite (cas_success_order_step _ _ _ _ _ st) by done.
  destruct (IH (<[i := (atomic_fetch_add_relaxed_step spurious st m).1]> threads)
              (atomic_fetch_add_relaxed_step spurious st m).2)
    as [Hnodup Hpending].
  assert (∀ j,
            j ∈ cas_success_order sched
                  (<[i := (atomic_fetch_add_relaxed_step spurious st m).1]>
                     threads,
                   (atomic_fetch_add_relaxed_step spurious st m).2) →
            ∃ st', threads !! j = Some st' ∧ cas_returned st' = false)
    as Hbefore.
  { intros j Hj. destruct (Hpending j Hj) as (st' & Hst' & Hret).
    destruct (decide (j = i)) as [->|Hne].
    - rewrite list_lookup_insert_eq in Hst' by by eapply lookup_lt_Some.
      injection Hst' as <-. exists st. split; [done|].
      destruct (cas_returned st) eqn:Hst; [|done].
      rewrite cas_step_of_returned in Hret by done. congruence.
    - rewrite list_lookup_insert_ne in Hst' by done. by exists st'. }
  destruct (cas_succeeds spurious st m) eqn:Hsucc; [|done].
  apply cas_succeeds_returns in Hsucc as [Hst Hst1].
  cbn [app]. split.
  - apply NoDup_cons. split; [|done]. intros Hin.
    destruct (Hpending i Hin) as (st' & Hst' & Hret).
    rewrite list_lookup_insert_eq in Hst' by by eapply lookup_lt_Some.
    injection Hst' as <-. by rewrite Hst1 in Hret.
  - intros j [->|Hj]%elem_of_cons; [by exists st|by apply Hbefore].
Qed.

(** A thread that has returned at the end had returned at the start or has
    succeeded in between. *)
Lemma cas_returned_in_success_order sched threads m i st' :
  (run_schedule atomic_fetch_add_relaxed_step sched (threads, m)).1 !! i
  = Some st' →
  cas_returned st' = true →
  i ∈ cas_success_order sched (threads, m)
  ∨ ∃ st, threads !! i = Some st ∧ cas_returned st = true.
Proof.
  revert threads m. induction sched as [|[j spurious] sched IH];
    intros threads m Hi Hret.
  { right. by exists st'. }
  destruct (threads !! j) as [st|] eqn:Hj.
  - rewrite (run_schedule_step _ _ _ _ _ st) in Hi by done.
    rewrite (cas_success_order_step _ _ _ _ _ st) by done.
    destruct (IH _ _ Hi Hret) as [Hin|(st1 & Hst1 & Hret1)].
    { left. apply elem_of_app. by right. }
    destruct (decide (i = j)) as [->|Hne].
    + rewrite list_lookup_insert_eq in Hst1 by by eapply lookup_lt_Some.
      injection Hst1 as <-.
      destruct (cas_step_returned _ _ _ Hret1) as [Hst|Hsucc].
      * right. by exists st.
      * left. rewrite Hsucc. apply elem_of_cons. by left.
    + rewrite list_lookup_insert_ne in Hst1 by done. right. by exists st1.
  - rewrite run_schedule_skip in Hi by done.
    rewrite cas_success_order_skip by done. by apply IH.
Qed.

(** In a launch that completes every thread succeeds exactly once. *)
Lemma cas_success_order_Permutation threads m sched threads' m' :
  Forall (λ st, cas_returned st = false) threads →
  run_schedule atomic_fetch_add_relaxed_step sched (threads, m)
  = (threads', m') →
  Forall (λ st, cas_returned st) threads' →
  cas_success_order sched (threads, m) ≡ₚ seq 0 (length threads).
Proof.
  intros Hstart Hrun Hdone.
  destruct (cas_success_order_pending sched threads m) as [Hnodup Hpending].
  apply NoDup_Permutation; [done|apply NoDup_seq|].
  intros i. rewrite elem_of_seq. split.
  - intros Hin. destruct (Hpending i Hin) as (st & Hst & _).
    apply lookup_lt_Some in Hst. lia.
  - intros Hi.
    pose proof (run_schedule_length atomic_fetch_add_relaxed_step sched
                  threads m) as Hlen.
    rewrite Hrun in Hlen. simpl in Hlen.
    destruct (lookup_lt_is_Some_2 threads' i) as [st' Hst']; [lia|].
    assert (cas_returned st' = true) as Hret.
    { apply Is_true_true. rewrite Forall_lookup in Hdone. by eapply Hdone. }
    destruct (cas_returned_in_success_order sched threads m i st')
      as [Hin|(st & Hst & Hret0)]; [by rewrite Hrun|done|done|].
    rewrite Forall_lookup in Hstart. by rewrite (Hstart i st Hst) in Hret0.
Qed.

Lemma cas_value_lookup_insert threads i st st' j :
  threads !! i = Some st → cas_value st' = cas_value st →
  cas_value <$> <[i := st']> threads !! j = cas_value <$> threads !! j.
Proof.
  intros Hi Hv. destruct (decide (j = i)) as [->|Hne].
  - rewrite list_lookup_insert_eq by by eapply lookup_lt_Some.
    rewrite Hi. simpl. by rewrite Hv.
  - by rewrite list_lookup_insert_ne.
Qed.

(** Every interleaving adds to the slot the values of the threads whose
    compare-and-swaps succeed, one at a time, in the order of the
    successes. *)
Lemma cas_run_success_order a sched threads m :
  Forall (λ st, cas_invariant a (cas_value st) st) threads →
  ∃ values,
    Forall2 (λ i v, cas_value <$> threads !! i = Some v)
      (cas_success_order sched (threads, m)) values
    ∧ as_type_T
        (load32 a
           (run_schedule atomic_fetch_add_relaxed_step sched (threads, m)).2)
      = fold_left T_add values (as_type_T (load32 a m)).
Proof.
  revert threads m. induction sched as [|[i spurious] sched IH];
    intros threads m Hinv.
  { exists []. split; [constructor|done]. }
  destruct (threads !! i) as [st|] eqn:Hi.
  - rewrite (run_schedule_step _ _ _ _ _ st) by done.
    rewrite (cas_success_order_step _ _ _ _ _ st) by done.
    assert (cas_invariant a (cas_value st) st) as Hst
      by (rewrite Forall_lookup in Hinv; by eapply Hinv).
    destruct (IH (<[i := (atomic_fetch_add_relaxed_step spurious st m).1]>
                    threads)
                (atomic_fetch_add_relaxed_step spurious st m).2)
      as (values & Hvalues & Hmem).
    { apply Forall_insert; [done|]. rewrite cas_step_value.
      by apply cas_step_invariant. }
    assert (Forall2 (λ j v, cas_value <$> threads !! j = Some v)
              (cas_success_order sched
                 (<[i := (atomic_fetch_add_relaxed_step spurious st m).1]>
                    threads,
                  (atomic_fetch_add_relaxed_step spurious st m).2)) values)
      as Hvalues'.
    { eapply Forall2_impl; [done|]. intros j v Hj. simpl in Hj.
      by rewrite (cas_value_lookup_insert _ _ st) in Hj
        by (done || apply cas_step_value). }
    rewrite Hmem. clear Hmem Hvalues. revert Hvalues'.
    rewrite (cas_step_memory a) by done.
    destruct (cas_succeeds spurious st m); intros Hvalues'.
    + exists (cas_value st :: values). split.
      * cbn [app]. constructor; [by rewrite Hi|exact Hvalues'].
      * by rewrite load32_store32_as_type.
    + by exists values.
  - rewrite run_schedule_skip, cas_success_order_skip by done. by apply IH.
Qed.

(** The threads [sigma], run one after the other, succeed in that order. *)
Lemma cas_success_order_sequential a sigma values threads m :
  NoDup sigma →
  Forall2 (λ i v, threads !! i = Some (AtLoad a v)) sigma values →
  cas_success_order (sequential_schedule sigma) (threads, m) = sigma.
Proof.
  intros Hnodup Hall. revert threads m Hall.
  induction values as [|v values IH] in sigma, Hnodup |- *;
    intros threads m Hall.
  - by apply Forall2_nil_inv_r in Hall as ->.
  - apply Forall2_cons_inv_r in Hall as (i & sigma' & Hi & Hall & ->).
    apply NoDup_cons in Hnodup as [Hnotin Hnodup].
    change (sequential_schedule (i :: sigma'))
      with ([(i, false); (i, false)] ++ sequential_schedule sigma').
    rewrite cas_success_order_app, (cas_run_thread a _ _ _ v) by done.
    rewrite IH; [|done|].
    + rewrite (cas_success_order_step _ _ _ _ _ (AtLoad a v)) by done.
      cbn [cas_succeeds app atomic_fetch_add_relaxed_step fst snd].
      rewrite (cas_success_order_step _ _ _ _ _
                 (AtCas a v (atomic_load_explicit a m)
                    (T_add (as_type_T (atomic_load_explicit a m)) v)))
        by (apply list_lookup_insert_eq; by eapply lookup_lt_Some).
      cbn [cas_succeeds]. unfold atomic_compare_exchange_weak_explicit,
        atomic_load_explicit.
      by rewrite decide_True by done.
    + apply Forall2_same_length_lookup in Hall as [Hlen Hall].
      apply Forall2_same_length_lookup. split; [done|].
      intros k j w Hj Hw. rewrite list_lookup_insert_ne; [by eapply Hall|].
      intros ->. apply Hnotin. by eapply list_elem_of_lookup_2.
Qed.
End emulated.

(** ** Launches of the accumulating kernels *)

Lemma spawn_length {St} (prologue : Z → option St) n threads :
  spawn prologue n = Some threads → length threads = n.
Proof.
  intros Hs. apply length_mapM in Hs. rewrite length_seqZ in Hs. lia.
Qed.

Lemma spawn_Forall {St} (prologue : Z → option St) (P : St → Prop) n threads :
  (∀ t st, prologue t = Some st → P st) →
  spawn prologue n = Some threads → Forall P threads.
Proof.
  intros HP Hs. apply mapM_Some_1 in Hs.
  eapply Forall2_Forall_r; [done|]. apply Forall_forall. eauto.
Qed.

Lemma spawn_native_pending `{IndexTable Tbl} (args : kernel_args Tbl) n threads :
  spawn (index_put_accumulate_native_dtypes args) n = Some threads →
  Forall (λ st, native_returned st = false) threads.
Proof.
  apply spawn_Forall. intros t st. unfold index_put_accumulate_native_dtypes.
  destruct (get_idx _ _ _ _); [|done]. simpl.
  destruct (index_offset _ _); [|done]. simpl. by intros [= <-].
Qed.

Lemma spawn_cas_at_load `{IndexTable Tbl} `{AsType32 T} (args : kernel_args Tbl)
    n (threads : list (cas_thread T)) :
  spawn (atomic_index_put_accumulate args) n = Some threads →
  Forall (λ st, ∃ v, st = AtLoad (cas_addr st) v) threads.
Proof.
  apply spawn_Forall. intros t st. unfold atomic_index_put_accumulate.
  destruct (get_idx _ _ _ _); [|done]. simpl.
  destruct (index_offset _ _); [|done]. simpl. intros [= <-]. by eexists.
Qed.

(** C2, amended. Let the [n] threads of a launch all accumulate into the same
    destination slot.
    - Native path: every interleaving that completes leaves the initial value
      plus the sum of the values there, modulo [2^32] as [int] arithmetic
      wraps, hence exactly that sum when it fits in an [int]; and the launch
      can complete.
    - Emulated path: in every interleaving that completes, the
      compare-and-swap of each thread succeeds exactly once, and the slot is
      left with the initial value to which the values were added one at a
      time in the order in which the compare-and-swaps succeeded; and for
      every order of the threads, the interleaving that runs them one after
      the other in that order completes and has that order of successes. *)
Theorem accumulate_under_contention :
  (∀ `{IndexTable Tbl} (args : kernel_args Tbl) (n : nat) threads a m0,
     spawn (index_put_accumulate_native_dtypes args) n = Some threads →
     Forall (λ st, native_addr st = a) threads →
     (∀ sched threads' m',
        run_schedule native_step sched (threads, m0) = (threads', m') →
        Forall (λ st, native_returned st) threads' →
        load32 a m' = wrap32 (load32 a m0 + Zsum (native_value <$> threads))
        ∧ ∀ total,
            total = signed32 (load32 a m0)
                    + Zsum (signed32 ∘ native_value <$> threads) →
            - 2 ^ 31 ≤ total < 2 ^ 31 →
            signed32 (load32 a m') = total)
     ∧ Forall (λ st, native_returned st)
         (run_schedule native_step (sequential_schedule (seq 0 n))
            (threads, m0)).1)
  ∧ (∀ `{IndexTable Tbl} `{AsType32 T} (args : kernel_args Tbl) (n : nat)
       (threads : list (cas_thread T)) a m0,
       AsType32Laws T →
       spawn (atomic_index_put_accumulate args) n = Some threads →
       Forall (λ st, cas_addr st = a) threads →
       (∀ sched threads' m',
          run_schedule atomic_fetch_add_relaxed_step sched (threads, m0)
          = (threads', m') →
          Forall (λ st, cas_returned st) threads' →
          cas_success_order sched (threads, m0) ≡ₚ seq 0 n
          ∧ ∃ values,
              Forall2 (λ i v, cas_value <$> threads !! i = Some v)
                (cas_success_order sched (threads, m0)) values
              ∧ as_type_T (load32 a m')
                = fold_left T_add values (as_type_T (load32 a m0)))
       ∧ (∀ sigma values,
            sigma ≡ₚ seq 0 n →
            Forall2 (λ i v, cas_value <$> threads !! i = Some v) sigma values →
            ∃ threads' m',
              run_schedule atomic_fetch_add_relaxed_step
                (sequential_schedule sigma) (threads, m0) = (threads', m')
              ∧ Forall (λ st, cas_returned st) threads'
              ∧ cas_success_order (sequential_schedule sigma) (threads, m0)
                = sigma
              ∧ as_type_T (load32 a m')
                = fold_left T_add values (as_type_T (load32 a m0)))).
Proof.
  split.
  - intros Tbl ? args n threads a m0 Hspawn Haddr. split.
    + intros sched threads' m' Hrun Hdone.
      assert (native_sys_inv a m0 (threads', m')) as [_ Hmem].
      { rewrite <- Hrun. apply run_schedule_invariant.
        - intros. by apply native_step_invariant.
        - split; [done|]. simpl.
          rewrite native_returned_sum_none by by eapply spawn_native_pending.
          rewrite Z.add_0_r, wrap32_small; [done|apply load32_range]. }
      simpl in Hmem. rewrite Hmem, native_returned_sum_all by done.
      pose proof (native_values_preserved sched threads m0) as Hvals.
      rewrite Hrun in Hvals. simpl in Hvals. rewrite Hvals.
      split; [done|]. intros total -> Htotal.
      apply signed32_wrap32; [done|].
      rewrite list_fmap_compose.
      rewrite <- (wrap32_add_l (signed32 _)), wrap32_signed32, wrap32_add_l.
      by rewrite <- (wrap32_add_r _ (Zsum (signed32 <$> _))),
        wrap32_Zsum_signed32, wrap32_add_r.
    + apply Forall_lookup. intros i st Hi.
      destruct (native_run_returns (sequential_schedule (seq 0 n)) threads m0 i
                  false) as (st' & Hst' & Hret).
      * apply list_elem_of_bind. exists i. split; [by left|].
        apply elem_of_seq. apply lookup_lt_Some in Hi.
        rewrite run_schedule_length, (spawn_length _ _ _ Hspawn) in Hi. lia.
      * apply lookup_lt_Some in Hi. by rewrite run_schedule_length in Hi.
      * by rewrite Hi in Hst'; injection Hst' as <-.
  - intros Tbl ? T ? args n threads a m0 laws Hspawn Haddr.
    assert (Forall (λ st, ∃ v, st = AtLoad a v) threads) as Hstart.
    { apply spawn_cas_at_load in Hspawn.
      rewrite Forall_forall in *. intros st Hst.
      destruct (Hspawn st Hst) as [v Hv]. exists v.
      by rewrite <- (Haddr st Hst). }
    split.
    + intros sched threads' m' Hrun Hdone. split.
      * rewrite <- (spawn_length _ _ _ Hspawn).
        apply (cas_success_order_Permutation threads m0 sched threads' m');
          [|done..].
        eapply Forall_impl; [exact Hstart|]. by intros st [v ->].
      * destruct (cas_run_success_order laws a sched threads m0)
          as (values & Hvalues & Hmem).
        { eapply Forall_impl; [exact Hstart|]. by intros st [v ->]. }
        exists values. split; [done|]. by rewrite Hrun in Hmem.
    + intros sigma values Hperm Hvalues.
      assert (Forall2 (λ i v, threads !! i = Some (AtLoad a v)) sigma values)
        as Hall.
      { eapply Forall2_impl; [done|]. intros i v Hv. simpl in Hv.
        destruct (threads !! i) as [st|] eqn:Hi; [|done].
        rewrite Forall_lookup in Hstart.
        destruct (Hstart i st Hi) as [w ->]. by injection Hv as <-. }
      assert (NoDup sigma) as Hnodup by (rewrite Hperm; apply NoDup_seq).
      destruct (cas_run_sequential laws a sigma values threads m0)
        as (threads' & m' & Hrun & Hmem & Hret & _); [done..|].
      exists threads', m'.
      split_and!; [done| |by eapply cas_success_order_sequential|done].
      apply Forall_lookup. intros i st Hi.
      destruct (Hret i) as (st' & Hst' & Hdone).
      * rewrite Hperm. apply elem_of_seq. apply lookup_lt_Some in Hi.
        pose proof (run_schedule_length atomic_fetch_add_relaxed_step
                      (sequential_schedule sigma) threads m0) as Hlen.
        rewrite Hrun in Hlen. simpl in Hlen.
        rewrite Hlen, (spawn_length _ _ _ Hspawn) in Hi. lia.
      * by rewrite Hi in Hst'; injection Hst' as <-.
Qed.

(** The witness runs two threads of each kernel: the native threads in the
    order 1, 0; the emulated threads in an interleaving in which both load
    1.0, the second succeeds, and the first fails once and retries; and the
    emulated threads one after the other. *)
Lemma accumulate_under_contention_witness :
  (load32 0
     (run_schedule native_step [(1, false); (0, false)]%nat
        (native_pair_threads, store32 0 10 ∅)).2
   = wrap32 (load32 0 (store32 0 10 ∅)
             + Zsum (native_value <$> native_pair_threads))
   ∧ ∀ total,
       total = signed32 (load32 0 (store32 0 10 ∅))
               + Zsum (signed32 ∘ native_value <$> native_pair_threads) →
       - 2 ^ 31 ≤ total < 2 ^ 31 →
       signed32
         (load32 0
            (run_schedule native_step [(1, false); (0, false)]%nat
               (native_pair_threads, store32 0 10 ∅)).2)
       = total)
  ∧ (cas_success_order
       [(0, false); (1, false); (1, false); (0, false); (0, false)]%nat
       (cancel_threads, cancel_output) ≡ₚ seq 0 2
     ∧ ∃ values,
         Forall2 (λ i v, cas_value <$> cancel_threads !! i = Some v)
           (cas_success_order
              [(0, false); (1, false); (1, false); (0, false); (0, false)]%nat
              (cancel_threads, cancel_output)) values
         ∧ as_type_T
             (load32 0
                (run_schedule atomic_fetch_add_relaxed_step
                   [(0, false); (1, false); (1, false); (0, false);
                    (0, false)]%nat
                   (cancel_threads, cancel_output)).2)
           = fold_left T_add values (as_type_T (load32 0 cancel_output)))
  ∧ (∃ threads' m',
       run_schedule atomic_fetch_add_relaxed_step
         (sequential_schedule [0; 1]%nat) (cancel_threads, cancel_output)
       = (threads', m')
       ∧ Forall (λ st, cas_returned st) threads'
       ∧ cas_success_order (sequential_schedule [0; 1]%nat)
           (cancel_threads, cancel_output) = [0; 1]%nat
       ∧ as_type_T (load32 0 m')
         = fold_left T_add
             [float_of_bits f32_2p24; float_of_bits f32_neg_2p24]
             (as_type_T (load32 0 cancel_output))).
Proof.
  split; [|split].
  - apply (proj1 (proj1 accumulate_under_contention _ _ native_pair_args 2%nat
                    native_pair_threads 0 (store32 0 10 ∅) eq_refl
                    ltac:(by repeat constructor))
             [(1, false); (0, false)]%nat
             (run_schedule native_step [(1, false); (0, false)]%nat
                (native_pair_threads, store32 0 10 ∅)).1).
    + by destruct (run_schedule _ _ _).
    + by vm_compute; repeat constructor.
  - apply (proj1 (proj2 accumulate_under_contention _ _ float _ cancel_args
                    2%nat cancel_threads 0 cancel_output float_laws eq_refl
                    ltac:(by repeat constructor))
             [(0, false); (1, false); (1, false); (0, false); (0, false)]%nat
             (run_schedule atomic_fetch_add_relaxed_step
                [(0, false); (1, false); (1, false); (0, false);
                 (0, false)]%nat
                (cancel_threads, cancel_output)).1).
    + by destruct (run_schedule _ _ _).
    + by vm_compute; repeat constructor.
  - apply (proj2 (proj2 accumulate_under_contention _ _ float _ cancel_args
                    2%nat cancel_threads 0 cancel_output float_laws eq_refl
                    ltac:(by repeat constructor))
             [0; 1]%nat [float_of_bits f32_2p24; float_of_bits f32_neg_2p24]).
    + done.
    + by repeat constructor.
Defined.

(** The interleaving of the witness has a failed compare-and-swap: the first
    thread succeeds after the second, and the slot ends at 1.0. *)
Example cancel_interleaved_run :
  cas_success_order
    [(0, false); (1, false); (1, false); (0, false); (0, false)]%nat
    (cancel_threads, cancel_output) = [1; 0]%nat
  ∧ load32 0
      (run_schedule atomic_fetch_add_relaxed_step
         [(0, false); (1, false); (1, false); (0, false); (0, false)]%nat
         (cancel_threads, cancel_output)).2 = f32_1.
Proof. by vm_compute. Qed.

(** The two sequential interleavings of [cancel_threads]: 1.0 + 16777216.0
    rounds to 16777216.0, so adding 16777216.0 first leaves 0.0, and adding
    -16777216.0 first leaves 1.0. *)
Example cancel_runs :
  load32 0 (run_schedule atomic_fetch_add_relaxed_step
              (sequential_schedule [0; 1]%nat) (cancel_threads, cancel_output)).2
  = 0
  ∧ load32 0 (run_schedule atomic_fetch_add_relaxed_step
                (sequential_schedule [1; 0]%nat) (cancel_threads, cancel_output)).2
    = f32_1.
Proof. by vm_compute. Qed.

(** C2 as stated fails on the emulated path: the two threads of the launch of
    [cancel_args] accumulate into the same slot, and two interleavings leave
    different values there, so no value is "the initial value plus the sum"
    under every interleaving. *)
Lemma float_accumulate_depends_on_order :
  spawn (atomic_index_put_accumulate cancel_args) 2%nat = Some cancel_threads
  ∧ Forall (λ st, cas_addr st = 0) cancel_threads
  ∧ ¬ accumulate_order_independent cancel_threads 0 cancel_output.
Proof.
  split_and!; [reflexivity|by repeat constructor|].
  intros [total Htotal].
  destruct (run_schedule atomic_fetch_add_relaxed_step
              (sequential_schedule [0; 1]%nat) (cancel_threads, cancel_output))
    as [threads1 m1] eqn:Hrun1.
  destruct (run_schedule atomic_fetch_add_relaxed_step
              (sequential_schedule [1; 0]%nat) (cancel_threads, cancel_output))
    as [threads2 m2] eqn:Hrun2.
  pose proof cancel_runs as [H1 H2]. rewrite Hrun1 in H1. rewrite Hrun2 in H2.
  simpl in H1, H2.
  assert (Forall (λ st, cas_returned st) threads1) as Hdone1.
  { apply (f_equal (λ s, cas_returned <$> s.1)) in Hrun1. vm_compute in Hrun1.
    destruct threads1 as [|st1 [|st2 [|? ?]]]; try discriminate Hrun1.
    injection Hrun1 as Hst1 Hst2. repeat constructor; by apply Is_true_true. }
  assert (Forall (λ st, cas_returned st) threads2) as Hdone2.
  { apply (f_equal (λ s, cas_returned <$> s.1)) in Hrun2. vm_compute in Hrun2.
    destruct threads2 as [|st1 [|st2 [|? ?]]]; try discriminate Hrun2.
    injection Hrun2 as Hst1 Hst2. repeat constructor; by apply Is_true_true. }
  pose proof (Htotal _ _ _ Hrun1 Hdone1) as Ht1.
  pose proof (Htotal _ _ _ Hrun2 Hdone2) as Ht2.
  rewrite H1 in Ht1. rewrite H2 in Ht2.
  rewrite <- Ht2 in Ht1. by apply (f_equal float_bits) in Ht1.
Qed.

(** * Further properties of the kernels *)

(** ** [get_idx] *)

Lemma get_idx_loop_is_Some iter_shape strides n dim idx acc :
  is_Some (get_idx_loop iter_shape strides n dim idx acc)
  ↔ ∀ d, (dim ≤ d < dim + n)%nat →
         (∃ s, iter_shape !! d = Some s ∧ s ≠ 0) ∧ is_Some (strides !! d).
Proof.
  revert dim idx acc. induction n as [|n IH]; intros dim idx acc.
  - split; [intros _ d Hd; lia|by eexists].
  - cbn [get_idx_loop]. split.
    + intros Hsome d Hd.
      destruct (iter_shape !! dim) as [s|] eqn:Hs; [|by destruct Hsome].
      simpl in Hsome. destruct (decide (s = 0)); [by destruct Hsome|].
      destruct (strides !! dim) as [st|] eqn:Hst; [|by destruct Hsome].
      simpl in Hsome. destruct (decide (d = dim)) as [->|Hne].
      * rewrite Hs, Hst. split; by eauto.
      * eapply IH; [done|lia].
    + intros Hall. destruct (Hall dim) as [(s & Hs & Hs0) [st Hst]]; [lia|].
      rewrite Hs. simpl. rewrite decide_False by done. rewrite Hst. simpl.
      apply IH. intros d Hd. apply Hall. lia.
Qed.

(** X1. [get_idx] has a result exactly when each of the first
    [num_dimensions] entries of the shape exists and is not zero and each of
    the first [num_dimensions] strides exists. This does not depend on the
    thread id: the threads of a grid are all defined or all undefined. *)
Theorem get_idx_defined :
  ∀ tid iter_shape num_dimensions strides,
    (is_Some (get_idx tid iter_shape num_dimensions strides)
     ↔ ∀ d, (d < num_dimensions)%nat →
            (∃ s, iter_shape !! d = Some s ∧ s ≠ 0) ∧ is_Some (strides !! d))
    ∧ ∀ tid',
        is_Some (get_idx tid iter_shape num_dimensions strides)
        ↔ is_Some (get_idx tid' iter_shape num_dimensions strides).
Proof.
  intros tid iter_shape n strides.
  assert (∀ t, is_Some (get_idx t iter_shape n strides)
               ↔ ∀ d, (d < n)%nat →
                   (∃ s, iter_shape !! d = Some s ∧ s ≠ 0)
                   ∧ is_Some (strides !! d)) as Hdef.
  { intros t. unfold get_idx. rewrite get_idx_loop_is_Some.
    split; intros Hall d Hd; apply Hall; lia. }
  split; [apply Hdef|]. intros tid'. by rewrite !Hdef.
Qed.

Lemma get_idx_loop_mod_product pre shape strides idx acc :
  Forall (λ s, 0 < s) shape →
  get_idx_loop (pre ++ shape) strides (length shape) (length pre) idx acc
  = get_idx_loop (pre ++ shape) strides (length shape) (length pre)
      (idx mod product shape) acc.
Proof.
  intros Hpos. revert pre idx acc.
  induction Hpos as [|s shape Hs Hpos IH]; intros pre idx acc; [done|].
  assert (0 < product shape) as Hprod by by apply product_pos.
  assert (product (s :: shape) = s * product shape) as -> by done.
  cbn [get_idx_loop length]. rewrite list_lookup_middle by done. simpl.
  rewrite !decide_False by lia.
  destruct (strides !! length pre) as [st|]; [|done]. simpl.
  rewrite Z.rem_mul_r by lia.
  replace ((idx mod s + s * ((idx / s) mod product shape)) mod s)
    with (idx mod s).
  2: { apply Z.mod_unique with ((idx / s) mod product shape); [|lia].
       left. apply Z.mod_pos_bound. lia. }
  replace ((idx mod s + s * ((idx / s) mod product shape)) / s)
    with ((idx / s) mod product shape).
  2: { apply Z.div_unique with (idx mod s); [|lia].
       left. apply Z.mod_pos_bound. lia. }
  specialize (IH (pre ++ [s])).
  rewrite <- app_assoc, length_app, Nat.add_1_r in IH. simpl in IH.
  rewrite (IH (idx / s)).
  rewrite (IH ((idx / s) mod product shape)).
  by rewrite Z.mod_mod by lia.
Qed.

(** X2. [get_idx] does not check the thread id against the grid: over a shape
    of positive extents a thread id has the offsets of its remainder modulo
    the product of the extents, so a thread beyond the grid aliases a thread
    of the grid. *)
Theorem get_idx_wraps_thread_id (tid : Z) (iter_shape : list Z)
    (strides : list uint3) :
  Forall (λ s, 0 < s) iter_shape →
  get_idx tid iter_shape (length iter_shape) strides
  = get_idx (tid mod product iter_shape) iter_shape (length iter_shape) strides.
Proof. intros Hpos. by apply (get_idx_loop_mod_product []). Qed.

Lemma get_idx_wraps_thread_id_witness :
  get_idx 17 [4; 3] 2 [Uint3 4 4 0; Uint3 16 0 8]
  = get_idx (17 mod product [4; 3]) [4; 3] 2 [Uint3 4 4 0; Uint3 16 0 8].
Proof.
  apply (get_idx_wraps_thread_id 17 [4; 3] [Uint3 4 4 0; Uint3 16 0 8]).
  repeat constructor.
Defined.

Lemma wrap32_accumulate a b w :
  wrap32 (wrap32 (a + wrap32 b) + w) = wrap32 (a + (b + w)).
Proof.
  rewrite wrap32_add_l.
  transitivity (wrap32 (wrap32 b + (a + w))); [f_equal; lia|].
  rewrite wrap32_add_l. f_equal. lia.
Qed.

Lemma offsets_sum_components coords sts acc :
  0 ≤ vec_x acc < 2 ^ 32 → 0 ≤ vec_y acc < 2 ^ 32 → 0 ≤ vec_z acc < 2 ^ 32 →
  vec_x (offsets_sum coords sts acc)
  = wrap32 (vec_x acc + weighted_sum coords (vec_x <$> sts))
  ∧ vec_y (offsets_sum coords sts acc)
    = wrap32 (vec_y acc + weighted_sum coords (vec_y <$> sts))
  ∧ vec_z (offsets_sum coords sts acc)
    = wrap32 (vec_z acc + weighted_sum coords (vec_z <$> sts)).
Proof.
  revert sts acc. induction coords as [|c coords IH];
    intros [|st sts] acc Hx Hy Hz;
    cbn [fmap list_fmap offsets_sum weighted_sum];
    try (by rewrite !Z.add_0_r, !wrap32_small).
  destruct (IH sts (uint3_add acc (uint3_scale c st))) as (-> & -> & ->);
    try apply wrap32_range.
  cbn [vec_x vec_y vec_z uint3_add uint3_scale].
  by rewrite !wrap32_accumulate.
Qed.

(** X3. Each component of the result of [get_idx] is the sum, modulo [2^32],
    of the coordinates of the thread times that component of the strides: the
    three offsets are computed independently of each other, and each is a
    [uint]. *)
Theorem get_idx_weighted_sum (tid : Z) (iter_shape : list Z)
    (num_dimensions : nat) (strides : list uint3) (coords : list Z) :
  get_idx_coords iter_shape num_dimensions 0 tid = Some coords →
  (num_dimensions ≤ length strides)%nat →
  ∃ offsets,
    get_idx tid iter_shape num_dimensions strides = Some offsets
    ∧ vec_x offsets = wrap32 (weighted_sum coords (vec_x <$> strides))
    ∧ vec_y offsets = wrap32 (weighted_sum coords (vec_y <$> strides))
    ∧ vec_z offsets = wrap32 (weighted_sum coords (vec_z <$> strides)).
Proof.
  intros Hcoords Hlen. eexists. split.
  - unfold get_idx. by apply get_idx_loop_coords.
  - rewrite drop_0.
    destruct (offsets_sum_components coords strides (uint3_splat 0))
      as (-> & -> & ->); try (simpl; lia).
    by cbn [vec_x vec_y vec_z uint3_splat].
Qed.

Lemma get_idx_weighted_sum_witness :
  ∃ offsets,
    get_idx 7 [4; 3] 2 [Uint3 4 4 0; Uint3 16 0 8] = Some offsets
    ∧ vec_x offsets = wrap32 (weighted_sum [3; 1] [4; 16])
    ∧ vec_y offsets = wrap32 (weighted_sum [3; 1] [4; 0])
    ∧ vec_z offsets = wrap32 (weighted_sum [3; 1] [0; 8]).
Proof.
  apply (get_idx_weighted_sum 7 [4; 3] 2 [Uint3 4 4 0; Uint3 16 0 8] [3; 1]).
  - reflexivity.
  - simpl. lia.
Defined.

(** ** The index loop *)

Section index_loop.
Context `{IndexTable Tbl}.
Implicit Types (args : kernel_args Tbl).

(** Normalized indices within their dimensions, times strides that are not
    negative, sum up to at most the largest offset. *)
Lemma wraparound_sum_bounds sizes sts indices :
  (∀ j index, indices !! j = Some index →
     ∃ size st, sizes !! j = Some size ∧ sts !! j = Some st
                ∧ - size ≤ index < size ∧ 0 ≤ st) →
  0 ≤ weighted_sum (zip_with wraparound sizes indices) sts
    ≤ max_index_offset (take (length indices) sizes)
        (take (length indices) sts).
Proof.
  revert sizes sts. induction indices as [|index indices IH];
    intros sizes sts Hall.
  - rewrite !take_0. by destruct sizes.
  - destruct (Hall 0%nat index eq_refl)
      as (size & st & Hsize & Hst & Hindex & Hst0).
    destruct sizes as [|size' sizes]; [done|]. injection Hsize as ->.
    destruct sts as [|st' sts]; [done|]. injection Hst as ->.
    cbn [length take zip_with weighted_sum]. unfold max_index_offset in *.
    cbn [zip_with Zsum foldr].
    specialize (IH sizes sts (λ j index' Hj, Hall (S j) index' Hj)).
    assert (0 ≤ wraparound size index ≤ size - 1) as Hw
      by (unfold wraparound; destruct (decide (index < 0)); lia).
    assert (0 ≤ wraparound size index * st ≤ (size - 1) * st).
    { split; [apply Z.mul_nonneg_nonneg; lia|].
      apply Z.mul_le_mono_nonneg_r; lia. }
    unfold Zsum in IH. lia.
Qed.

Lemma index_offset_loop_sizes_unread args sizes' z n i offset :
  (∀ j handle index, (i ≤ j < i + n)%nat →
     index_array (indexAB args) j = Some handle →
     constant_mem args
       !! (handle + sizeof_int64_t * (z / sizeof_int64_t)) = Some index →
     0 ≤ index) →
  index_offset_loop args z n i offset
  = index_offset_loop (with_index_sizes args sizes') z n i offset.
Proof.
  revert i offset. induction n as [|n IH]; intros i offset Hall; [done|].
  cbn [index_offset_loop]. simpl.
  destruct (index_array (indexAB args) i) as [h|] eqn:Hh; [|done]. simpl.
  destruct (constant_mem args !! _) as [idx|] eqn:Hidx; [|done]. simpl.
  assert (0 ≤ idx) by (eapply (Hall i); [lia|done..]).
  unfold normalize_index. rewrite !decide_False by lia. simpl.
  destruct (indexStrides args !! i) as [st|]; [|done]. simpl.
  apply IH. intros j h' idx' Hj. apply Hall. lia.
Qed.

Lemma index_offset_loop_aux_truncated args z n i offset :
  index_offset_loop args z n i offset
  = index_offset_loop args (sizeof_int64_t * (z / sizeof_int64_t)) n i offset.
Proof.
  revert i offset. induction n as [|n IH]; intros i offset; [done|].
  cbn [index_offset_loop]. unfold sizeof_int64_t in *.
  replace (8 * (z / 8) / 8) with (z / 8)
    by (rewrite Z.mul_comm, Z.div_mul; lia).
  destruct (index_array (indexAB args) i) as [h|]; [|done]. simpl.
  destruct (constant_mem args !! _) as [idx|]; [|done]. simpl.
  destruct (normalize_index _ _ _) as [idx'|]; [|done]. simpl.
  destruct (indexStrides args !! i) as [st|]; [|done]. simpl.
  apply IH.
Qed.
End index_loop.

(** X4. When every index a thread reads lies within its dimension, in
    [[-size, size)], the index strides are not negative and the largest offset
    [sum (size - 1) * stride] fits in an [int64_t], then the index loop has a
    result and nothing wraps around: the indirect offset is the sum of the
    normalized indices times the index strides, as integers, where the
    normalized index is what [normalize_index] returns; and it lies between 0
    and that largest offset, so the kernel addresses an element of the indexed
    tensor. *)
Theorem index_offset_in_bounds `{IndexTable Tbl} (args : kernel_args Tbl)
    (offsets_z : Z) (indices : list Z) :
  length indices = num_indices args →
  (∀ i index, indices !! i = Some index →
     index_in_range args offsets_z i index) →
  max_index_offset (take (num_indices args) (indexSizes args))
    (take (num_indices args) (indexStrides args)) < 2 ^ 63 →
  index_offset args offsets_z
  = Some (weighted_sum (zip_with wraparound (indexSizes args) indices)
            (indexStrides args))
  ∧ (∀ i index N, indices !! i = Some index → indexSizes args !! i = Some N →
       normalize_index (indexSizes args) i index = Some (wraparound N index))
  ∧ 0 ≤ weighted_sum (zip_with wraparound (indexSizes args) indices)
          (indexStrides args)
      ≤ max_index_offset (take (num_indices args) (indexSizes args))
          (take (num_indices args) (indexStrides args)).
Proof.
  intros Hlen Hall Hmax.
  assert (0 ≤ weighted_sum (zip_with wraparound (indexSizes args) indices)
                (indexStrides args)
            ≤ max_index_offset (take (num_indices args) (indexSizes args))
                (take (num_indices args) (indexStrides args))) as Hbounds.
  { rewrite <- Hlen. apply wraparound_sum_bounds. intros j index Hj.
    destruct (Hall j index Hj)
      as [(handle & size & _ & _ & Hsize & Hindex & _) (st & Hst & Hst0)].
    by exists size, st. }
  split_and!; [|intros i index N Hi HN|lia..].
  - rewrite (index_offset_wraparound args offsets_z indices Hlen).
    + unfold wraparound_offset. f_equal. apply wrap64_small. lia.
    + intros i index Hi. destruct (Hall i index Hi) as [Hwithin (st & Hst & _)].
      split; [done|by exists st].
  - destruct (Hall i index Hi)
      as [(handle & size & _ & _ & Hsize & Hindex & Hrange) _].
    rewrite HN in Hsize. injection Hsize as <-.
    by apply normalize_index_within.
Qed.

Lemma index_offset_in_bounds_witness :
  index_offset two_handles_args 0
  = Some (weighted_sum (zip_with wraparound (indexSizes two_handles_args)
                          [-1; 1])
            (indexStrides two_handles_args))
  ∧ (∀ i index N, [-1; 1] !! i = Some index →
       indexSizes two_handles_args !! i = Some N →
       normalize_index (indexSizes two_handles_args) i index
       = Some (wraparound N index))
  ∧ 0 ≤ weighted_sum (zip_with wraparound (indexSizes two_handles_args)
                        [-1; 1])
          (indexStrides two_handles_args)
      ≤ max_index_offset
          (take (num_indices two_handles_args) (indexSizes two_handles_args))
          (take (num_indices two_handles_args)
             (indexStrides two_handles_args)).
Proof.
  apply (index_offset_in_bounds two_handles_args 0 [-1; 1]).
  - reflexivity.
  - intros [|[|i]] index Hi; [| |done]; injection Hi as <-.
    + split; [exists 4096, 4|exists 12]; split_and!; (reflexivity || lia).
    + split; [exists 8192, 2|exists 4]; split_and!; (reflexivity || lia).
  - by vm_compute.
Defined.

(** X5. The index loop reads [indexSizes] for negative indices only, and checks
    no index against its dimension: when the indices a thread reads are not
    negative, the indirect offset is the same for every [indexSizes] buffer, so
    an index beyond its dimension is used as it is. *)
Theorem index_offset_ignores_sizes `{IndexTable Tbl} (args : kernel_args Tbl)
    (index_sizes : list Z) (offsets_z : Z) :
  (∀ i handle index, (i < num_indices args)%nat →
     index_array (indexAB args) i = Some handle →
     constant_mem args
       !! (handle + sizeof_int64_t * (offsets_z / sizeof_int64_t)) = Some index →
     0 ≤ index) →
  index_offset args offsets_z
  = index_offset (with_index_sizes args index_sizes) offsets_z.
Proof.
  intros Hall. apply index_offset_loop_sizes_unread.
  intros j h idx Hj Hh Hidx. simpl in Hj. apply (Hall j h idx); [lia|done..].
Qed.

Lemma index_offset_ignores_sizes_witness :
  index_offset (gather_rows_args ∅) 8
  = index_offset (with_index_sizes (gather_rows_args ∅) []) 8.
Proof.
  apply (index_offset_ignores_sizes (gather_rows_args ∅) [] 8).
  intros [|i] handle index Hi; [|simpl in Hi; lia].
  intros [= <-]. by intros [= <-].
Defined.

(** X6. The index loop uses the auxiliary offset of a thread only through
    [offsets.z / sizeof(int64_t)]: an auxiliary offset that is not a multiple
    of 8 selects the same index as the multiple of 8 below it. *)
Theorem index_offset_aux_truncated :
  ∀ `{IndexTable Tbl} (args : kernel_args Tbl) (offsets_z : Z),
    index_offset args offsets_z
    = index_offset args (sizeof_int64_t * (offsets_z / sizeof_int64_t)).
Proof. intros. apply index_offset_loop_aux_truncated. Qed.

(** ** Launches of the copy kernels *)

Lemma launch_app {M} (kernel : M → Z → option M) order order' mem :
  launch kernel (order ++ order') mem
  = launch kernel order mem ≫= launch kernel order'.
Proof.
  revert mem. induction order as [|t order IH]; intros mem; [done|].
  cbn [app launch]. destruct (kernel mem t) as [mem'|]; [|done]. simpl.
  apply IH.
Qed.

Section copy_launch.
Context (kernel : gmap Z byte → Z → option (gmap Z byte)) (n : nat)
  (input : gmap Z byte) (dst src : Z → Z).
Implicit Types (order : list Z) (m out : gmap Z byte).

Lemma launch_copy_frame order m0 out b :
  copies kernel n input dst src order → launch kernel order m0 = Some out →
  (∀ t, t ∈ order → ¬ covers n dst b t) → out !!! b = m0 !!! b.
Proof.
  intros Hcopies Hlaunch Hnot.
  destruct (launch_copy kernel n input dst src order m0 Hcopies)
    as (out' & Hout' & Hbytes).
  rewrite Hlaunch in Hout'. injection Hout' as <-.
  destruct (Hbytes b) as [[Hb _]|(t & Ht & Hcov & _)]; [done|].
  by destruct (Hnot t Ht).
Qed.

(** A byte that some thread writes does not depend on the initial contents of
    the output buffer. *)
Lemma launch_copy_covered order m0 m0' out out' b :
  copies kernel n input dst src order →
  launch kernel order m0 = Some out → launch kernel order m0' = Some out' →
  Exists (covers n dst b) order → out !!! b = out' !!! b.
Proof.
  intros Hcopies. revert m0 m0'.
  induction Hcopies as [|t order Ht Hcopies IH]; intros m0 m0' Hl Hl' Hex;
    [by apply Exists_nil in Hex|].
  cbn [launch] in Hl, Hl'. rewrite Ht in Hl, Hl'. simpl in Hl, Hl'.
  destruct (decide (Exists (covers n dst b) order)) as [Hrest|Hrest];
    [by eapply IH|].
  assert (covers n dst b t) as Hcov
    by (by apply Exists_cons in Hex as [?|?]).
  rewrite <- Forall_Exists_neg, Forall_forall in Hrest.
  rewrite (launch_copy_frame order _ out b Hcopies Hl Hrest).
  rewrite (launch_copy_frame order _ out' b Hcopies Hl' Hrest).
  by rewrite !lookup_store_load_bytes.
Qed.

Lemma launch_copy_defined order m0 :
  copies kernel n input dst src order → is_Some (launch kernel order m0).
Proof.
  intros Hcopies.
  destruct (launch_copy kernel n input dst src order m0 Hcopies)
    as (out & -> & _). by eexists.
Qed.

(** Running the launch again on its own output changes no byte. *)
Lemma launch_copy_idempotent order m0 out :
  copies kernel n input dst src order →
  launch kernel order m0 = Some out →
  ∃ out', launch kernel order out = Some out' ∧ ∀ b, out' !!! b = out !!! b.
Proof.
  intros Hcopies Hl.
  destruct (launch_copy_defined order out Hcopies) as [out' Hl'].
  exists out'. split; [done|]. intros b.
  destruct (decide (Exists (covers n dst b) order)) as [Hex|Hnex].
  - by eapply launch_copy_covered.
  - rewrite <- Forall_Exists_neg, Forall_forall in Hnex.
    by eapply launch_copy_frame.
Qed.

(** When no two threads write the same byte, permuting the threads changes
    no byte of the result. *)
Lemma launch_copy_permutation order order' m0 out :
  copies kernel n input dst src order →
  (∀ t t' b, t ∈ order → t' ∈ order →
     covers n dst b t → covers n dst b t' → t = t') →
  order ≡ₚ order' →
  launch kernel order m0 = Some out →
  ∃ out', launch kernel order' m0 = Some out' ∧ ∀ b, out' !!! b = out !!! b.
Proof.
  intros Hcopies Hdisj Hperm Hl.
  assert (copies kernel n input dst src order') as Hcopies'
    by (unfold copies; by rewrite <- Hperm).
  destruct (launch_copy kernel n input dst src order m0 Hcopies)
    as (out1 & Hout1 & Hbytes).
  rewrite Hl in Hout1. injection Hout1 as <-.
  destruct (launch_copy kernel n input dst src order' m0 Hcopies')
    as (out' & Hout' & Hbytes').
  exists out'. split; [done|]. intros b.
  destruct (Hbytes b) as [[-> Hnot]|(t & Ht & Hcov & ->)];
    destruct (Hbytes' b) as [[-> Hnot']|(t' & Ht' & Hcov' & ->)]; try done.
  - destruct (Hnot t'); [by rewrite Hperm|done].
  - destruct (Hnot' t); [by rewrite <- Hperm|done].
  - rewrite <- Hperm in Ht'. by rewrite (Hdisj t t' b Ht Ht' Hcov Hcov').
Qed.
End copy_launch.

Section index_kernel.
Context `{IndexTable Tbl}.
Implicit Types (args : kernel_args Tbl) (op : index_op) (T : dtype).

Lemma index_kernel_resolve op T args m t :
  index_kernel op T args m t
  = (λ r, store_bytes (write_offset op r)
            (load_bytes (sizeof T) (read_offset op r) (inputData args)) m)
      <$> resolve args t.
Proof. destruct op; [apply index_select_resolve|apply index_put_resolve]. Qed.

Lemma launch_index_kernel_resolved op T args order m out :
  launch (index_kernel op T args) order m = Some out →
  Forall (λ t, is_Some (resolve args t)) order.
Proof.
  revert m. induction order as [|t order IH]; intros m Hl; [constructor|].
  cbn [launch] in Hl. rewrite index_kernel_resolve in Hl.
  destruct (resolve args t) as [r|] eqn:Hr; [|done]. simpl in Hl.
  constructor; [by rewrite Hr|by eapply IH].
Qed.

Lemma index_kernel_copies op T args order :
  Forall (λ t, is_Some (resolve args t)) order →
  copies (index_kernel op T args) (sizeof T) (inputData args)
    (write_offset_of op args) (read_offset_of op args) order.
Proof.
  intros Hall. unfold copies. eapply Forall_impl; [done|].
  intros t [r Hr] m. simpl.
  rewrite index_kernel_resolve. unfold write_offset_of, read_offset_of.
  by rewrite Hr.
Qed.

Lemma covers_write_offset_of op T args t r b :
  resolve args t = Some r →
  covers (sizeof T) (write_offset_of op args) b t
  ↔ write_offset op r ≤ b < write_offset op r + Z.of_nat (sizeof T).
Proof. intros Hr. unfold covers, write_offset_of. by rewrite Hr. Qed.
End index_kernel.

(** X7. A launch of [index_select] or [index_put], in any thread order,
    changes only bytes of elements that its threads write; and the element of
    a thread holds the element the thread read from [inputData] unless a
    thread later in the order writes an overlapping element: the last writer
    wins. *)
Theorem launch_index_kernel_last_writer `{IndexTable Tbl} (op : index_op)
    (T : dtype) (args : kernel_args Tbl) (order : list Z)
    (outputData out : gmap Z byte) :
  launch (index_kernel op T args) order outputData = Some out →
  (∀ b,
     (∀ t r, t ∈ order → resolve args t = Some r →
        ¬ (write_offset op r ≤ b < write_offset op r + Z.of_nat (sizeof T))) →
     out !!! b = outputData !!! b)
  ∧ (∀ before t after r,
       order = before ++ t :: after →
       resolve args t = Some r →
       (∀ t', t' ∈ after → writes_disjoint op T args t t') →
       load_bytes (sizeof T) (write_offset op r) out
       = load_bytes (sizeof T) (read_offset op r) (inputData args)).
Proof.
  intros Hl.
  pose proof (launch_index_kernel_resolved _ _ _ _ _ _ Hl) as Hres.
  split.
  - intros b Hnot.
    eapply launch_copy_frame; [by apply index_kernel_copies|done|].
    intros t Ht. rewrite Forall_forall in Hres.
    destruct (Hres t Ht) as [r Hr].
    rewrite (covers_write_offset_of _ _ _ _ _ _ Hr). by eapply Hnot.
  - intros before t after r -> Hr Hdisj.
    rewrite launch_app in Hl.
    destruct (launch _ before outputData) as [m1|]; [|done].
    cbn [mbind option_bind launch] in Hl.
    rewrite index_kernel_resolve, Hr in Hl. simpl in Hl.
    apply Forall_app in Hres as [_ Hres].
    apply Forall_cons in Hres as [_ Hres].
    apply load_bytes_ext. intros k Hk.
    rewrite (launch_copy_frame _ _ _ _ _ after _ out _
               (index_kernel_copies op T args after Hres) Hl).
    + rewrite lookup_store_load_bytes by lia. f_equal. lia.
    + intros t' Ht'. rewrite Forall_forall in Hres.
      destruct (Hres t' Ht') as [r' Hr'].
      rewrite (covers_write_offset_of _ _ _ _ _ _ Hr').
      destruct (Hdisj t' Ht' r r' Hr Hr'); lia.
Qed.

Lemma launch_index_kernel_last_writer_witness :
  (∀ b,
     (∀ t r, t ∈ [0; 1] → resolve native_pair_args t = Some r →
        ¬ (write_offset put r ≤ b < write_offset put r + Z.of_nat (sizeof int))) →
     store32 0 7 ∅ !!! b = (∅ : gmap Z byte) !!! b)
  ∧ (∀ before t after r,
       [0; 1] = before ++ t :: after →
       resolve native_pair_args t = Some r →
       (∀ t', t' ∈ after → writes_disjoint put int native_pair_args t t') →
       load_bytes (sizeof int) (write_offset put r) (store32 0 7 ∅)
       = load_bytes (sizeof int) (read_offset put r)
           (inputData native_pair_args)).
Proof.
  apply (launch_index_kernel_last_writer put int native_pair_args [0; 1] ∅
           (store32 0 7 ∅)).
  by vm_compute.
Defined.

(** X8. When no two threads of a launch of [index_select] or [index_put]
    write overlapping elements, the launch leaves the same bytes in
    [outputData] for every order of its threads. *)
Theorem launch_index_kernel_order_independent `{IndexTable Tbl}
    (op : index_op) (T : dtype) (args : kernel_args Tbl) (order order' : list Z)
    (outputData out : gmap Z byte) :
  launch (index_kernel op T args) order outputData = Some out →
  (∀ t t', t ∈ order → t' ∈ order → t ≠ t' → writes_disjoint op T args t t') →
  order ≡ₚ order' →
  ∃ out',
    launch (index_kernel op T args) order' outputData = Some out'
    ∧ ∀ b, out' !!! b = out !!! b.
Proof.
  intros Hl Hdisj Hperm.
  pose proof (launch_index_kernel_resolved _ _ _ _ _ _ Hl) as Hres.
  eapply launch_copy_permutation; [by apply index_kernel_copies| |done..].
  intros t t' b Ht Ht' Hcov Hcov'.
  destruct (decide (t = t')) as [|Hne]; [done|].
  rewrite Forall_forall in Hres.
  destruct (Hres t Ht) as [r Hr]. destruct (Hres t' Ht') as [r' Hr'].
  rewrite (covers_write_offset_of _ _ _ _ _ _ Hr) in Hcov.
  rewrite (covers_write_offset_of _ _ _ _ _ _ Hr') in Hcov'.
  destruct (Hdisj t t' Ht Ht' Hne r r' Hr Hr'); lia.
Qed.

Lemma launch_index_kernel_order_independent_witness :
  ∃ out',
    launch (index_kernel select int (gather_rows_args ∅)) [2; 0; 1] ∅
    = Some out'
    ∧ ∀ b, out' !!! b
           = default ∅ (launch (index_kernel select int (gather_rows_args ∅))
                          [0; 1; 2] ∅) !!! b.
Proof.
  apply (launch_index_kernel_order_independent select int (gather_rows_args ∅)
           [0; 1; 2] [2; 0; 1] ∅).
  - by vm_compute.
  - intros t t' Ht Ht' Hne r r' Hr Hr'.
    repeat (apply elem_of_cons in Ht as [->|Ht]);
      [..|by apply elem_of_nil in Ht];
      (repeat (apply elem_of_cons in Ht' as [->|Ht']);
       [..|by apply elem_of_nil in Ht']);
      try done;
      vm_compute in Hr, Hr'; injection Hr as <-; injection Hr' as <-;
      simpl; lia.
  - by apply (bool_decide_unpack _).
Defined.

(** X9. Running a launch of [index_select] or [index_put] a second time, with
    the same arguments and thread order, on the output of the first run
    changes no byte. *)
Theorem launch_index_kernel_idempotent `{IndexTable Tbl} (op : index_op)
    (T : dtype) (args : kernel_args Tbl) (order : list Z)
    (outputData out : gmap Z byte) :
  launch (index_kernel op T args) order outputData = Some out →
  ∃ out',
    launch (index_kernel op T args) order out = Some out'
    ∧ ∀ b, out' !!! b = out !!! b.
Proof.
  intros Hl.
  pose proof (launch_index_kernel_resolved _ _ _ _ _ _ Hl) as Hres.
  eapply launch_copy_idempotent; [by apply index_kernel_copies|done].
Qed.

Lemma launch_index_kernel_idempotent_witness :
  ∃ out',
    launch (index_kernel put int native_pair_args) [0; 1] (store32 0 7 ∅)
    = Some out'
    ∧ ∀ b, out' !!! b = store32 0 7 ∅ !!! b.
Proof.
  apply (launch_index_kernel_idempotent put int native_pair_args [0; 1] ∅).
  by vm_compute.
Defined.

(** ** Launches of [kernel_index_offsets] *)

Lemma launch_kernel_index_offsets_defined strides iter_shape num_dimensions
    num_offsets order (data_offsets out : gmap Z uint3) :
  launch (λ m t, kernel_index_offsets strides m iter_shape num_dimensions
                   num_offsets t) order data_offsets = Some out →
  Forall (λ t, is_Some (get_idx t iter_shape num_dimensions strides)) order.
Proof.
  revert data_offsets. induction order as [|t order IH]; intros m Hl;
    [constructor|].
  cbn [launch] in Hl. rewrite kernel_index_offsets_get_idx in Hl.
  destruct (get_idx t _ _ _) as [v|] eqn:Hv; [|done]. simpl in Hl.
  constructor; [by rewrite Hv|by eapply IH].
Qed.

(** X10. A launch of [kernel_index_offsets], in any thread order and also
    with a thread occurring more than once, leaves at the position of each of
    its threads the result of [get_idx] for that thread and leaves every other
    position of the array as it was. *)
Theorem launch_kernel_index_offsets_table (strides : list uint3)
    (iter_shape : list Z) (num_dimensions : nat) (num_offsets : Z)
    (order : list Z) (data_offsets out : gmap Z uint3) :
  launch (λ m t, kernel_index_offsets strides m iter_shape num_dimensions
                   num_offsets t) order data_offsets = Some out →
  ∀ t,
    (t ∈ order →
     get_idx t iter_shape num_dimensions strides = Some (out !!! t))
    ∧ (t ∉ order → out !!! t = data_offsets !!! t).
Proof.
  intros Hl t.
  pose proof (launch_kernel_index_offsets_defined _ _ _ _ _ _ _ Hl) as Hdef.
  destruct (launch_kernel_index_offsets strides iter_shape num_dimensions
              num_offsets
              (λ t, default (uint3_splat 0)
                      (get_idx t iter_shape num_dimensions strides))
              order data_offsets) as (out' & Hl' & Hout).
  { eapply Forall_impl; [done|]. by intros t' [v ->]. }
  rewrite Hl in Hl'. injection Hl' as <-. rewrite Hout. split.
  - intros Ht. rewrite decide_True by done.
    rewrite Forall_forall in Hdef. by destruct (Hdef t Ht) as [v ->].
  - intros Ht. by rewrite decide_False.
Qed.

Lemma launch_kernel_index_offsets_table_witness :
  (2 ∈ [2; 0; 2] →
   get_idx 2 [3] 1 [Uint3 4 8 0]
   = Some ((<[0 := Uint3 0 0 0]> (<[2 := Uint3 8 16 0]> ∅) : gmap Z uint3)
             !!! 2))
  ∧ (2 ∉ [2; 0; 2] →
     (<[0 := Uint3 0 0 0]> (<[2 := Uint3 8 16 0]> ∅) : gmap Z uint3) !!! 2
     = (∅ : gmap Z uint3) !!! 2).
Proof.
  refine (launch_kernel_index_offsets_table [Uint3 4 8 0] [3] 1 3 [2; 0; 2] ∅
            _ _ 2).
  by vm_compute.
Defined.

(** ** Progress of [atomic_fetch_add_relaxed] *)

(** X11. [atomic_fetch_add_relaxed] is obstruction free: a thread that has
    not returned and takes two steps in a row, with no other thread in between
    and no spurious failure, has returned after them, and the slot then holds
    the sum of the value it held before the two steps and the thread's
    value. *)
Theorem atomic_fetch_add_relaxed_obstruction_free `{AsType32 T} (addr : Z)
    (value : T) (st : cas_thread T) (m : gmap Z byte) :
  cas_reachable addr value st →
  cas_returned st = false →
  let s1 := atomic_fetch_add_relaxed_step false st m in
  atomic_fetch_add_relaxed_step false s1.1 s1.2
  = (Returned addr value,
     store32 addr (as_type_uint (T_add (as_type_T (load32 addr m)) value)) m).
Proof.
  intros Hreach Hpending. apply cas_reachable_invariant in Hreach.
  pose proof (cas_step_invariant addr value st false m Hreach) as Hinv1.
  cbv zeta. rewrite (cas_step_spec addr value _ false) by done.
  rewrite (cas_step_spec addr value st false m) in * by done.
  destruct st as [a v|a v expected updated|a v];
    [| |discriminate Hpending]; cbn -[load32 store32].
  - by rewrite bool_decide_eq_true_2.
  - destruct (bool_decide (load32 addr m = expected)) eqn:Hcur;
      cbn -[load32 store32]; [done|].
    by rewrite bool_decide_eq_true_2.
Qed.

Lemma atomic_fetch_add_relaxed_obstruction_free_witness :
  let s1 := atomic_fetch_add_relaxed_step false retry_example
              (store32 0 f32_3 ∅) in
  atomic_fetch_add_relaxed_step false s1.1 s1.2
  = (Returned 0 (float_of_bits f32_1),
     store32 0
       (as_type_uint
          (T_add (as_type_T (load32 0 (store32 0 f32_3 ∅)))
             (float_of_bits f32_1)))
       (store32 0 f32_3 ∅)).
Proof.
  apply (atomic_fetch_add_relaxed_obstruction_free 0 (float_of_bits f32_1)
           retry_example (store32 0 f32_3 ∅)).
  - apply cas_reachable_step, cas_reachable_step, cas_reachable_start.
  - reflexivity.
Defined.

Section progress.
Context `{AsType32 T}.
Implicit Types (st : cas_thread T) (threads : list (cas_thread T))
  (m : gmap Z byte).

Lemma pending_count_insert_same threads i st st' :
  threads !! i = Some st → cas_returned st' = cas_returned st →
  pending_count (<[i := st']> threads) = pending_count threads.
Proof.
  intros Hi Hst.
  destruct (insert_split threads i st st' Hi) as (l1 & l2 & Hl & ->).
  rewrite Hl. unfold pending_count. rewrite !filter_app, !length_app.
  f_equal. destruct (cas_returned st) eqn:Hr.
  - by rewrite !filter_cons_False by by rewrite ?Hst, ?Hr.
  - by rewrite !filter_cons_True by by rewrite ?Hst, ?Hr.
Qed.

Lemma pending_count_insert_returned threads i st a v :
  threads !! i = Some st → cas_returned st = false →
  pending_count threads = S (pending_count (<[i := Returned a v]> threads)).
Proof.
  intros Hi Hst.
  destruct (insert_split threads i st (Returned a v) Hi) as (l1 & l2 & Hl & ->).
  rewrite Hl. unfold pending_count. rewrite !filter_app, !length_app.
  rewrite filter_cons_True by done. rewrite filter_cons_False by done.
  simpl. lia.
Qed.

Lemma pending_count_pos threads i st :
  threads !! i = Some st → cas_returned st = false →
  (1 ≤ pending_count threads)%nat.
Proof.
  intros Hi Hst. rewrite <- (take_drop_middle threads i st Hi).
  unfold pending_count. rewrite filter_app, length_app.
  rewrite filter_cons_True by done. simpl. lia.
Qed.

Lemma cas_threads_step_invariant a threads m i spurious st :
  Forall (λ st, cas_invariant a (cas_value st) st) threads →
  threads !! i = Some st →
  Forall (λ st, cas_invariant a (cas_value st) st)
    (<[i := (atomic_fetch_add_relaxed_step spurious st m).1]> threads).
Proof.
  intros Hinv Hi. apply Forall_insert; [done|].
  rewrite cas_step_value. apply cas_step_invariant.
  rewrite Forall_lookup in Hinv. by eapply Hinv.
Qed.

(** A step without spurious failure of thread [i] lowers its potential; a
    step of another thread does not raise it. *)
Lemma cas_potential_step a i threads m j :
  Forall (λ st, cas_invariant a (cas_value st) st) threads →
  (cas_potential a i (sys_step atomic_fetch_add_relaxed_step (threads, m)
                        (j, false))
   ≤ cas_potential a i (threads, m) - (if decide (j = i) then 1 else 0))%nat.
Proof.
  intros Hinv. unfold sys_step. cbn [fst snd].
  destruct (threads !! j) as [stj|] eqn:Hj.
  2: { unfold cas_potential. cbn [fst snd].
       destruct (decide (j = i)) as [->|]; [rewrite Hj|]; lia. }
  assert (cas_invariant a (cas_value stj) stj) as Hstj
    by (rewrite Forall_lookup in Hinv; by eapply Hinv).
  assert (j < length threads)%nat as Hlen by by eapply lookup_lt_Some.
  rewrite (cas_step_spec a (cas_value stj)) by done.
  unfold cas_potential.
  destruct stj as [aj vj|aj vj expected updated|aj vj]; cbn [fst snd cas_value].
  - rewrite (pending_count_insert_same _ _ (AtLoad aj vj)) by done.
    destruct (decide (j = i)) as [->|Hne].
    + rewrite list_lookup_insert_eq, Hj by done.
      rewrite decide_True by done. lia.
    + rewrite list_lookup_insert_ne by done. lia.
  - destruct (decide (load32 a m = expected)) as [Hcur|Hcur].
    + rewrite bool_decide_eq_true_2 by done. cbn [andb negb fst snd].
      pose proof (pending_count_insert_returned threads j _ a vj Hj eq_refl)
        as Hcount.
      destruct (decide (j = i)) as [->|Hne].
      * rewrite list_lookup_insert_eq by done. lia.
      * rewrite list_lookup_insert_ne by done.
        destruct (threads !! i) as [[ai vi|ai vi ei ui|ai vi]|]; try lia.
        repeat destruct (decide _); lia.
    + rewrite bool_decide_eq_false_2 by done. cbn [andb fst snd].
      rewrite (pending_count_insert_same _ _ (AtCas aj vj expected updated))
        by done.
      destruct (decide (j = i)) as [->|Hne].
      * rewrite list_lookup_insert_eq, Hj by done.
        rewrite decide_True, decide_False by done. lia.
      * rewrite list_lookup_insert_ne by done. lia.
  - rewrite list_insert_id by done.
    destruct (decide (j = i)) as [->|Hne]; [rewrite Hj|]; lia.
Qed.

Lemma cas_potential_run a i sched threads m :
  Forall (λ st, cas_invariant a (cas_value st) st) threads →
  Forall (λ ev, ev.2 = false) sched →
  (cas_potential a i (run_schedule atomic_fetch_add_relaxed_step sched
                        (threads, m))
   ≤ cas_potential a i (threads, m) - steps_of i sched)%nat.
Proof.
  intros Hinv Hsched. revert threads m Hinv.
  induction Hsched as [|[j sp] sched Hsp _ IH]; intros threads m Hinv.
  - unfold steps_of. simpl. lia.
  - simpl in Hsp. subst sp. rewrite run_schedule_cons.
    pose proof (cas_potential_step a i threads m j Hinv) as Hstep.
    destruct (sys_step atomic_fetch_add_relaxed_step (threads, m) (j, false))
      as [threads1 m1] eqn:Hs1.
    assert (Forall (λ st, cas_invariant a (cas_value st) st) threads1) as Hinv1.
    { unfold sys_step in Hs1. cbn [fst snd] in Hs1.
      destruct (threads !! j) as [stj|] eqn:Hj; [|by injection Hs1 as <- <-].
      pose proof (cas_threads_step_invariant a threads m j false stj Hinv Hj)
        as Hnext.
      destruct (atomic_fetch_add_relaxed_step false stj m).
      by injection Hs1 as <- <-. }
    specialize (IH threads1 m1 Hinv1).
    assert (steps_of i ((j, false) :: sched)
            = ((if decide (j = i) then 1 else 0) + steps_of i sched)%nat) as ->.
    { unfold steps_of. destruct (decide (j = i)) as [->|Hne].
      - by rewrite filter_cons_True by done.
      - by rewrite filter_cons_False by done. }
    lia.
Qed.
End progress.

(** X12. Without spurious failures [atomic_fetch_add_relaxed] is not only lock
    free but bounded: when [K] threads accumulate into the same slot, a thread
    has returned once the schedule has given it [K + 1] steps, whatever the
    other threads do in between. A compare-and-swap fails only after another
    thread's has succeeded, and each thread succeeds once. *)
Theorem atomic_fetch_add_relaxed_bounded `{AsType32 T} (a : Z)
    (threads : list (cas_thread T)) (m : gmap Z byte)
    (sched : list (nat * bool)) (i : nat) :
  Forall (λ st, ∃ v, st = AtLoad a v) threads →
  Forall (λ ev, ev.2 = false) sched →
  (i < length threads)%nat →
  (length threads + 1 ≤ steps_of i sched)%nat →
  ∃ st,
    (run_schedule atomic_fetch_add_relaxed_step sched (threads, m)).1 !! i
    = Some st
    ∧ cas_returned st.
Proof.
  intros Hstart Hsched Hi Hsteps.
  assert (Forall (λ st, cas_invariant a (cas_value st) st) threads) as Hinv.
  { eapply Forall_impl; [done|]. by intros st [v ->]. }
  pose proof (cas_potential_run a i sched threads m Hinv Hsched) as Hpot.
  assert (cas_potential a i (threads, m) ≤ length threads + 1)%nat as Hinit.
  { unfold cas_potential. cbn [fst snd].
    assert (pending_count threads ≤ length threads)%nat
      by apply length_filter.
    destruct (threads !! i) as [[? ?|? ? e ?|? ?]|]; try lia.
    destruct (decide _); lia. }
  destruct (run_schedule atomic_fetch_add_relaxed_step sched (threads, m))
    as [threads' m'] eqn:Hrun.
  pose proof (run_schedule_length atomic_fetch_add_relaxed_step sched threads m)
    as Hlen.
  rewrite Hrun in Hlen. cbn [fst] in Hlen |- *.
  destruct (lookup_lt_is_Some_2 threads' i) as [st Hst]; [lia|].
  exists st. split; [done|].
  destruct (cas_returned st) eqn:Hret; [done|].
  pose proof (pending_count_pos threads' i st Hst Hret) as Hpos.
  unfold cas_potential in Hpot at 1. cbn [fst snd] in Hpot. rewrite Hst in Hpot.
  destruct st as [? ?|? ? e ?|? ?]; [lia| |done].
  destruct (decide _); lia.
Qed.

Lemma atomic_fetch_add_relaxed_bounded_witness :
  ∃ st,
    (run_schedule atomic_fetch_add_relaxed_step
       [(0, false); (1, false); (0, false); (1, false); (0, false)]%nat
       (cancel_threads, cancel_output)).1 !! 0%nat
    = Some st
    ∧ cas_returned st.
Proof.
  apply (atomic_fetch_add_relaxed_bounded 0 cancel_threads cancel_output
           [(0, false); (1, false); (0, false); (1, false); (0, false)]%nat 0).
  - repeat constructor; by eexists.
  - by repeat constructor.
  - simpl. lia.
  - by vm_compute.
Defined.

(** X13. A thread whose compare-and-swaps all fail spuriously never returns:
    in every schedule that marks each step of thread [i] as a spurious
    failure, thread [i] is still inside [atomic_fetch_add_relaxed] at the end,
    however many steps it was given. The loop has no bound on its retries. *)
Theorem atomic_fetch_add_relaxed_spurious_livelock `{AsType32 T}
    (threads : list (cas_thread T)) (m : gmap Z byte)
    (sched : list (nat * bool)) (i : nat) (st : cas_thread T) :
  threads !! i = Some st →
  cas_returned st = false →
  Forall (λ ev, ev.1 = i → ev.2 = true) sched →
  ∃ st',
    (run_schedule atomic_fetch_add_relaxed_step sched (threads, m)).1 !! i
    = Some st'
    ∧ cas_returned st' = false.
Proof.
  intros Hi Hst Hsched. revert threads m st Hi Hst.
  induction Hsched as [|[j sp] sched Hsp _ IH]; intros threads m st Hi Hst;
    [by exists st|].
  rewrite run_schedule_cons. unfold sys_step. cbn [fst snd] in *.
  destruct (threads !! j) as [stj|] eqn:Hj; [|by eapply IH].
  destruct (atomic_fetch_add_relaxed_step sp stj m) as [st1 m1] eqn:Hstep.
  destruct (decide (j = i)) as [->|Hne].
  - rewrite Hi in Hj. injection Hj as <-. rewrite (Hsp eq_refl) in Hstep.
    apply (IH _ _ st1).
    + apply list_lookup_insert_eq. by eapply lookup_lt_Some.
    + destruct st as [a v|a v expected updated|a v];
        cbn -[load32 store32] in Hstep; [by injection Hstep as <- <-| |done].
      unfold atomic_compare_exchange_weak_explicit in Hstep.
      destruct (decide _); by injection Hstep as <- <-.
  - apply (IH _ _ st); [|done]. by rewrite list_lookup_insert_ne.
Qed.

Lemma atomic_fetch_add_relaxed_spurious_livelock_witness :
  ∃ st',
    (run_schedule atomic_fetch_add_relaxed_step
       [(0, true); (1, false); (0, true); (1, false); (0, true); (0, true)]%nat
       (cancel_threads, cancel_output)).1 !! 0%nat
    = Some st'
    ∧ cas_returned st' = false.
Proof.
  apply (atomic_fetch_add_relaxed_spurious_livelock cancel_threads cancel_output
           [(0, true); (1, false); (0, true); (1, false); (0, true); (0, true)]%nat
           0 (AtLoad 0 (float_of_bits f32_2p24))).
  - reflexivity.
  - reflexivity.
  - repeat constructor; simpl; (done || lia).
Defined.

(** ** Accumulation into several destinations *)

Lemma load32_store32_apart a a' v m :
  slot_apart a a' → load32 a (store32 a' v m) = load32 a m.
Proof.
  intros Hapart. unfold load32, store32. f_equal.
  apply load_bytes_ext. intros k Hk. apply lookup_store_bytes_out.
  rewrite length_le_encode. unfold slot_apart in Hapart. lia.
Qed.

Lemma omap_insert_same {A B} (f : A → option B) (l : list A) i x y :
  l !! i = Some x → f y = f x → omap f (<[i := y]> l) = omap f l.
Proof.
  intros Hi Hf. destruct (insert_split l i x y Hi) as (l1 & l2 & Hl & ->).
  rewrite Hl, !omap_app. simpl. by rewrite Hf.
Qed.

Lemma omap_insert_new {A B} (f : A → option B) (l : list A) i x y v :
  l !! i = Some x → f x = None → f y = Some v →
  omap f (<[i := y]> l) ≡ₚ v :: omap f l.
Proof.
  intros Hi Hx Hy. destruct (insert_split l i x y Hi) as (l1 & l2 & Hl & ->).
  rewrite Hl, !omap_app. simpl. rewrite Hx, Hy. by rewrite Permutation_middle.
Qed.

(** *** The native path *)

Lemma native_returned_sum_at_insert a threads i a' v :
  threads !! i = Some (NativePending a' v) →
  native_returned_sum_at a (<[i := NativeReturned a' v]> threads)
  = native_returned_sum_at a threads + (if bool_decide (a' = a) then v else 0).
Proof.
  intros Hi. destruct (insert_split threads i _ (NativeReturned a' v) Hi)
    as (l1 & l2 & Hl & ->).
  rewrite Hl. unfold native_returned_sum_at.
  rewrite !fmap_app, !Zsum_app. unfold Zsum. simpl. lia.
Qed.

Lemma native_step_invariant_at a m0 threads m i spurious st :
  native_sys_inv_at a m0 (threads, m) → threads !! i = Some st →
  native_sys_inv_at a m0 (<[i := (native_step spurious st m).1]> threads,
                          (native_step spurious st m).2).
Proof.
  intros [Haddr Hmem] Hi. cbn [fst snd] in *.
  assert (native_addr st = a ∨ slot_apart a (native_addr st)) as Ha
    by (rewrite Forall_lookup in Haddr; by eapply Haddr).
  destruct st as [a' v|a' v]; cbn [native_addr native_step fst snd] in *.
  - split; cbn [fst snd].
    + by apply Forall_insert.
    + rewrite (native_returned_sum_at_insert _ _ _ _ _ Hi).
      unfold atomic_fetch_add_explicit. cbn [snd].
      destruct Ha as [->|Hapart].
      * rewrite bool_decide_eq_true_2 by done.
        rewrite load32_store32, wrap32_idemp, Hmem, wrap32_add_l.
        f_equal. lia.
      * rewrite load32_store32_apart by done.
        rewrite bool_decide_eq_false_2, Z.add_0_r; [done|].
        unfold slot_apart in Hapart. lia.
  - rewrite list_insert_id by done. done.
Qed.

Lemma native_returned_sum_at_all a threads :
  Forall (λ st, native_returned st) threads →
  native_returned_sum_at a threads = Zsum (native_values_at a threads).
Proof.
  unfold native_returned_sum_at, native_values_at.
  induction 1 as [|st threads Hst _ IH]; [done|].
  rewrite fmap_cons. cbn [omap list_omap]. unfold Zsum in *.
  apply Is_true_true in Hst. rewrite Hst. cbn [andb foldr].
  destruct (bool_decide _); cbn [foldr]; rewrite IH; done.
Qed.

Lemma native_returned_sum_at_none a threads :
  Forall (λ st, native_returned st = false) threads →
  native_returned_sum_at a threads = 0.
Proof.
  unfold native_returned_sum_at.
  induction 1 as [|st threads Hst _ IH]; [done|].
  rewrite fmap_cons. unfold Zsum in *. cbn [foldr]. by rewrite IH, Hst.
Qed.

Lemma native_values_at_preserved a sched threads m :
  native_values_at a (run_schedule native_step sched (threads, m)).1
  = native_values_at a threads.
Proof.
  apply (run_schedule_invariant native_step
           (λ s, native_values_at a s.1 = native_values_at a threads)); [|done].
  clear. intros ts m i spurious st Hinv Hi. cbn [fst] in *.
  rewrite <- Hinv. unfold native_values_at.
  apply omap_insert_same with st; [done|]. by destruct st.
Qed.

(** X14. The native accumulating kernel sums per destination: when every
    thread of a launch accumulates into the slot at [a] or into a slot that
    does not overlap it, every interleaving that completes leaves in the slot
    at [a] its initial value plus the values of exactly the threads that
    accumulate into it, modulo [2^32]; accumulation into other slots does not
    disturb it. *)
Theorem native_accumulate_per_destination `{IndexTable Tbl}
    (args : kernel_args Tbl) (n : nat) (threads threads' : list native_thread)
    (a : Z) (m0 m' : gmap Z byte) (sched : list (nat * bool)) :
  spawn (index_put_accumulate_native_dtypes args) n = Some threads →
  Forall (λ st, native_addr st = a ∨ slot_apart a (native_addr st)) threads →
  run_schedule native_step sched (threads, m0) = (threads', m') →
  Forall (λ st, native_returned st) threads' →
  load32 a m' = wrap32 (load32 a m0 + Zsum (native_values_at a threads)).
Proof.
  intros Hspawn Haddr Hrun Hdone.
  assert (native_sys_inv_at a m0 (threads', m')) as [_ Hmem].
  { rewrite <- Hrun. apply run_schedule_invariant.
    - intros. by apply native_step_invariant_at.
    - split; [done|]. cbn [fst snd].
      rewrite native_returned_sum_at_none by by eapply spawn_native_pending.
      rewrite Z.add_0_r, wrap32_small; [done|apply load32_range]. }
  cbn [fst snd] in Hmem. rewrite Hmem, native_returned_sum_at_all by done.
  pose proof (native_values_at_preserved a sched threads m0) as Hvals.
  rewrite Hrun in Hvals. cbn [fst] in Hvals. by rewrite Hvals.
Qed.

Lemma native_accumulate_per_destination_witness :
  load32 0
    (run_schedule native_step [(1, false); (2, false); (0, false)]%nat
       (native_triple_threads, store32 0 100 ∅)).2
  = wrap32 (load32 0 (store32 0 100 ∅)
            + Zsum (native_values_at 0 native_triple_threads)).
Proof.
  apply (native_accumulate_per_destination native_triple_args 3
           native_triple_threads
           (run_schedule native_step [(1, false); (2, false); (0, false)]%nat
              (native_triple_threads, store32 0 100 ∅)).1
           0 (store32 0 100 ∅) _ [(1, false); (2, false); (0, false)]%nat).
  - reflexivity.
  - repeat constructor; unfold slot_apart; simpl; lia.
  - by destruct (run_schedule _ _ _).
  - by vm_compute; repeat constructor.
Defined.

(** *** The emulated path *)

Section emulated_at.
Context `{AsType32 T} (laws : AsType32Laws T).
Implicit Types (st : cas_thread T) (threads : list (cas_thread T))
  (m : gmap Z byte).

Lemma cas_step_addr spurious st m :
  cas_addr (atomic_fetch_add_relaxed_step spurious st m).1 = cas_addr st.
Proof.
  destruct st as [a v|a v expected updated|a v]; simpl; try done.
  unfold atomic_compare_exchange_weak_explicit.
  destruct (decide _); [destruct spurious|]; done.
Qed.

Lemma cas_step_sys_invariant_at a m0 threads m i spurious st :
  cas_sys_inv_at a m0 (threads, m) → threads !! i = Some st →
  cas_sys_inv_at a m0
    (<[i := (atomic_fetch_add_relaxed_step spurious st m).1]> threads,
     (atomic_fetch_add_relaxed_step spurious st m).2).
Proof.
  intros (Hinv & Haddr & order & Hperm & Hmem) Hi. cbn [fst snd] in *.
  assert (cas_invariant (cas_addr st) (cas_value st) st) as Hst
    by (rewrite Forall_lookup in Hinv; by eapply Hinv).
  assert (cas_addr st = a ∨ slot_apart a (cas_addr st)) as Ha
    by (rewrite Forall_lookup in Haddr; by eapply Haddr).
  split_and!; cbn [fst snd].
  { apply Forall_insert; [done|]. rewrite cas_step_value, cas_step_addr.
    by apply cas_step_invariant. }
  { apply Forall_insert; [done|]. by rewrite cas_step_addr. }
  rewrite (cas_step_spec (cas_addr st) (cas_value st)) by done.
  destruct st as [a' v|a' v expected updated|a' v];
    cbn [cas_addr cas_value fst snd] in *.
  - exists order. split; [|done]. unfold cas_returned_values_at.
    by rewrite (omap_insert_same _ _ _ (AtLoad a' v)).
  - destruct (bool_decide (load32 a' m = expected) && negb spurious);
      cbn [fst snd].
    + destruct Ha as [->|Hapart].
      * exists (order ++ [v]). split.
        -- unfold cas_returned_values_at in *.
           rewrite (omap_insert_new _ _ _ (AtCas a v expected updated) _ v);
             [|done|done|].
           ++ by rewrite <- Hperm, Permutation_app_comm.
           ++ cbn [cas_returned cas_addr cas_value andb].
              by rewrite bool_decide_eq_true_2.
        -- rewrite load32_store32_as_type by done.
           by rewrite fold_left_app, <- Hmem.
      * exists order. split.
        -- unfold cas_returned_values_at in *.
           rewrite (omap_insert_same _ _ _ (AtCas a' v expected updated));
             [done..|].
           cbn [cas_returned cas_addr andb]. rewrite bool_decide_eq_false_2;
             [done|]. unfold slot_apart in Hapart. lia.
        -- by rewrite load32_store32_apart.
    + exists order. split; [|done]. unfold cas_returned_values_at.
      by rewrite (omap_insert_same _ _ _ (AtCas a' v expected updated)).
  - exists order. by rewrite list_insert_id.
Qed.

Lemma cas_values_at_preserved a sched threads m :
  cas_values_at a
    (run_schedule atomic_fetch_add_relaxed_step sched (threads, m)).1
  = cas_values_at a threads.
Proof.
  apply (run_schedule_invariant atomic_fetch_add_relaxed_step
           (λ s, cas_values_at a s.1 = cas_values_at a threads)); [|done].
  clear. intros ts m i spurious st Hinv Hi. cbn [fst] in *.
  rewrite <- Hinv. unfold cas_values_at.
  apply omap_insert_same with st; [done|].
  by rewrite cas_step_addr, cas_step_value.
Qed.

Lemma cas_returned_values_at_all a threads :
  Forall (λ st, cas_returned st) threads →
  cas_returned_values_at a threads = cas_values_at a threads.
Proof.
  unfold cas_returned_values_at, cas_values_at.
  induction 1 as [|st threads Hst _ IH]; [done|].
  cbn [omap list_omap]. apply Is_true_true in Hst. rewrite Hst. cbn [andb].
  destruct (bool_decide _); [f_equal|]; exact IH.
Qed.

Lemma cas_returned_values_at_none a threads :
  Forall (λ st, cas_returned st = false) threads →
  cas_returned_values_at a threads = [].
Proof.
  unfold cas_returned_values_at.
  induction 1 as [|st threads Hst _ IH]; [done|].
  cbn [omap list_omap]. rewrite Hst. exact IH.
Qed.

Lemma cas_run_complete_at a threads m0 sched threads' m' :
  Forall (λ st, ∃ v, st = AtLoad (cas_addr st) v) threads →
  Forall (λ st, cas_addr st = a ∨ slot_apart a (cas_addr st)) threads →
  run_schedule atomic_fetch_add_relaxed_step sched (threads, m0)
  = (threads', m') →
  Forall (λ st, cas_returned st) threads' →
  ∃ order,
    order ≡ₚ cas_values_at a threads
    ∧ as_type_T (load32 a m')
      = fold_left T_add order (as_type_T (load32 a m0)).
Proof.
  intros Hstart Haddr Hrun Hdone.
  assert (cas_sys_inv_at a m0 (threads', m'))
    as (_ & _ & order & Hperm & Hmem); [|cbn [fst snd] in Hperm, Hmem].
  { rewrite <- Hrun. apply run_schedule_invariant.
    - intros. by apply cas_step_sys_invariant_at.
    - split_and!; cbn [fst snd].
      + eapply Forall_impl; [exact Hstart|]. by intros st [v ->].
      + done.
      + exists []. split; [|done].
        rewrite cas_returned_values_at_none; [done|].
        eapply Forall_impl; [exact Hstart|]. by intros st [v ->]. }
  exists order. split; [|done].
  rewrite Hperm, cas_returned_values_at_all by done.
  pose proof (cas_values_at_preserved a sched threads m0) as Hvals.
  rewrite Hrun in Hvals. cbn [fst] in Hvals. by rewrite Hvals.
Qed.
End emulated_at.

(** X15. The emulated accumulating kernel sums per destination: when every
    thread of a launch accumulates into the slot at [a] or into a slot that
    does not overlap it, every interleaving that completes leaves in the slot
    at [a] its initial value with the values of exactly the threads that
    accumulate into it added one at a time, each once, in some order;
    compare-and-swaps on other slots do not disturb it. *)
Theorem atomic_accumulate_per_destination `{IndexTable Tbl} `{AsType32 T}
    (args : kernel_args Tbl) (n : nat) (threads threads' : list (cas_thread T))
    (a : Z) (m0 m' : gmap Z byte) (sched : list (nat * bool)) :
  AsType32Laws T →
  spawn (atomic_index_put_accumulate args) n = Some threads →
  Forall (λ st, cas_addr st = a ∨ slot_apart a (cas_addr st)) threads →
  run_schedule atomic_fetch_add_relaxed_step sched (threads, m0)
  = (threads', m') →
  Forall (λ st, cas_returned st) threads' →
  ∃ order,
    order ≡ₚ cas_values_at a threads
    ∧ as_type_T (load32 a m')
      = fold_left T_add order (as_type_T (load32 a m0)).
Proof.
  intros laws Hspawn Haddr Hrun Hdone.
  eapply cas_run_complete_at; [done| |done..].
  by eapply spawn_cas_at_load.
Qed.

Lemma atomic_accumulate_per_destination_witness :
  ∃ order,
    order ≡ₚ cas_values_at 0 float_triple_threads
    ∧ as_type_T
        (load32 0
           (run_schedule atomic_fetch_add_relaxed_step
              (sequential_schedule [2; 1; 0]%nat)
              (float_triple_threads, store32 0 f32_1 ∅)).2)
      = fold_left T_add order (as_type_T (load32 0 (store32 0 f32_1 ∅))).
Proof.
  apply (atomic_accumulate_per_destination float_triple_args 3
           float_triple_threads
           (run_schedule atomic_fetch_add_relaxed_step
              (sequential_schedule [2; 1; 0]%nat)
              (float_triple_threads, store32 0 f32_1 ∅)).1
           0 (store32 0 f32_1 ∅) _ (sequential_schedule [2; 1; 0]%nat)).
  - apply float_laws.
  - reflexivity.
  - repeat constructor; unfold slot_apart; simpl; lia.
  - by destruct (run_schedule _ _ _).
  - by vm_compute; repeat constructor.
Defined.

(** ** Counting with the emulated accumulation *)

Lemma ones_sum_check_spec n k acc (x : float) :
  ones_sum_check n k acc = true → float_bits x = acc →
  ∀ j, (1 ≤ j ≤ n)%nat →
    float_value_is
      (float_bits (fold_left float_add (replicate j (float_of_bits f32_1)) x))
      (k + Z.of_nat j) = true.
Proof.
  revert k acc x. induction n as [|n IH]; intros k acc x Hcheck Hx j Hj; [lia|].
  cbn [ones_sum_check] in Hcheck. apply andb_true_iff in Hcheck as [Hv Hrest].
  assert (float_of_bits acc = x) as Hacc
    by (rewrite <- Hx; apply float_laws).
  rewrite Hacc in Hv, Hrest.
  destruct j as [|j]; [lia|]. cbn [replicate fold_left].
  destruct j as [|j].
  - cbn [replicate fold_left]. by replace (k + Z.of_nat 1) with (k + 1) by lia.
  - replace (k + Z.of_nat (S (S j))) with (k + 1 + Z.of_nat (S j)) by lia.
    eapply IH; [done..|lia].
Qed.

Lemma ones_sum_check_100000 : ones_sum_check (Z.to_nat 100000) 0 0 = true.
Proof. vm_cast_no_check (eq_refl true). Qed.

(** X16. The emulated accumulation counts exactly: when [K] threads,
    [K <= 100000], each add 1.0 to a [float] slot that holds 0.0, every
    interleaving that completes leaves the [float] [K] in the slot; no update
    is lost and no sum is rounded. *)
Theorem float_accumulate_counts (K : nat) (a : Z) (m0 m' : gmap Z byte)
    (sched : list (nat * bool)) (threads' : list (cas_thread float)) :
  Z.of_nat K ≤ 100000 →
  load32 a m0 = 0 →
  run_schedule atomic_fetch_add_relaxed_step sched
    (replicate K (AtLoad a (float_of_bits f32_1)), m0) = (threads', m') →
  Forall (λ st, cas_returned st) threads' →
  float_value_is (load32 a m') (Z.of_nat K) = true.
Proof.
  intros HK Hm0 Hrun Hdone.
  destruct (cas_run_complete float_laws a
              (replicate K (AtLoad a (float_of_bits f32_1))) m0 sched threads' m')
    as (order & Hperm & Hmem); [|done..|].
  { apply Forall_replicate. by eexists. }
  rewrite fmap_replicate in Hperm. cbn [cas_value] in Hperm.
  symmetry in Hperm. apply replicate_Permutation in Hperm. subst order.
  apply (f_equal float_bits) in Hmem. cbn [as_type_T float_as_type] in Hmem.
  rewrite (as_type_uint_T float float_laws) in Hmem by apply load32_range.
  rewrite Hmem, Hm0.
  destruct K as [|K]; [done|].
  apply (ones_sum_check_spec (Z.to_nat 100000) 0 0);
    [apply ones_sum_check_100000|done|lia].
Qed.

Lemma float_accumulate_counts_witness :
  float_value_is
    (load32 0
       (run_schedule atomic_fetch_add_relaxed_step
          [(0, false); (1, false); (2, false); (1, true); (0, false);
           (2, false); (1, false); (2, false); (1, false); (1, false)]%nat
          (replicate 3 (AtLoad 0 (float_of_bits f32_1)), ∅)).2)
    (Z.of_nat 3) = true.
Proof.
  apply (float_accumulate_counts 3 0 ∅ _
           [(0, false); (1, false); (2, false); (1, true); (0, false);
            (2, false); (1, false); (2, false); (1, false); (1, false)]%nat
           (run_schedule atomic_fetch_add_relaxed_step
              [(0, false); (1, false); (2, false); (1, true); (0, false);
               (2, false); (1, false); (2, false); (1, false); (1, false)]%nat
              (replicate 3 (AtLoad 0 (float_of_bits f32_1)), ∅)).1).
  - lia.
  - reflexivity.
  - by destruct (run_schedule _ _ _).
  - by vm_compute; repeat constructor.
Defined.

(** ** The kernels by host name *)

(** X17. The host names of the kernels of the library are pairwise distinct,
    and the width in the host name of a copy kernel is the width of the
    elements it copies: the instantiation of [index_<op>] at the element type
    [T] is registered under the name [index_<op>_<8 * sizeof(T)>bit] and under
    no other name. *)
Theorem registered_kernels_by_width :
  NoDup registered_kernels.*1
  ∧ ∀ host_name op T,
      (host_name, IndexKernel op T) ∈ registered_kernels
      ↔ host_name = "index_" +:+ index_op_name op +:+ "_"
                    +:+ pretty (8 * Z.of_nat (sizeof T)) +:+ "bit".
Proof.
  split; [by apply (bool_decide_unpack _)|].
  intros host_name op T. split.
  - unfold registered_kernels, REGISTER_INDEX_OP_ALL_DTYPES, REGISTER_INDEX_OP.
    cbn [app]. intros Hin.
    repeat (apply elem_of_cons in Hin as [Heq|Hin];
            [by (discriminate Heq || (injection Heq as -> -> ->))|]).
    by apply elem_of_nil in Hin.
  - intros ->. destruct op, T; vm_compute; repeat constructor.
Qed.

(** ** Accumulation and scatter *)

Lemma le_encode_decode bs : le_encode (length bs) (le_decode bs) = bs.
Proof.
  induction bs as [|b bs IH]; [done|].
  cbn [length le_encode le_decode]. pose proof (Z_of_byte_range b) as Hb.
  f_equal.
  - unfold byte_of_Z.
    replace ((Z_of_byte b + 256 * le_decode bs) mod 256) with (Z_of_byte b)
      by (apply Z.mod_unique with (le_decode bs); lia).
    unfold Z_of_byte. by rewrite N2Z.id, Byte.of_to_N.
  - replace ((Z_of_byte b + 256 * le_decode bs) / 256) with (le_decode bs);
      [done|].
    apply Z.div_unique with (Z_of_byte b); lia.
Qed.

(** X18. The native accumulating kernel is [index_put] for [int] with the
    plain store replaced by the atomic addition: a thread addresses the same
    destination and reads the same input element, and on a destination slot
    that holds 0 its atomic addition leaves the memory that the store of
    [index_put<int>] leaves. *)
Theorem native_accumulate_onto_zero_is_put `{IndexTable Tbl}
    (args : kernel_args Tbl) (thread_index : Z) (outputData : gmap Z byte)
    (st : native_thread) :
  index_put_accumulate_native_dtypes args thread_index = Some st →
  scatter_dest args thread_index = Some (native_addr st)
  ∧ (load32 (native_addr st) outputData = 0 →
     index_put int args outputData thread_index
     = Some (native_step false st outputData).2).
Proof.
  unfold index_put_accumulate_native_dtypes, scatter_dest, resolve, index_put.
  destruct (get_idx _ _ _ _) as [offsets|]; [|done]. cbn [mbind option_bind].
  destruct (index_offset _ _) as [offset|]; [|done]. cbn [mbind option_bind].
  intros [= <-]. cbn [native_addr native_step fst snd]. split; [done|].
  intros Hzero. f_equal. unfold atomic_fetch_add_explicit. cbn [snd].
  rewrite Hzero, Z.add_0_l, wrap32_small by apply load32_range.
  unfold store32, load32.
  pose proof (le_encode_decode (load_bytes 4 (vec_y offsets) (inputData args)))
    as Hbs.
  rewrite length_load_bytes in Hbs. by rewrite Hbs.
Qed.

Lemma native_accumulate_onto_zero_is_put_witness :
  scatter_dest native_triple_args 1 = Some (native_addr (NativePending 4 7))
  ∧ (load32 (native_addr (NativePending 4 7)) ∅ = 0 →
     index_put int native_triple_args ∅ 1
     = Some (native_step false (NativePending 4 7) ∅).2).
Proof.
  apply (native_accumulate_onto_zero_is_put native_triple_args 1 ∅
           (NativePending 4 7)).
  reflexivity.
Defined.
